(** * netqueue: messages over channels and byte streams

    A shallow embedding of package [netqueue] (src/netqueue/queue.go).

    The package bridges Go channels and a byte stream: [write] drains a
    channel of [Message]s into an [io.Writer] in gob format, [read] decodes
    gobs from an [io.Reader] into a channel.  Three layers are modelled:

    - [Gob] and [GobStream]: the part of the standard library's encoding/gob
      that [write] and [read] exercise, where a uint has 64 bits: unsigned
      and signed integers, strings, slices, struct field deltas,
      length-prefixed messages, type definitions of every kind, the
      encoder's record of the types it has sent, the decoder's table of the
      types it has received, its limits on the length of a message, of a
      string and of a slice, its matching of wire fields to the fields of
      [Message] by name, and its skipping of wire fields that [Message]
      lacks.  A Go slice is nil or not: [Args] is an [option].  The
      encoder's refusal of a message of [tooBig] bytes or more is kept
      apart, in [EncodeChecked]: [write] is modelled with [Encode], which
      has no such refusal, the two agree on every message that [fits], and
      what is proved of messages on their way to a decoder is proved of
      messages that [fits].  Two things are outside the model: values of
      interface type, and values whose type is one of the types the library
      itself starts out with.
    - [Chan]: buffered Go channels (capacity, FIFO buffer, close).
    - the two goroutines [write] and [read] as step functions over a state
      that holds their channels, composed with the producer and the
      consumers in an interleaving transition system; a send or receive that
      blocks is a step that is not enabled. *)

From Stdlib Require Import ZArith NArith List String Ascii Bool Lia.
From Stdlib Require Import Strings.Byte.
Import ListNotations.

Local Open Scope N_scope.

(** ** Errors *)

(** Go's [error] values that can travel on the error channels. *)
Inductive error : Type :=
| EOF                      (* io.EOF *)
| ErrUnexpectedEOF         (* io.ErrUnexpectedEOF *)
| errBadUint               (* gob: encoded unsigned integer out of range *)
| errRange                 (* gob: bad data: field numbers out of bounds *)
| errBadType               (* gob: unknown type id or corrupted data *)
| errBadCount              (* invalid message length *)
| errTooBig                (* gob: encoder: message too big *)
| ErrDuplicateType         (* gob: duplicate type received *)
| ErrExtraData             (* extra data in buffer *)
| errWrongType             (* gob: wrong type for a received field, or a
                              value that is no struct, or no field matched *)
| ErrCorrupt               (* any other malformed gob data *)
| ErrIO (reason : string). (* a failure of the underlying writer or reader *)

(** [err != io.EOF] *)
Definition isEOF (e : error) : bool :=
  match e with EOF => true | _ => false end.

(** ** Message *)

(** [Args] is a Go slice: [None] is the nil slice, [Some l] a slice that is
    not nil and holds the strings [l], so that [Some []] is the empty slice
    [[]string{}]. *)
Record Message : Type := { Action : string; Args : option (list string) }.

(** The elements of a slice; a nil slice has none. *)
Definition elems (a : option (list string)) : list string :=
  match a with Some l => l | None => [] end.

(** The size of buffered channels created by ChannelFromWriter. *)
Definition ChanSize : nat := 32.

(** ** encoding/gob *)

Module Gob.

(** uint8(x): the low eight bits. *)
Definition byte_of_N (x : N) : byte :=
  match Byte.of_N (x mod 256) with Some b => b | None => x00 end.

Definition uint64Size : nat := 8.

(** tooBig = (1 << 30) << (^uint(0) >> 62): with a uint of 64 bits, 8 GiB.
    No message and no string may be this long, and no slice may take more
    room than this. *)
Definition tooBig : N := 2 ^ 33.

(** unsafe.Sizeof of a string header and of a pointer, where a uint has 64
    bits. *)
Definition stringSize : N := 16.
Definition pointerSize : N := 8.

(** The last [n] bytes of binary.BigEndian.PutUint64: b[7] = byte(v),
    b[6] = byte(v >> 8), ... *)
Fixpoint bigEndian (n : nat) (v : N) : list byte :=
  match n with
  | O => []
  | S n' => bigEndian n' (N.shiftr v 8) ++ [byte_of_N v]
  end.

Definition PutUint64 (v : N) : list byte := bigEndian uint64Size v.

(** bits.LeadingZeros64(x) >> 3 *)
Fixpoint leadingZeroBytes (bs : list byte) : nat :=
  match bs with
  | x00 :: r => S (leadingZeroBytes r)
  | _ => O
  end.

(** encodeUint: a value up to 0x7F is one byte; otherwise the minimal
    big-endian bytes, preceded by the negated byte count. *)
Definition encodeUint (x : N) : list byte :=
  if x <=? 127 then [byte_of_N x]
  else
    let buf := PutUint64 x in
    let bc := leadingZeroBytes buf in
    byte_of_N (256 + N.of_nat bc - N.of_nat uint64Size) :: skipn bc buf.

(** x = x<<8 | uint64(b) over the bytes of a buffer *)
Definition beValue (bs : list byte) : N :=
  fold_left (fun x b => x * 256 + Byte.to_N b) bs 0.

(** decodeUint on an in-memory buffer: the value and the unread rest. *)
Definition decodeUint (buf : list byte) : (N * list byte) + error :=
  match buf with
  | [] => inr EOF
  | b :: r =>
      if Byte.to_N b <=? 127 then inl (Byte.to_N b, r)
      else
        let n := N.to_nat (256 - Byte.to_N b) in
        if (uint64Size <? n)%nat then inr errBadUint
        else if (List.length r <? n)%nat then inr ErrCorrupt
        else inl (beValue (firstn n r), skipn n r)
  end.

(** toInt: the sign is bit 0, the magnitude (complemented when negative) is
    above it. *)
Definition toInt (x : N) : Z :=
  if N.testbit x 0 then Z.lnot (Z.of_N (N.shiftr x 1))
  else Z.of_N (N.shiftr x 1).

Definition encodeInt (i : Z) : list byte :=
  if (i <? 0)%Z then encodeUint (Z.to_N (Z.lor (Z.shiftl (Z.lnot i) 1) 1))
  else encodeUint (Z.to_N (Z.shiftl i 1)).

Definition decodeInt (buf : list byte) : (Z * list byte) + error :=
  match decodeUint buf with
  | inr e => inr e
  | inl (x, r) => inl (toInt x, r)
  end.

(** getLength: a byte count, which must be one the rest of the buffer can
    hold and less than [tooBig]. *)
Definition getLength (buf : list byte) : (nat * list byte) + error :=
  match decodeUint buf with
  | inr e => inr e
  | inl (n, r) =>
      if (N.of_nat (List.length r) <? n) || (tooBig <=? n) then inr ErrCorrupt
      else inl (N.to_nat n, r)
  end.

(** *** Strings, slices and structs *)

(** The bytes of a Go string; [len(s)] is the length of this list. *)
Definition bytesOf (s : string) : list byte := list_byte_of_string s.

Definition encodeString (s : string) : list byte :=
  encodeUint (N.of_nat (List.length (bytesOf s))) ++ bytesOf s.

(** decString *)
Definition decodeString (buf : list byte) : (string * list byte) + error :=
  match getLength buf with
  | inr e => inr e
  | inl (n, r) => inl (string_of_list_byte (firstn n r), skipn n r)
  end.

(** A slice is its length followed by its elements. *)
Definition encodeSlice {A} (elem : A -> list byte) (l : list A) : list byte :=
  encodeUint (N.of_nat (List.length l)) ++ List.concat (map elem l).

(** decodeArrayHelper: [n] elements, each of which must find bytes left. *)
Fixpoint decodeElems {A} (elem : list byte -> (A * list byte) + error)
    (n : nat) (buf : list byte) : (list A * list byte) + error :=
  match n with
  | O => inl ([], buf)
  | S n' =>
      match buf with
      | [] => inr ErrCorrupt   (* length exceeds input size *)
      | _ =>
          match elem buf with
          | inr e => inr e
          | inl (x, r) =>
              match decodeElems elem n' r with
              | inr e => inr e
              | inl (xs, r') => inl (x :: xs, r')
              end
          end
      end
  end.

(** decodeSlice: the count, refused when that many elements of [size]
    bytes each take more room than [tooBig], then the elements. *)
Definition decodeSlice {A} (size : N) (elem : list byte -> (A * list byte) + error)
    (buf : list byte) : (list A * list byte) + error :=
  match decodeUint buf with
  | inr e => inr e
  | inl (u, r) =>
      if tooBig <? u * size then inr ErrCorrupt
      else decodeElems elem (N.to_nat u) r
  end.

(** The fields of a struct in field order, [None] for a field that holds its
    zero value and is therefore not sent.  Each field sent is preceded by
    the distance from the previous field sent; a zero ends the struct. *)
Fixpoint encodeFields (delta : N) (fields : list (option (list byte))) : list byte :=
  match fields with
  | [] => encodeUint 0
  | None :: r => encodeFields (delta + 1) r
  | Some v :: r => encodeUint delta ++ v ++ encodeFields 1 r
  end.

Definition encodeStruct (fields : list (option (list byte))) : list byte :=
  encodeFields 1 fields.

Definition fieldString (s : string) : option (list byte) :=
  match bytesOf s with [] => None | _ => Some (encodeString s) end.

Definition fieldInt (i : Z) : option (list byte) :=
  if (i =? 0)%Z then None else Some (encodeInt i).

Definition fieldSlice {A} (elem : A -> list byte) (l : list A) : option (list byte) :=
  match l with [] => None | _ => Some (encodeSlice elem l) end.

(** decodeStruct: read (delta, value) pairs until the zero delta or the end
    of the buffer; [engine] holds one decoding operation per field number.
    A delta that is negative as an int is refused.  Every round moves to a
    higher field number, so [S (length engine)] rounds of [fuel] are never
    used up. *)
Fixpoint decodeFields {A} (fuel : nat)
    (engine : list (A -> list byte -> (A * list byte) + error))
    (fieldnum : Z) (acc : A) (buf : list byte) : (A * list byte) + error :=
  match fuel with
  | O => inr errRange
  | S fuel' =>
      match buf with
      | [] => inl (acc, [])
      | _ =>
          match decodeUint buf with
          | inr e => inr e
          | inl (delta, buf1) =>
              if 2 ^ 63 <=? delta then inr ErrCorrupt
              else if delta =? 0 then inl (acc, buf1)
              else if (Z.of_nat (List.length engine) - Z.of_N delta <=? fieldnum)%Z
              then inr errRange
              else
                let fieldnum' := (fieldnum + Z.of_N delta)%Z in
                match nth_error engine (Z.to_nat fieldnum') with
                | None => inr errRange
                | Some op =>
                    match op acc buf1 with
                    | inr e => inr e
                    | inl (acc', buf2) => decodeFields fuel' engine fieldnum' acc' buf2
                    end
                end
          end
      end
  end.

Definition decodeStruct {A}
    (engine : list (A -> list byte -> (A * list byte) + error))
    (zero : A) (buf : list byte) : (A * list byte) + error :=
  decodeFields (S (List.length engine)) engine (-1) zero buf.

(** The operation of one field: decode a value and store it. *)
Definition decField {A B} (dec : list byte -> (B * list byte) + error)
    (store : A -> B -> A) : A -> list byte -> (A * list byte) + error :=
  fun acc buf =>
    match dec buf with
    | inr e => inr e
    | inl (x, r) => inl (store acc x, r)
    end.

(** *** Type descriptions *)

(** type typeId int32 *)
Definition typeId : Type := Z.

(** typeId(x) of an int [x]: the low 32 bits, signed. *)
Definition toTypeId (x : Z) : typeId :=
  ((x + 2 ^ 31) mod 2 ^ 32 - 2 ^ 31)%Z.

Definition tBool : typeId := 1%Z.
Definition tInt : typeId := 2%Z.
Definition tUint : typeId := 3%Z.
Definition tFloat : typeId := 4%Z.
Definition tBytes : typeId := 5%Z.
Definition tString : typeId := 6%Z.
Definition tComplex : typeId := 7%Z.
Definition tInterface : typeId := 8%Z.
Definition firstUserId : typeId := 64%Z.
(** The ids the type registry hands out to [Message] and to [[]string] when
    [Message] is the first type the process registers. *)
Definition tMessage : typeId := 65%Z.
Definition tArgs : typeId := 66%Z.

Record CommonType : Type := { Name : string; Id : typeId }.
Record fieldType : Type := { fieldName : string; fieldId : typeId }.
Record arrayType : Type :=
  { arrayCommon : CommonType; arrayElem : typeId; arrayLen : Z }.
Record sliceType : Type := { sliceCommon : CommonType; sliceElem : typeId }.
Record structType : Type := { structCommon : CommonType; Field : list fieldType }.
Record mapType : Type :=
  { mapCommon : CommonType; mapKey : typeId; mapElem : typeId }.

(** wireType: a struct of pointers, one per kind of type; an encoder sets
    exactly one of them (gobEncoderType is a struct that holds a CommonType
    and nothing else). *)
Record wireType : Type :=
  { ArrayT : option arrayType;
    SliceT : option sliceType;
    StructT : option structType;
    MapT : option mapType;
    GobEncoderT : option CommonType;
    BinaryMarshalerT : option CommonType;
    TextMarshalerT : option CommonType }.

Definition zeroWireType : wireType :=
  {| ArrayT := None; SliceT := None; StructT := None; MapT := None;
     GobEncoderT := None; BinaryMarshalerT := None; TextMarshalerT := None |}.

Definition encodeCommonType (c : CommonType) : list byte :=
  encodeStruct [fieldString (Name c); fieldInt (Id c)].

Definition encodeFieldType (f : fieldType) : list byte :=
  encodeStruct [fieldString (fieldName f); fieldInt (fieldId f)].

Definition encodeArrayType (a : arrayType) : list byte :=
  encodeStruct [Some (encodeCommonType (arrayCommon a)); fieldInt (arrayElem a);
                fieldInt (arrayLen a)].

Definition encodeSliceType (s : sliceType) : list byte :=
  encodeStruct [Some (encodeCommonType (sliceCommon s)); fieldInt (sliceElem s)].

Definition encodeStructType (s : structType) : list byte :=
  encodeStruct [Some (encodeCommonType (structCommon s));
                fieldSlice encodeFieldType (Field s)].

Definition encodeMapType (m : mapType) : list byte :=
  encodeStruct [Some (encodeCommonType (mapCommon m)); fieldInt (mapKey m);
                fieldInt (mapElem m)].

Definition encodeGobEncoderType (c : CommonType) : list byte :=
  encodeStruct [Some (encodeCommonType c)].

(** The fields of wireType in their order. *)
Definition encodeWireType (wt : wireType) : list byte :=
  encodeStruct
    [ option_map encodeArrayType (ArrayT wt);
      option_map encodeSliceType (SliceT wt);
      option_map encodeStructType (StructT wt);
      option_map encodeMapType (MapT wt);
      option_map encodeGobEncoderType (GobEncoderT wt);
      option_map encodeGobEncoderType (BinaryMarshalerT wt);
      option_map encodeGobEncoderType (TextMarshalerT wt) ].

(** A field of type typeId: an int that must fit 32 bits. *)
Definition decodeTypeId (buf : list byte) : (typeId * list byte) + error :=
  match decodeInt buf with
  | inr e => inr e
  | inl (i, r) =>
      if ((i <? - 2 ^ 31) || (2 ^ 31 - 1 <? i))%Z then inr ErrCorrupt
      else inl (i, r)
  end.

Definition zeroCommonType : CommonType := {| Name := ""; Id := 0%Z |}.

Definition decodeCommonType (buf : list byte) : (CommonType * list byte) + error :=
  decodeStruct
    [ decField decodeString (fun c s => {| Name := s; Id := Id c |});
      decField decodeTypeId (fun c i => {| Name := Name c; Id := i |}) ]
    zeroCommonType buf.

Definition decodeFieldType (buf : list byte) : (fieldType * list byte) + error :=
  decodeStruct
    [ decField decodeString (fun f s => {| fieldName := s; fieldId := fieldId f |});
      decField decodeTypeId (fun f i => {| fieldName := fieldName f; fieldId := i |}) ]
    {| fieldName := ""; fieldId := 0%Z |} buf.

Definition decodeArrayType (buf : list byte) : (arrayType * list byte) + error :=
  decodeStruct
    [ decField decodeCommonType
        (fun a c => {| arrayCommon := c; arrayElem := arrayElem a;
                       arrayLen := arrayLen a |});
      decField decodeTypeId
        (fun a i => {| arrayCommon := arrayCommon a; arrayElem := i;
                       arrayLen := arrayLen a |});
      decField decodeInt
        (fun a n => {| arrayCommon := arrayCommon a; arrayElem := arrayElem a;
                       arrayLen := n |}) ]
    {| arrayCommon := zeroCommonType; arrayElem := 0%Z; arrayLen := 0%Z |} buf.

Definition decodeSliceType (buf : list byte) : (sliceType * list byte) + error :=
  decodeStruct
    [ decField decodeCommonType
        (fun s c => {| sliceCommon := c; sliceElem := sliceElem s |});
      decField decodeTypeId
        (fun s i => {| sliceCommon := sliceCommon s; sliceElem := i |}) ]
    {| sliceCommon := zeroCommonType; sliceElem := 0%Z |} buf.

Definition decodeStructType (buf : list byte) : (structType * list byte) + error :=
  decodeStruct
    [ decField decodeCommonType
        (fun s c => {| structCommon := c; Field := Field s |});
      decField (decodeSlice pointerSize decodeFieldType)
        (fun s fs => {| structCommon := structCommon s; Field := fs |}) ]
    {| structCommon := zeroCommonType; Field := [] |} buf.

Definition decodeMapType (buf : list byte) : (mapType * list byte) + error :=
  decodeStruct
    [ decField decodeCommonType
        (fun m c => {| mapCommon := c; mapKey := mapKey m; mapElem := mapElem m |});
      decField decodeTypeId
        (fun m i => {| mapCommon := mapCommon m; mapKey := i; mapElem := mapElem m |});
      decField decodeTypeId
        (fun m i => {| mapCommon := mapCommon m; mapKey := mapKey m; mapElem := i |}) ]
    {| mapCommon := zeroCommonType; mapKey := 0%Z; mapElem := 0%Z |} buf.

Definition decodeGobEncoderType (buf : list byte) : (CommonType * list byte) + error :=
  decodeStruct [ decField decodeCommonType (fun _ c => c) ] zeroCommonType buf.

Definition decodeWireType (buf : list byte) : (wireType * list byte) + error :=
  decodeStruct
    [ decField decodeArrayType
        (fun w x => {| ArrayT := Some x; SliceT := SliceT w; StructT := StructT w;
                       MapT := MapT w; GobEncoderT := GobEncoderT w;
                       BinaryMarshalerT := BinaryMarshalerT w;
                       TextMarshalerT := TextMarshalerT w |});
      decField decodeSliceType
        (fun w x => {| ArrayT := ArrayT w; SliceT := Some x; StructT := StructT w;
                       MapT := MapT w; GobEncoderT := GobEncoderT w;
                       BinaryMarshalerT := BinaryMarshalerT w;
                       TextMarshalerT := TextMarshalerT w |});
      decField decodeStructType
        (fun w x => {| ArrayT := ArrayT w; SliceT := SliceT w; StructT := Some x;
                       MapT := MapT w; GobEncoderT := GobEncoderT w;
                       BinaryMarshalerT := BinaryMarshalerT w;
                       TextMarshalerT := TextMarshalerT w |});
      decField decodeMapType
        (fun w x => {| ArrayT := ArrayT w; SliceT := SliceT w; StructT := StructT w;
                       MapT := Some x; GobEncoderT := GobEncoderT w;
                       BinaryMarshalerT := BinaryMarshalerT w;
                       TextMarshalerT := TextMarshalerT w |});
      decField decodeGobEncoderType
        (fun w x => {| ArrayT := ArrayT w; SliceT := SliceT w; StructT := StructT w;
                       MapT := MapT w; GobEncoderT := Some x;
                       BinaryMarshalerT := BinaryMarshalerT w;
                       TextMarshalerT := TextMarshalerT w |});
      decField decodeGobEncoderType
        (fun w x => {| ArrayT := ArrayT w; SliceT := SliceT w; StructT := StructT w;
                       MapT := MapT w; GobEncoderT := GobEncoderT w;
                       BinaryMarshalerT := Some x;
                       TextMarshalerT := TextMarshalerT w |});
      decField decodeGobEncoderType
        (fun w x => {| ArrayT := ArrayT w; SliceT := SliceT w; StructT := StructT w;
                       MapT := MapT w; GobEncoderT := GobEncoderT w;
                       BinaryMarshalerT := BinaryMarshalerT w;
                       TextMarshalerT := Some x |}) ]
    zeroWireType buf.

(** What the registry holds for [[]string] and for [Message]. *)
Definition wireArgs : wireType :=
  {| ArrayT := None;
     SliceT := Some {| sliceCommon := {| Name := "[]string"; Id := tArgs |};
                       sliceElem := tString |};
     StructT := None; MapT := None; GobEncoderT := None;
     BinaryMarshalerT := None; TextMarshalerT := None |}.

Definition wireMessage : wireType :=
  {| ArrayT := None; SliceT := None;
     StructT := Some {| structCommon := {| Name := "Message"; Id := tMessage |};
                        Field := [ {| fieldName := "Action"; fieldId := tString |};
                                   {| fieldName := "Args"; fieldId := tArgs |} ] |};
     MapT := None; GobEncoderT := None;
     BinaryMarshalerT := None; TextMarshalerT := None |}.

(** *** Messages on the wire *)

(** Every gob message is preceded by its length in bytes. *)
Definition frame (body : list byte) : list byte :=
  encodeUint (N.of_nat (List.length body)) ++ body.

(** A type definition: the negated id, then the description. *)
Definition typeDef (id : typeId) (wt : wireType) : list byte :=
  encodeInt (- id)%Z ++ encodeWireType wt.

(** A value: the id of its type, then its fields.  A slice without
    elements, nil or not, is a zero value and is not sent. *)
Definition valueOf (msg : Message) : list byte :=
  encodeInt tMessage
    ++ encodeStruct [fieldString (Action msg);
                     fieldSlice encodeString (elems (Args msg))].

(** A [Message] within the limits the library sets: its encoding is shorter
    than [tooBig], beyond which an encoder refuses to send and a decoder to
    receive, and the string headers of its arguments take no more room than
    [tooBig], beyond which a decoder refuses the slice. *)
Definition fits (msg : Message) : Prop :=
  N.of_nat (List.length (valueOf msg)) < tooBig
  /\ N.of_nat (List.length (elems (Args msg))) * stringSize <= tooBig.

End Gob.

(** ** io.Writer and io.Reader *)

(** A sink: the bytes accepted so far, the number of [Write] calls made, and
    for each call number whether that call fails and how. *)
Record Writer : Type :=
  { w_out : list byte; w_calls : nat; w_fail : nat -> option error }.

Definition Write (w : Writer) (p : list byte) : Writer * option error :=
  match w_fail w (w_calls w) with
  | Some e =>
      ({| w_out := w_out w; w_calls := S (w_calls w); w_fail := w_fail w |}, Some e)
  | None =>
      ({| w_out := w_out w ++ p; w_calls := S (w_calls w); w_fail := w_fail w |}, None)
  end.

(** A sink that accepts everything, such as a bytes.Buffer. *)
Definition Buffer : Writer :=
  {| w_out := []; w_calls := 0; w_fail := fun _ => None |}.

(** A sink whose call number [k] (counting from 0) fails, and no other. *)
Definition FailingOnce (k : nat) (e : error) : Writer :=
  {| w_out := []; w_calls := 0;
     w_fail := fun i => if Nat.eqb i k then Some e else None |}.

(** A source, as the decoder comes to see it: the bytes still to come and
    how the stream ends after them, [None] for a clean end of stream.  (A
    source without a ReadByte method is read by the decoder through a
    bufio.Reader, which hands on the same bytes and the same end; the bytes
    it has fetched ahead count here as still to come.) *)
Record Reader : Type := { r_data : list byte; r_fail : option error }.

(** bytes.NewReader(data) *)
Definition NewReader (data : list byte) : Reader :=
  {| r_data := data; r_fail := None |}.

(** io.ReadFull: exactly [n] bytes, or an error; io.EOF only when no byte
    at all could be read. *)
Definition ReadFull (r : Reader) (n : nat) : Reader * (list byte + error) :=
  if Nat.eqb n 0 then (r, inl [])
  else if (List.length (r_data r) <? n)%nat then
    ({| r_data := []; r_fail := r_fail r |},
     inr match r_fail r with
         | Some e => e
         | None => match r_data r with [] => EOF | _ => ErrUnexpectedEOF end
         end)
  else
    ({| r_data := skipn n (r_data r); r_fail := r_fail r |},
     inl (firstn n (r_data r))).

(** ** gob.Encoder and gob.Decoder *)

Module GobStream.
Import Gob.

(** The Go types an encoder may have described to its peer. *)
Inductive goType : Type := MessageT | StringsT.

Definition goType_eqb (a b : goType) : bool :=
  match a, b with
  | MessageT, MessageT | StringsT, StringsT => true
  | _, _ => false
  end.

Record Encoder : Type := { enc_w : Writer; enc_sent : list goType }.

Definition NewEncoder (w : Writer) : Encoder := {| enc_w := w; enc_sent := [] |}.

Definition alreadySent (enc : Encoder) (t : goType) : bool :=
  existsb (goType_eqb t) (enc_sent enc).

Definition markSent (enc : Encoder) (t : goType) : Encoder :=
  {| enc_w := enc_w enc; enc_sent := t :: enc_sent enc |}.

(** writeMessage: one [Write] call per gob message.  (The library refuses a
    message of [tooBig] bytes or more before it writes; that refusal is not
    part of this definition but of [writeMessageChecked] below, and what is
    proved of the bytes a [Message] leaves on its way to a decoder is proved
    of messages that [fits], on which the two agree.) *)
Definition writeMessage (enc : Encoder) (body : list byte) : Encoder * option error :=
  let (w', e) := Write (enc_w enc) (frame body) in
  ({| enc_w := w'; enc_sent := enc_sent enc |}, e).

(** sendType for the field [Args]: describe [[]string] unless the peer
    already has it. *)
Definition sendArgsType (enc : Encoder) : Encoder * option error :=
  if alreadySent enc StringsT then (enc, None)
  else
    match writeMessage enc (typeDef tArgs wireArgs) with
    | (enc1, Some e) => (enc1, Some e)
    | (enc1, None) => (markSent enc1 StringsT, None)
    end.

(** sendTypeDescriptor for a [Message]: describe the struct, then the types
    of its fields. *)
Definition sendTypeDescriptor (enc : Encoder) : Encoder * option error :=
  if alreadySent enc MessageT then (enc, None)
  else
    match writeMessage enc (typeDef tMessage wireMessage) with
    | (enc1, Some e) => (enc1, Some e)
    | (enc1, None) => sendArgsType (markSent enc1 MessageT)
    end.

(** encoder.Encode(msg) *)
Definition Encode (enc : Encoder) (msg : Message) : Encoder * option error :=
  match sendTypeDescriptor enc with
  | (enc1, Some e) => (enc1, Some e)
  | (enc1, None) => writeMessage enc1 (valueOf msg)
  end.

(** writeMessage and Encode with the refusal that [writeMessage] above
    leaves out: a message of [tooBig] bytes or more is not written.  The
    descriptions of [Message] and of [[]string] are far shorter. *)
Definition writeMessageChecked (enc : Encoder) (body : list byte)
    : Encoder * option error :=
  if tooBig <=? N.of_nat (List.length body) then (enc, Some errTooBig)
  else writeMessage enc body.

Definition EncodeChecked (enc : Encoder) (msg : Message) : Encoder * option error :=
  match sendTypeDescriptor enc with
  | (enc1, Some e) => (enc1, Some e)
  | (enc1, None) => writeMessageChecked enc1 (valueOf msg)
  end.

Record Decoder : Type :=
  { dec_r : Reader; dec_wireType : list (typeId * wireType) }.

Definition NewDecoder (r : Reader) : Decoder := {| dec_r := r; dec_wireType := [] |}.

Fixpoint lookupType (id : typeId) (tbl : list (typeId * wireType)) : option wireType :=
  match tbl with
  | [] => None
  | (i, wt) :: rest => if (i =? id)%Z then Some wt else lookupType id rest
  end.

(** decodeUintReader: an unsigned integer straight from a reader. *)
Definition decodeUintReader (r : Reader) : Reader * (N + error) :=
  match ReadFull r 1 with
  | (r1, inr e) => (r1, inr e)
  | (r1, inl []) => (r1, inr EOF)
  | (r1, inl (b :: _)) =>
      if Byte.to_N b <=? 127 then (r1, inl (Byte.to_N b))
      else
        let n := N.to_nat (256 - Byte.to_N b) in
        if (uint64Size <? n)%nat then (r1, inr errBadUint)
        else
          match ReadFull r1 n with
          | (r2, inr e) => (r2, inr (if isEOF e then ErrUnexpectedEOF else e))
          | (r2, inl bs) => (r2, inl (beValue bs))
          end
  end.

(** recvMessage: the byte count, which must be less than [tooBig], then
    that many bytes. *)
Definition recvMessage (r : Reader) : Reader * (list byte + error) :=
  match decodeUintReader r with
  | (r1, inr e) => (r1, inr e)
  | (r1, inl nbytes) =>
      if tooBig <=? nbytes then (r1, inr errBadCount)
      else
        match ReadFull r1 (N.to_nat nbytes) with
        | (r2, inr e) => (r2, inr (if isEOF e then ErrUnexpectedEOF else e))
        | (r2, inl body) => (r2, inl body)
        end
  end.

(** nextInt: a signed integer from the message in hand, which is read the
    way a reader is. *)
Definition nextInt (body : list byte) : (Z * list byte) + error :=
  match decodeUintReader (NewReader body) with
  | (_, inr e) => inr e
  | (r, inl x) => inl (toInt x, r_data r)
  end.

(** recvType: a type may be defined once. *)
Definition recvType (d : Decoder) (id : typeId) (buf : list byte)
    : Decoder * option error :=
  if (id <? firstUserId)%Z then (d, Some ErrDuplicateType)
  else
    match lookupType id (dec_wireType d) with
    | Some _ => (d, Some ErrDuplicateType)
    | None =>
        match decodeWireType buf with
        | inr e => (d, Some e)
        | inl (wt, rest) =>
            let d' := {| dec_r := dec_r d;
                         dec_wireType := (id, wt) :: dec_wireType d |} in
            match rest with
            | [] => (d', None)
            | _ => (d', Some ErrExtraData)
            end
        end
    end.

(** decodeTypeSequence: take in type definitions until a value arrives;
    the result is the id of the value's type and the value's bytes.  Each
    round reads at least one byte of the source, which bounds [fuel]. *)
Fixpoint decodeTypeSequence (fuel : nat) (d : Decoder) (firstMessage : bool)
    : Decoder * ((typeId * list byte) + error) :=
  match fuel with
  | O => (d, inr ErrCorrupt)
  | S fuel' =>
      match recvMessage (dec_r d) with
      | (r1, inr e) =>
          ({| dec_r := r1; dec_wireType := dec_wireType d |},
           inr (if negb firstMessage && isEOF e then ErrUnexpectedEOF else e))
      | (r1, inl body) =>
          let d1 := {| dec_r := r1; dec_wireType := dec_wireType d |} in
          match nextInt body with
          | inr e => (d1, inr e)
          | inl (i, rest) =>
              let id := toTypeId i in
              if (0 <=? id)%Z then (d1, inl (id, rest))
              else
                match recvType d1 (toTypeId (- id)) rest with
                | (d2, Some e) => (d2, inr e)
                | (d2, None) => decodeTypeSequence fuel' d2 false
                end
          end
      end
  end.

Definition zeroMessage : Message := {| Action := ""; Args := None |}.

(** The table of a decoder that has received what an encoder sends ahead of
    its first [Message]. *)
Definition knownTypes : list (typeId * wireType) :=
  [(tArgs, wireArgs); (tMessage, wireMessage)].

(** *** Values the receiver has no field for *)

Definition ignoreUint (buf : list byte) : list byte + error :=
  match decodeUint buf with
  | inr e => inr e
  | inl (_, r) => inl r
  end.

Definition ignoreTwoUints (buf : list byte) : list byte + error :=
  match ignoreUint buf with
  | inr e => inr e
  | inl r => ignoreUint r
  end.

(** ignoreUint8Array, ignoreGobDecoder: a count and that many bytes. *)
Definition ignoreUint8Array (buf : list byte) : list byte + error :=
  match getLength buf with
  | inr e => inr e
  | inl (n, r) => inl (skipn n r)
  end.

(** ignoreArrayHelper: [n] elements, each of which must find bytes left. *)
Fixpoint ignoreElems (op : list byte -> list byte + error) (n : nat)
    (buf : list byte) : list byte + error :=
  match n with
  | O => inl buf
  | S n' =>
      match buf with
      | [] => inr ErrCorrupt
      | _ =>
          match op buf with
          | inr e => inr e
          | inl r => ignoreElems op n' r
          end
      end
  end.

(** ignoreMap: [n] keys, each followed by its element. *)
Fixpoint ignorePairs (keyOp elemOp : list byte -> list byte + error) (n : nat)
    (buf : list byte) : list byte + error :=
  match n with
  | O => inl buf
  | S n' =>
      match keyOp buf with
      | inr e => inr e
      | inl r =>
          match elemOp r with
          | inr e => inr e
          | inl r' => ignorePairs keyOp elemOp n' r'
          end
      end
  end.

Definition ignoresUint (id : typeId) : bool :=
  ((id =? tBool) || (id =? tInt) || (id =? tUint) || (id =? tFloat))%Z.

Definition ignoresBytes (id : typeId) : bool :=
  ((id =? tBytes) || (id =? tString))%Z.

(** decIgnoreOpFor, when the engine is made: whether a value of the wire
    type [id] can be skipped.  Every type on the way must have been defined
    and be of some kind, and every field of a struct must have a name;
    [inProgress] holds the types on the way, which are not looked into
    again, so no more rounds than there are types are used up. *)
Fixpoint canIgnore (fuel : nat) (tbl : list (typeId * wireType))
    (inProgress : list typeId) (id : typeId) : bool :=
  match fuel with
  | O => false
  | S fuel' =>
      if existsb (Z.eqb id) inProgress then true
      else if ignoresUint id || ignoresBytes id || (id =? tComplex)%Z
              || (id =? tInterface)%Z then true
      else
        match lookupType id tbl with
        | None => false
        | Some wt =>
            let rec := canIgnore fuel' tbl (id :: inProgress) in
            match ArrayT wt, MapT wt, SliceT wt, StructT wt with
            | Some a, _, _, _ => rec (arrayElem a)
            | None, Some m, _, _ => rec (mapKey m) && rec (mapElem m)
            | None, None, Some s, _ => rec (sliceElem s)
            | None, None, None, Some st =>
                forallb (fun f => negb (String.eqb (fieldName f) "")
                                  && rec (fieldId f)) (Field st)
            | None, None, None, None =>
                match GobEncoderT wt, BinaryMarshalerT wt, TextMarshalerT wt with
                | None, None, None => false
                | _, _, _ => true
                end
            end
        end
  end.

(** The skipping itself.  Every level reads at least one byte before it
    goes a level deeper, so [S (length buf)] levels of [fuel] are never used
    up.  A value of interface type, which may carry type definitions of its
    own, is not modelled: it is answered with an error. *)
Fixpoint ignoreValue (fuel : nat) (tbl : list (typeId * wireType)) (id : typeId)
    (buf : list byte) : list byte + error :=
  match fuel with
  | O => inr ErrCorrupt
  | S fuel' =>
      if ignoresUint id then ignoreUint buf
      else if ignoresBytes id then ignoreUint8Array buf
      else if (id =? tComplex)%Z then ignoreTwoUints buf
      else if (id =? tInterface)%Z then inr ErrCorrupt
      else
        match lookupType id tbl with
        | None => inr ErrCorrupt
        | Some wt =>
            match ArrayT wt, MapT wt, SliceT wt, StructT wt with
            | Some a, _, _, _ =>
                match decodeUint buf with
                | inr e => inr e
                | inl (n, r) =>
                    if (Z.of_N n =? arrayLen a)%Z
                    then ignoreElems (ignoreValue fuel' tbl (arrayElem a)) (N.to_nat n) r
                    else inr ErrCorrupt
                end
            | None, Some m, _, _ =>
                match decodeUint buf with
                | inr e => inr e
                | inl (n, r) =>
                    ignorePairs (ignoreValue fuel' tbl (mapKey m))
                                (ignoreValue fuel' tbl (mapElem m)) (N.to_nat n) r
                end
            | None, None, Some s, _ =>
                match decodeUint buf with
                | inr e => inr e
                | inl (n, r) =>
                    ignoreElems (ignoreValue fuel' tbl (sliceElem s)) (N.to_nat n) r
                end
            | None, None, None, Some st =>
                match
                  decodeStruct
                    (map (fun f => decField
                                     (fun b => match ignoreValue fuel' tbl (fieldId f) b with
                                               | inr e => inr e
                                               | inl r => inl (tt, r)
                                               end)
                                     (fun (u : unit) _ => u))
                         (Field st))
                    tt buf
                with
                | inr e => inr e
                | inl (_, r) => inl r
                end
            | None, None, None, None => ignoreUint8Array buf
            end
        end
  end.

(** *** Values of type [Message] *)

(** How a field of the wire struct is stored into a [Message]. *)
Definition decAction : Message -> list byte -> (Message * list byte) + error :=
  decField decodeString (fun m s => {| Action := s; Args := Args m |}).

(** A slice that is nil stays nil when no element is stored into it. *)
Definition decArgs : Message -> list byte -> (Message * list byte) + error :=
  decField (decodeSlice stringSize decodeString)
    (fun m l =>
       {| Action := Action m;
          Args := match l, Args m with
                  | [], None => None
                  | _, _ => Some l
                  end |}).

Definition decIgnore (tbl : list (typeId * wireType)) (id : typeId)
    : Message -> list byte -> (Message * list byte) + error :=
  fun m buf =>
    match ignoreValue (S (List.length buf)) tbl id buf with
    | inr e => inr e
    | inl r => inl (m, r)
    end.

(** compatibleType for the field [Args]: the wire type must be a slice of
    strings the peer has defined, and not one with an encoding method. *)
Definition compatibleArgs (tbl : list (typeId * wireType)) (id : typeId) : bool :=
  match lookupType id tbl with
  | Some wt =>
      match GobEncoderT wt, BinaryMarshalerT wt, TextMarshalerT wt, SliceT wt with
      | None, None, None, Some s => (sliceElem s =? tString)%Z
      | _, _, _, _ => false
      end
  | None => false
  end.

(** compileDec: one operation per field of the wire struct.  A wire field
    is matched to the field of [Message] of the same name and checked for
    type; the value of a wire field that [Message] lacks is skipped.  The
    second component counts the fields matched. *)
Fixpoint compileFields (tbl : list (typeId * wireType)) (fs : list fieldType)
    : (list (Message -> list byte -> (Message * list byte) + error) * nat) + error :=
  match fs with
  | [] => inl ([], O)
  | f :: rest =>
      let op :=
        if String.eqb (fieldName f) "" then inr ErrCorrupt
        else if String.eqb (fieldName f) "Action" then
          if (fieldId f =? tString)%Z then inl (decAction, 1%nat) else inr errWrongType
        else if String.eqb (fieldName f) "Args" then
          if compatibleArgs tbl (fieldId f) then inl (decArgs, 1%nat)
          else inr errWrongType
        else if canIgnore (S (List.length tbl)) tbl [] (fieldId f)
        then inl (decIgnore tbl (fieldId f), O)
        else inr ErrCorrupt in
      match op with
      | inr e => inr e
      | inl (o, k) =>
          match compileFields tbl rest with
          | inr e => inr e
          | inl (ops, n) => inl (o :: ops, (k + n)%nat)
          end
      end
  end.

(** The wire type must be a struct the peer has defined, and when the wire
    struct has fields, one of them at least must be a field of [Message].
    A basic type is no struct; the other ids below [firstUserId], among
    them those of the types the library itself starts out with, are
    answered with [errBadType]. *)
Definition compileDec (tbl : list (typeId * wireType)) (remoteId : typeId)
    : list (Message -> list byte -> (Message * list byte) + error) + error :=
  if ((1 <=? remoteId) && (remoteId <=? tInterface))%Z then inr errWrongType
  else if (remoteId <? firstUserId)%Z then inr errBadType
  else
    match lookupType remoteId tbl with
    | None => inr errBadType
    | Some wt =>
        match StructT wt with
        | None => inr errWrongType
        | Some st =>
            match compileFields tbl (Field st) with
            | inr e => inr e
            | inl (engine, numInstr) =>
                match numInstr, Field st with
                | O, _ :: _ => inr errWrongType
                | _, _ => inl engine
                end
            end
        end
    end.

Definition decodeValue (tbl : list (typeId * wireType)) (wireId : typeId)
    (buf : list byte) : Message + error :=
  match compileDec tbl wireId with
  | inr e => inr e
  | inl engine =>
      match decodeStruct engine zeroMessage buf with
      | inr e => inr e
      | inl (m, _) => inl m
      end
  end.

(** decoder.Decode(&msg), with [msg] a fresh zero [Message]. *)
Definition Decode (d : Decoder) : Decoder * (Message + error) :=
  match decodeTypeSequence (S (List.length (r_data (dec_r d)))) d true with
  | (d1, inr e) => (d1, inr e)
  | (d1, inl (id, body)) => (d1, decodeValue (dec_wireType d1) id body)
  end.

End GobStream.

(** What a decoder makes of the value of [msg]: an encoder sends no slice
    that has no elements, and the [Message] decoded into starts out with a
    nil [Args]; so [Args] arrives as it was unless it was empty and not nil,
    which arrives as nil. *)
Definition arrives (msg : Message) : Message :=
  {| Action := Action msg;
     Args := match elems (Args msg) with [] => None | l => Some l end |}.

(** ** Runs of a transition system *)

(** The runs of a labelled transition system, with the events in the order
    they happened. *)
Inductive run {S E : Type} (step : S -> E -> S -> Prop) : S -> list E -> S -> Prop :=
| run_nil s : run step s [] s
| run_snoc s t s1 ev s2 :
    run step s t s1 -> step s1 ev s2 -> run step s (t ++ [ev]) s2.

(** ** Go channels *)

Module Chan.

(** A buffered channel: the items waiting in it, oldest first, its capacity
    and whether it has been closed. *)
Record chan (A : Type) : Type :=
  { buf : list A; cap : nat; closed : bool }.
Arguments buf {A} _.
Arguments cap {A} _.
Arguments closed {A} _.

(** make(chan A, n) *)
Definition make (A : Type) (n : nat) : chan A :=
  {| buf := []; cap := n; closed := false |}.

Inductive sendResult (A : Type) : Type :=
| Sent (c : chan A)   (* the item is in the buffer *)
| SendBlocks          (* the buffer is full: the sender waits *)
| SendPanics.         (* send on closed channel *)
Arguments Sent {A} _.
Arguments SendBlocks {A}.
Arguments SendPanics {A}.

(** c <- v *)
Definition send {A} (c : chan A) (v : A) : sendResult A :=
  if closed c then SendPanics
  else if (List.length (buf c) <? cap c)%nat
  then Sent {| buf := buf c ++ [v]; cap := cap c; closed := false |}
  else SendBlocks.

Inductive recvResult (A : Type) : Type :=
| Received (v : A) (c : chan A)
| RecvBlocks          (* empty and open: the receiver waits *)
| RecvClosed.         (* empty and closed *)
Arguments Received {A} _ _.
Arguments RecvBlocks {A}.
Arguments RecvClosed {A}.

(** v, ok := <-c *)
Definition recv {A} (c : chan A) : recvResult A :=
  match buf c with
  | v :: rest => Received v {| buf := rest; cap := cap c; closed := closed c |}
  | [] => if closed c then RecvClosed else RecvBlocks
  end.

(** close(c); closing a closed channel panics ([None]). *)
Definition close {A} (c : chan A) : option (chan A) :=
  if closed c then None
  else Some {| buf := buf c; cap := cap c; closed := true |}.

End Chan.

Import Chan GobStream.

(** ** The encoding side: ChannelFromWriter and write *)

(** Where goroutine [write] stands. *)
Inductive wpc : Type :=
| WRange                (* at [for msg := range ch] *)
| WSendErr (e : error)  (* at [errCh <- err] *)
| WExit.                (* returned, the deferred close(errCh) done *)

Record WState : Type :=
  { ws_w : Writer; ws_ch : chan Message; ws_errCh : chan error; ws_pc : wpc }.

(** ChannelFromWriter(w): the two channels, and goroutine [write] started on
    them. *)
Definition ChannelFromWriter (w : Writer) : WState :=
  {| ws_w := w;
     ws_ch := make Message ChanSize;
     ws_errCh := make error ChanSize;
     ws_pc := WRange |}.

Inductive wevent : Type :=
| EvSend (m : Message)                      (* producer: ch <- m *)
| EvClose                                   (* producer: close(ch) *)
| EvEncode (m : Message) (r : option error) (* write: m taken off ch, Encode(m) *)
| EvErr (e : error)                         (* write: errCh <- err *)
| EvCloseErr                                (* write: close(errCh) *)
| EvRecvErr (e : error).                    (* consumer: <-errCh *)

(** One step of goroutine [write]; [None] when it waits or has returned. *)
Definition write (s : WState) : option (wevent * WState) :=
  match ws_pc s with
  | WRange =>
      match recv (ws_ch s) with
      | Received msg ch' =>
          let encoder := NewEncoder (ws_w s) in
          let (encoder', err) := Encode encoder msg in
          Some (EvEncode msg err,
                {| ws_w := enc_w encoder'; ws_ch := ch'; ws_errCh := ws_errCh s;
                   ws_pc := match err with Some e => WSendErr e | None => WRange end |})
      | RecvBlocks => None
      | RecvClosed =>
          match close (ws_errCh s) with
          | Some errCh' =>
              Some (EvCloseErr,
                    {| ws_w := ws_w s; ws_ch := ws_ch s; ws_errCh := errCh';
                       ws_pc := WExit |})
          | None => None
          end
      end
  | WSendErr e =>
      match send (ws_errCh s) e with
      | Sent errCh' =>
          Some (EvErr e,
                {| ws_w := ws_w s; ws_ch := ws_ch s; ws_errCh := errCh';
                   ws_pc := WRange |})
      | _ => None
      end
  | WExit => None
  end.

(** The goroutine together with the holders of the two channel ends. *)
Inductive wstep : WState -> wevent -> WState -> Prop :=
| wstep_write s ev s' :
    write s = Some (ev, s') -> wstep s ev s'
| wstep_send s m c :
    send (ws_ch s) m = Sent c ->
    wstep s (EvSend m)
          {| ws_w := ws_w s; ws_ch := c; ws_errCh := ws_errCh s; ws_pc := ws_pc s |}
| wstep_close s c :
    close (ws_ch s) = Some c ->
    wstep s EvClose
          {| ws_w := ws_w s; ws_ch := c; ws_errCh := ws_errCh s; ws_pc := ws_pc s |}
| wstep_recvErr s e c :
    recv (ws_errCh s) = Received e c ->
    wstep s (EvRecvErr e)
          {| ws_w := ws_w s; ws_ch := ws_ch s; ws_errCh := c; ws_pc := ws_pc s |}.

Definition wrun : WState -> list wevent -> WState -> Prop := run wstep.

(** What a run shows. *)
Definition sentMsgs (t : list wevent) : list Message :=
  flat_map (fun ev => match ev with EvSend m => [m] | _ => [] end) t.

Definition attempts (t : list wevent) : list (Message * option error) :=
  flat_map (fun ev => match ev with EvEncode m r => [(m, r)] | _ => [] end) t.

Definition errsSent (t : list wevent) : list error :=
  flat_map (fun ev => match ev with EvErr e => [e] | _ => [] end) t.

Definition errsReceived (t : list wevent) : list error :=
  flat_map (fun ev => match ev with EvRecvErr e => [e] | _ => [] end) t.

Definition isCloseErr (ev : wevent) : bool :=
  match ev with EvCloseErr => true | _ => false end.

Definition isClose (ev : wevent) : bool :=
  match ev with EvClose => true | _ => false end.

Definition isRemoval (ev : wevent) : bool :=
  match ev with EvEncode _ _ => true | _ => false end.

(** What [write] does to the sink over a sequence of messages: a new encoder
    for every message, all on the same writer. *)
Fixpoint encodeEach (w : Writer) (msgs : list Message)
    : Writer * list (Message * option error) :=
  match msgs with
  | [] => (w, [])
  | msg :: rest =>
      let (encoder', err) := Encode (NewEncoder w) msg in
      let (w', rs) := encodeEach (enc_w encoder') rest in
      (w', (msg, err) :: rs)
  end.

(** The bytes a new encoder writes for one message on its own. *)
Definition encodeAlone (msg : Message) : list byte :=
  w_out (enc_w (fst (Encode (NewEncoder Buffer) msg))).

(** One encoder kept for a whole sequence of messages. *)
Fixpoint EncodeAll (enc : Encoder) (msgs : list Message) : Encoder :=
  match msgs with
  | [] => enc
  | msg :: rest => EncodeAll (fst (Encode enc msg)) rest
  end.

(** The errors among the results of Encode. *)
Definition failures (rs : list (Message * option error)) : list error :=
  flat_map (fun r => match snd r with Some e => [e] | None => [] end) rs.

(** The error [write] holds and has yet to send. *)
Definition pendingErr (pc : wpc) : list error :=
  match pc with WSendErr e => [e] | _ => [] end.

(** What holds of every run that starts at [ChannelFromWriter w0]. *)
Record WInv (w0 : Writer) (t : list wevent) (s : WState) : Prop :=
  { wi_cap : cap (ws_ch s) = ChanSize /\ cap (ws_errCh s) = ChanSize;
    wi_len : (List.length (buf (ws_ch s)) <= ChanSize)%nat
             /\ (List.length (buf (ws_errCh s)) <= ChanSize)%nat;
    wi_sent : sentMsgs t = map fst (attempts t) ++ buf (ws_ch s);
    wi_sink : encodeEach w0 (map fst (attempts t)) = (ws_w s, attempts t);
    wi_closed : closed (ws_ch s) = existsb isClose t;
    wi_once : List.length (filter isCloseErr t)
              = if closed (ws_errCh s) then 1%nat else 0%nat;
    wi_exit : closed (ws_errCh s) = true <-> ws_pc s = WExit;
    wi_drained : ws_pc s = WExit -> closed (ws_ch s) = true /\ buf (ws_ch s) = [];
    wi_errs : failures (attempts t) = errsSent t ++ pendingErr (ws_pc s);
    wi_errq : errsSent t = errsReceived t ++ buf (ws_errCh s) }.

(** A schedule names who moves next; a party that cannot move is skipped. *)
Inductive party : Type := Producer | Worker | Consumer.

(** The move of party [p], if it has one.  The producer sends the messages
    of [todo] one by one and then closes the channel ([None]: closed). *)
Definition wmove (p : party) (todo : option (list Message)) (s : WState)
    : option (wevent * option (list Message) * WState) :=
  match p with
  | Worker =>
      match write s with
      | Some (ev, s') => Some (ev, todo, s')
      | None => None
      end
  | Producer =>
      match todo with
      | Some (m :: rest) =>
          match send (ws_ch s) m with
          | Sent c =>
              Some (EvSend m, Some rest,
                    {| ws_w := ws_w s; ws_ch := c; ws_errCh := ws_errCh s;
                       ws_pc := ws_pc s |})
          | _ => None
          end
      | Some [] =>
          match close (ws_ch s) with
          | Some c =>
              Some (EvClose, None,
                    {| ws_w := ws_w s; ws_ch := c; ws_errCh := ws_errCh s;
                       ws_pc := ws_pc s |})
          | None => None
          end
      | None => None
      end
  | Consumer =>
      match recv (ws_errCh s) with
      | Received e c =>
          Some (EvRecvErr e, todo,
                {| ws_w := ws_w s; ws_ch := ws_ch s; ws_errCh := c;
                   ws_pc := ws_pc s |})
      | _ => None
      end
  end.

Fixpoint wsched (sched : list party) (todo : option (list Message)) (s : WState)
    : list wevent * WState :=
  match sched with
  | [] => ([], s)
  | p :: sched' =>
      match wmove p todo s with
      | Some (ev, todo', s') =>
          let (t, s'') := wsched sched' todo' s' in (ev :: t, s'')
      | None => wsched sched' todo s
      end
  end.

(** ** The decoding side: ChannelFromReader and read *)

(** Where goroutine [read] stands. *)
Inductive rpc : Type :=
| RLoop                  (* at [for err == nil], about to call Decode *)
| RSendMsg (m : Message) (* at [ch <- msg] *)
| RSendErr (e : error)   (* at [errCh <- err] *)
| RCloseMsg              (* at [close(ch)] *)
| RCloseErr              (* at [close(errCh)] *)
| RExit.                 (* returned *)

Record RState : Type :=
  { rs_dec : Decoder; rs_ch : chan Message; rs_errCh : chan error; rs_pc : rpc }.

(** ChannelFromReader(r): the two channels, and goroutine [read] started on
    them, its decoder made. *)
Definition ChannelFromReader (r : Reader) : RState :=
  {| rs_dec := NewDecoder r;
     rs_ch := make Message ChanSize;
     rs_errCh := make error ChanSize;
     rs_pc := RLoop |}.

Inductive revent : Type :=
| RvDecode (r : Message + error) (* read: decoder.Decode(&msg) *)
| RvMsg (m : Message)            (* read: ch <- msg *)
| RvErr (e : error)              (* read: errCh <- err *)
| RvCloseMsg                     (* read: close(ch) *)
| RvCloseErr                     (* read: close(errCh) *)
| RvRecvMsg (m : Message)        (* consumer: <-ch *)
| RvRecvErr (e : error).         (* consumer: <-errCh *)

(** One step of goroutine [read]; [None] when it waits or has returned. *)
Definition read (s : RState) : option (revent * RState) :=
  match rs_pc s with
  | RLoop =>
      let (decoder', res) := Decode (rs_dec s) in
      Some (RvDecode res,
            {| rs_dec := decoder'; rs_ch := rs_ch s; rs_errCh := rs_errCh s;
               rs_pc := match res with
                        | inl msg => RSendMsg msg
                        | inr err => if isEOF err then RCloseMsg else RSendErr err
                        end |})
  | RSendMsg msg =>
      match send (rs_ch s) msg with
      | Sent ch' =>
          Some (RvMsg msg,
                {| rs_dec := rs_dec s; rs_ch := ch'; rs_errCh := rs_errCh s;
                   rs_pc := RLoop |})
      | _ => None
      end
  | RSendErr err =>
      match send (rs_errCh s) err with
      | Sent errCh' =>
          Some (RvErr err,
                {| rs_dec := rs_dec s; rs_ch := rs_ch s; rs_errCh := errCh';
                   rs_pc := RCloseMsg |})
      | _ => None
      end
  | RCloseMsg =>
      match close (rs_ch s) with
      | Some ch' =>
          Some (RvCloseMsg,
                {| rs_dec := rs_dec s; rs_ch := ch'; rs_errCh := rs_errCh s;
                   rs_pc := RCloseErr |})
      | None => None
      end
  | RCloseErr =>
      match close (rs_errCh s) with
      | Some errCh' =>
          Some (RvCloseErr,
                {| rs_dec := rs_dec s; rs_ch := rs_ch s; rs_errCh := errCh';
                   rs_pc := RExit |})
      | None => None
      end
  | RExit => None
  end.

Inductive rstep : RState -> revent -> RState -> Prop :=
| rstep_read s ev s' :
    read s = Some (ev, s') -> rstep s ev s'
| rstep_recvMsg s m c :
    recv (rs_ch s) = Received m c ->
    rstep s (RvRecvMsg m)
          {| rs_dec := rs_dec s; rs_ch := c; rs_errCh := rs_errCh s; rs_pc := rs_pc s |}
| rstep_recvErr s e c :
    recv (rs_errCh s) = Received e c ->
    rstep s (RvRecvErr e)
          {| rs_dec := rs_dec s; rs_ch := rs_ch s; rs_errCh := c; rs_pc := rs_pc s |}.

Definition rrun : RState -> list revent -> RState -> Prop := run rstep.

Definition delivered (t : list revent) : list Message :=
  flat_map (fun ev => match ev with RvMsg m => [m] | _ => [] end) t.

Definition errsEmitted (t : list revent) : list error :=
  flat_map (fun ev => match ev with RvErr e => [e] | _ => [] end) t.

Definition msgsReceived (t : list revent) : list Message :=
  flat_map (fun ev => match ev with RvRecvMsg m => [m] | _ => [] end) t.

Definition decodeCalls (t : list revent) : list (Message + error) :=
  flat_map (fun ev => match ev with RvDecode r => [r] | _ => [] end) t.

Definition isRvCloseMsg (ev : revent) : bool :=
  match ev with RvCloseMsg => true | _ => false end.

Definition isRvCloseErr (ev : revent) : bool :=
  match ev with RvCloseErr => true | _ => false end.

(** [decodes d ms e d']: from decoder state [d], successive calls of Decode
    yield the messages [ms] and then fail with [e], leaving the decoder in
    state [d']. *)
Inductive decodes : Decoder -> list Message -> error -> Decoder -> Prop :=
| decodes_stop d d' e :
    Decode d = (d', inr e) -> decodes d [] e d'
| decodes_msg d d' m ms e d'' :
    Decode d = (d', inl m) -> decodes d' ms e d'' -> decodes d (m :: ms) e d''.

Definition errsTaken (t : list revent) : list error :=
  flat_map (fun ev => match ev with RvRecvErr e => [e] | _ => [] end) t.

(** [read] has left its loop. *)
Definition finishing (pc : rpc) : bool :=
  match pc with RCloseMsg | RCloseErr | RExit => true | _ => false end.

(** What holds of every run that starts at [ChannelFromReader r]. *)
Record RInv (t : list revent) (s : RState) : Prop :=
  { ri_cap : cap (rs_ch s) = ChanSize /\ cap (rs_errCh s) = ChanSize;
    ri_len : (List.length (buf (rs_ch s)) <= ChanSize)%nat
             /\ (List.length (buf (rs_errCh s)) <= ChanSize)%nat;
    ri_msgq : delivered t = msgsReceived t ++ buf (rs_ch s);
    ri_errq : errsEmitted t = errsTaken t ++ buf (rs_errCh s);
    ri_closeMsg : List.length (filter isRvCloseMsg t)
                  = if closed (rs_ch s) then 1%nat else 0%nat;
    ri_closeErr : List.length (filter isRvCloseErr t)
                  = if closed (rs_errCh s) then 1%nat else 0%nat;
    ri_errs : (List.length (errsEmitted t) <= 1)%nat
              /\ (finishing (rs_pc s) = false -> errsEmitted t = []);
    ri_last : match rs_pc s with
              | RSendErr e =>
                  isEOF e = false
                  /\ exists calls, decodeCalls t = calls ++ [inr e]
              | _ => True
              end;
    ri_pc : match rs_pc s with
            | RCloseErr => closed (rs_ch s) = true /\ closed (rs_errCh s) = false
            | RExit => closed (rs_ch s) = true /\ closed (rs_errCh s) = true
            | _ => closed (rs_ch s) = false /\ closed (rs_errCh s) = false
            end }.

(** Where a run stands in a stream that holds the messages [ms] and then
    stops with [e], the decoder ending in state [dfin]. *)
Definition RScript (ms : list Message) (e : error) (dfin : Decoder)
    (t : list revent) (s : RState) : Prop :=
  match rs_pc s with
  | RLoop =>
      exists ms2, ms = delivered t ++ ms2
                  /\ decodes (rs_dec s) ms2 e dfin
                  /\ decodeCalls t = map inl (delivered t)
  | RSendMsg m =>
      exists ms2, ms = delivered t ++ m :: ms2
                  /\ decodes (rs_dec s) ms2 e dfin
                  /\ decodeCalls t = map inl (delivered t ++ [m])
  | RSendErr e' =>
      e' = e /\ delivered t = ms /\ rs_dec s = dfin
      /\ decodeCalls t = map inl ms ++ [inr e]
  | _ =>
      delivered t = ms /\ rs_dec s = dfin
      /\ decodeCalls t = map inl ms ++ [inr e]
      /\ errsEmitted t = if isEOF e then [] else [e]
  end.

(** The move of party [p], if it has one.  The consumer takes a message
    when there is one, and an error otherwise; there is no producer. *)
Definition rmove (p : party) (s : RState) : option (revent * RState) :=
  match p with
  | Worker => read s
  | Producer => None
  | Consumer =>
      match recv (rs_ch s) with
      | Received m c =>
          Some (RvRecvMsg m,
                {| rs_dec := rs_dec s; rs_ch := c; rs_errCh := rs_errCh s;
                   rs_pc := rs_pc s |})
      | _ =>
          match recv (rs_errCh s) with
          | Received e c =>
              Some (RvRecvErr e,
                    {| rs_dec := rs_dec s; rs_ch := rs_ch s; rs_errCh := c;
                       rs_pc := rs_pc s |})
          | _ => None
          end
      end
  end.

Fixpoint rsched (sched : list party) (s : RState) : list revent * RState :=
  match sched with
  | [] => ([], s)
  | p :: sched' =>
      match rmove p s with
      | Some (ev, s') => let (t, s'') := rsched sched' s' in (ev :: t, s'')
      | None => rsched sched' s
      end
  end.

(** ** Sample messages and schedules *)

Definition regenerate : Message :=
  {| Action := "regenerate apprc"; Args := Some ["app1"%string] |}.

(** Message{Action: "restart"} *)
Definition restart : Message := {| Action := "restart"; Args := None |}.

(** Message{Action: "restart", Args: []string{}} *)
Definition restartNoArgs : Message := {| Action := "restart"; Args := Some [] |}.

Definition destroy : Message :=
  {| Action := "destroy";
     Args := Some ["anything"%string; "something"%string; "otherthing"%string] |}.

(** [n] rounds in which the producer, the goroutine and the consumer move in
    turn. *)
Definition inTurn (n : nat) : list party :=
  List.concat (repeat [Producer; Worker; Consumer] n).

(** A producer that is let run before the goroutine ever moves. *)
Definition producerFirst (n : nat) : list party := repeat Producer n.

(** ** Panics, and sources and sinks that fail *)

(** [write] is about to send on, or to close, an error channel that is
    closed: in Go, a panic. *)
Definition writePanics (s : WState) : bool :=
  match ws_pc s with
  | WRange =>
      match recv (ws_ch s) with
      | RecvClosed => closed (ws_errCh s)
      | _ => false
      end
  | WSendErr _ => closed (ws_errCh s)
  | WExit => false
  end.

(** [read] is about to send on, or to close, a channel that is closed. *)
Definition readPanics (s : RState) : bool :=
  match rs_pc s with
  | RSendMsg _ | RCloseMsg => closed (rs_ch s)
  | RSendErr _ | RCloseErr => closed (rs_errCh s)
  | RLoop | RExit => false
  end.

(** The messages Decode has yielded in a run. *)
Definition decodedMsgs (t : list revent) : list Message :=
  flat_map (fun ev => match ev with RvDecode (inl m) => [m] | _ => [] end) t.

(** The message [read] holds and has yet to send. *)
Definition inHand (pc : rpc) : list Message :=
  match pc with RSendMsg m => [m] | _ => [] end.

(** The errors other than io.EOF that Decode has returned in a run. *)
Definition decodeErrs (t : list revent) : list error :=
  flat_map (fun ev => match ev with
                      | RvDecode (inr e) => if isEOF e then [] else [e]
                      | _ => []
                      end) t.

(** The error [read] holds and has yet to send. *)
Definition errInHand (pc : rpc) : list error :=
  match pc with RSendErr e => [e] | _ => [] end.

(** A sink of which every [Write] call fails. *)
Definition Broken (e : error) : Writer :=
  {| w_out := []; w_calls := 0; w_fail := fun _ => Some e |}.

(** A source that fails with [e] once its bytes are read. *)
Definition FailingAfter (data : list byte) (e : error) : Reader :=
  {| r_data := data; r_fail := Some e |}.

(** ** The pool list handler (package api) *)

Module Pools.

(** permission.contextType is declared outside src/: the three values
    [poolList] tests, and any other value. *)
Inductive contextType : Type :=
| CtxGlobal | CtxTeam | CtxPool | CtxOther (n : nat).

(** A permission context: its type and its value (a team name, a pool
    name). *)
Record permissionContext : Type :=
  { CtxType : contextType; Value : string }.

(** What the handler has done to the http.ResponseWriter. *)
Inductive written (Pool : Type) : Type :=
| Nothing                         (* untouched *)
| NoContent                       (* WriteHeader(http.StatusNoContent) *)
| JSONBody (pools : list Pool).   (* Content-Type: application/json, and
                                     the JSON encoding of the pools *)
Arguments Nothing {Pool}.
Arguments NoContent {Pool}.
Arguments JSONBody {Pool} _.

(** The loop over the contexts of the token.  A slice that may be nil is an
    option, [None] for nil: a global context makes both slices nil and ends
    the loop. *)
Fixpoint rangeContexts (contexts : list permissionContext)
    (teams poolNames : list string) : option (list string) * option (list string) :=
  match contexts with
  | [] => (Some teams, Some poolNames)
  | c :: rest =>
      match CtxType c with
      | CtxGlobal => (None, None)
      | CtxTeam => rangeContexts rest (teams ++ [Value c]) poolNames
      | CtxPool => rangeContexts rest teams (poolNames ++ [Value c])
      | CtxOther _ => rangeContexts rest teams poolNames
      end
  end.

Definition isGlobal (c : permissionContext) : bool :=
  match CtxType c with CtxGlobal => true | _ => false end.

(** The values of the team contexts, and of the pool contexts, in order. *)
Definition teamsOf (contexts : list permissionContext) : list string :=
  flat_map (fun c => match CtxType c with CtxTeam => [Value c] | _ => [] end) contexts.

Definition poolsOf (contexts : list permissionContext) : list string :=
  flat_map (fun c => match CtxType c with CtxPool => [Value c] | _ => [] end) contexts.

Section Handler.
Context {Token Pool E : Type}.
(** p.Name *)
Variable Name : Pool -> string.
(** permission.ContextsForPermission(t, permission.PermAppCreate) and
    permission.ContextsForPermission(t, permission.PermPoolRead) *)
Variable ContextsForAppCreate ContextsForPoolRead : Token -> list permissionContext.
(** provision.ListPossiblePools(teams) and provision.ListPools(names...) *)
Variable ListPossiblePools : option (list string) -> list Pool + E.
Variable ListPools : list string -> list Pool + E.
(** The error of json.NewEncoder(w).Encode(poolList), if any. *)
Variable EncodeJSON : list Pool -> option E.

(** The loop over the pools: [poolsMap] holds the names seen, [poolList]
    the pools kept. *)
Fixpoint uniquePools (pools : list Pool) (poolsMap : list string)
    (poolList : list Pool) : list Pool :=
  match pools with
  | [] => poolList
  | p :: rest =>
      if existsb (String.eqb (Name p)) poolsMap
      then uniquePools rest poolsMap poolList
      else uniquePools rest (Name p :: poolsMap) (poolList ++ [p])
  end.

(** The end of the handler: 204 for an empty list, the list as JSON
    otherwise. *)
Definition answer (poolList : list Pool) : written Pool * option E :=
  match poolList with
  | [] => (NoContent, None)
  | _ => (JSONBody poolList, EncodeJSON poolList)
  end.

Definition contextsOf (t : Token) : list permissionContext :=
  ContextsForAppCreate t ++ ContextsForPoolRead t.

(** poolList(w, r, t) *)
Definition poolList (t : Token) : written Pool * option E :=
  let (teams, poolNames) := rangeContexts (contextsOf t) [] [] in
  match ListPossiblePools teams with
  | inr err => (Nothing, Some err)
  | inl pools =>
      match poolNames with
      | Some (n :: names) =>
          match ListPools (n :: names) with
          | inr err => (Nothing, Some err)
          | inl namedPools => answer (uniquePools (pools ++ namedPools) [] [])
          end
      | _ => answer (uniquePools pools [] [])
      end
  end.

End Handler.

(** A sample installation: pools are a name and a provisioner. *)
Definition samplePools (teams : option (list string)) : list (string * string) + error :=
  match teams with
  | None =>
      inl [("theonepool", "docker"); ("pool1", "docker"); ("pool1", "swarm")]%string
  | Some l =>
      inl (map (fun team => (append "pool-" team, "docker"%string)) l
           ++ [("theonepool", "docker")]%string)
  end.

Definition sampleNamed (names : list string) : list (string * string) + error :=
  if existsb (String.eqb "ghost") names then inr (ErrIO "pool not found")
  else inl (map (fun n => (n, "swarm"%string)) names).

Definition sampleContexts (t : nat) : list permissionContext :=
  match t with
  | O => []
  | 1%nat => [ {| CtxType := CtxTeam; Value := "a" |};
               {| CtxType := CtxPool; Value := "theonepool" |};
               {| CtxType := CtxGlobal; Value := EmptyString |};
               {| CtxType := CtxPool; Value := "ghost" |} ]
  | _ => [ {| CtxType := CtxTeam; Value := "a" |};
           {| CtxType := CtxOther 0; Value := "app1" |};
           {| CtxType := CtxPool; Value := "theonepool" |};
           {| CtxType := CtxPool; Value := "pool-a" |} ]
  end.

Definition samplePoolList (t : nat) : written (string * string) * option error :=
  poolList fst sampleContexts (fun _ => []) samplePools sampleNamed (fun _ => None) t.

End Pools.

(** * Properties *)

Module GobFacts.
Import Gob.
Local Open Scope N_scope.

Lemma to_N_byte_of_N x : Byte.to_N (byte_of_N x) = x mod 256.
Proof.
  unfold byte_of_N.
  destruct (Byte.of_N (x mod 256)) as [b|] eqn:E.
  - now apply Byte.to_of_N.
  - apply Byte.of_N_None_iff in E.
    pose proof (N.mod_upper_bound x 256). lia.
Qed.

Lemma beValue_snoc bs b : beValue (bs ++ [b]) = beValue bs * 256 + Byte.to_N b.
Proof. unfold beValue. now rewrite fold_left_app. Qed.

Lemma beValue_bigEndian n v : beValue (bigEndian n v) = v mod 256 ^ N.of_nat n.
Proof.
  revert v. induction n as [|n IH]; intro v.
  - cbn. now rewrite N.mod_1_r.
  - cbn [bigEndian]. rewrite beValue_snoc, IH, to_N_byte_of_N.
    rewrite Nat2N.inj_succ, N.pow_succ_r', N.shiftr_div_pow2.
    change (2 ^ 8) with 256.
    rewrite N.Div0.mod_mul_r. lia.
Qed.

Lemma length_bigEndian n v : List.length (bigEndian n v) = n.
Proof.
  revert v. induction n as [|n IH]; intro v; cbn; [reflexivity|].
  rewrite length_app, IH. cbn. lia.
Qed.

Lemma beValue_skip_zeros bs : beValue (skipn (leadingZeroBytes bs) bs) = beValue bs.
Proof.
  induction bs as [|b bs IH]; [reflexivity|].
  destruct b; try reflexivity.
  cbn [leadingZeroBytes skipn]. rewrite IH. reflexivity.
Qed.

Lemma leadingZeroBytes_le bs : (leadingZeroBytes bs <= List.length bs)%nat.
Proof.
  induction bs as [|b bs IH]; [cbn; lia|].
  destruct b; cbn; lia.
Qed.

Lemma leadingZeroBytes_all bs :
  leadingZeroBytes bs = List.length bs -> beValue bs = 0.
Proof.
  induction bs as [|b bs IH]; [reflexivity|].
  pose proof (leadingZeroBytes_le bs) as Hle.
  destruct b; cbn [leadingZeroBytes List.length]; try lia.
  intro Hall. apply IH. lia.
Qed.

(** An unsigned integer that fits 64 bits is read back, and the bytes after
    it are left unread. *)
Lemma decodeUint_encodeUint x rest :
  x < 2 ^ 64 -> decodeUint (encodeUint x ++ rest) = inl (x, rest).
Proof.
  intro Hx. unfold encodeUint.
  destruct (x <=? 127) eqn:Es.
  - apply N.leb_le in Es. cbn [app decodeUint].
    rewrite to_N_byte_of_N, N.mod_small by lia.
    apply N.leb_le in Es. now rewrite Es.
  - apply N.leb_gt in Es.
    set (buf := PutUint64 x). set (bc := leadingZeroBytes buf).
    assert (Hlen : List.length buf = 8%nat) by apply length_bigEndian.
    assert (Hval : beValue buf = x).
    { unfold buf, PutUint64. rewrite beValue_bigEndian.
      apply N.mod_small. exact Hx. }
    assert (Hbc : (bc < 8)%nat).
    { pose proof (leadingZeroBytes_le buf) as Hle. fold bc in Hle.
      destruct (Nat.eq_dec bc 8) as [E|E]; [|lia].
      assert (beValue buf = 0) by (apply leadingZeroBytes_all; fold bc; lia).
      lia. }
    cbn [app decodeUint]. rewrite to_N_byte_of_N.
    change (N.of_nat uint64Size) with 8.
    rewrite N.mod_small by lia.
    replace (256 + N.of_nat bc - 8 <=? 127) with false
      by (symmetry; apply N.leb_gt; lia).
    replace (N.to_nat (256 - (256 + N.of_nat bc - 8))) with (8 - bc)%nat by lia.
    assert (Hskip : List.length (skipn bc buf) = (8 - bc)%nat)
      by (rewrite length_skipn; lia).
    replace (uint64Size <? 8 - bc)%nat with false
      by (symmetry; apply Nat.ltb_ge; unfold uint64Size; lia).
    replace (List.length (skipn bc buf ++ rest) <? 8 - bc)%nat with false
      by (symmetry; apply Nat.ltb_ge; rewrite length_app; lia).
    rewrite <- Hskip.
    rewrite firstn_app, skipn_app, firstn_all, skipn_all, Nat.sub_diag.
    cbn [firstn skipn app]. rewrite app_nil_r.
    unfold bc. rewrite beValue_skip_zeros, Hval. reflexivity.
Qed.

Lemma tooBig_small : tooBig < 2 ^ 63.
Proof. reflexivity. Qed.

(** A byte count below [tooBig] that the buffer can hold is accepted. *)
Lemma getLength_encodeUint n rest :
  N.of_nat n < tooBig -> (n <= List.length rest)%nat ->
  getLength (encodeUint (N.of_nat n) ++ rest) = inl (n, rest).
Proof.
  intros Hn Hr. unfold getLength. pose proof tooBig_small as Hb.
  rewrite decodeUint_encodeUint by (change (2 ^ 64) with (2 * 2 ^ 63); lia).
  replace (N.of_nat (List.length rest) <? N.of_nat n) with false
    by (symmetry; apply N.ltb_ge; lia).
  replace (tooBig <=? N.of_nat n) with false by (symmetry; apply N.leb_gt; lia).
  cbn [orb]. now rewrite Nat2N.id.
Qed.

Lemma decodeString_encodeString s rest :
  N.of_nat (List.length (bytesOf s)) < tooBig ->
  decodeString (encodeString s ++ rest) = inl (s, rest).
Proof.
  intro Hs. unfold decodeString, encodeString.
  rewrite <- app_assoc, getLength_encodeUint
    by (try exact Hs; rewrite length_app; lia).
  rewrite firstn_app, skipn_app, firstn_all, skipn_all, Nat.sub_diag.
  cbn [firstn skipn app]. rewrite app_nil_r.
  unfold bytesOf. now rewrite string_of_list_byte_of_string.
Qed.

Lemma encodeUint_nonempty x : encodeUint x <> [].
Proof. unfold encodeUint. destruct (x <=? 127); discriminate. Qed.

Lemma encodeString_nonempty s rest : encodeString s ++ rest <> [].
Proof.
  unfold encodeString. pose proof (encodeUint_nonempty (N.of_nat (List.length (bytesOf s)))).
  destruct (encodeUint (N.of_nat (List.length (bytesOf s)))); [congruence|discriminate].
Qed.

Lemma decodeElems_strings l rest :
  Forall (fun s => N.of_nat (List.length (bytesOf s)) < tooBig) l ->
  decodeElems decodeString (List.length l) (List.concat (map encodeString l) ++ rest)
  = inl (l, rest).
Proof.
  induction 1 as [|s l Hs Hl IH]; [reflexivity|].
  cbn [List.length map List.concat decodeElems]. rewrite <- app_assoc.
  pose proof (encodeString_nonempty s (List.concat (map encodeString l) ++ rest)) as Hne.
  destruct (encodeString s ++ List.concat (map encodeString l) ++ rest) eqn:E;
    [congruence|]. rewrite <- E.
  rewrite decodeString_encodeString by exact Hs.
  now rewrite IH.
Qed.

Lemma decodeSlice_strings l rest :
  N.of_nat (List.length l) * stringSize <= tooBig ->
  Forall (fun s => N.of_nat (List.length (bytesOf s)) < tooBig) l ->
  decodeSlice stringSize decodeString (encodeSlice encodeString l ++ rest)
  = inl (l, rest).
Proof.
  intros Hn Hl. unfold decodeSlice, encodeSlice. pose proof tooBig_small as Hb.
  rewrite <- app_assoc, decodeUint_encodeUint
    by (unfold stringSize in Hn; change (2 ^ 64) with (2 * 2 ^ 63); lia).
  replace (tooBig <? N.of_nat (List.length l) * stringSize) with false
    by (symmetry; apply N.ltb_ge; exact Hn).
  rewrite Nat2N.id. now apply decodeElems_strings.
Qed.

Lemma bytesOf_nil s : bytesOf s = [] -> s = ""%string.
Proof.
  intro H. rewrite <- (string_of_list_byte_of_string s).
  unfold bytesOf in H. now rewrite H.
Qed.

Lemma decodeFields_field {A} fuel
    (engine : list (A -> list byte -> (A * list byte) + error))
    fieldnum acc delta rest op :
  0 < delta < 2 ^ 63 ->
  (fieldnum + Z.of_N delta < Z.of_nat (List.length engine))%Z ->
  nth_error engine (Z.to_nat (fieldnum + Z.of_N delta)) = Some op ->
  decodeFields (S fuel) engine fieldnum acc (encodeUint delta ++ rest)
  = match op acc rest with
    | inr e => inr e
    | inl (acc', buf2) => decodeFields fuel engine (fieldnum + Z.of_N delta) acc' buf2
    end.
Proof.
  intros Hd Hlt Hop. cbn [decodeFields].
  pose proof (encodeUint_nonempty delta) as Hne.
  destruct (encodeUint delta ++ rest) eqn:E.
  { destruct (encodeUint delta); [congruence|discriminate]. }
  rewrite <- E, decodeUint_encodeUint by (change (2 ^ 64) with (2 * 2 ^ 63); lia).
  replace (2 ^ 63 <=? delta) with false by (symmetry; apply N.leb_gt; lia).
  replace (delta =? 0) with false by (symmetry; apply N.eqb_neq; lia).
  replace (Z.of_nat (List.length engine) - Z.of_N delta <=? fieldnum)%Z with false
    by (symmetry; apply Z.leb_gt; lia).
  now rewrite Hop.
Qed.

Lemma decodeFields_end {A} fuel
    (engine : list (A -> list byte -> (A * list byte) + error))
    fieldnum acc rest :
  decodeFields (S fuel) engine fieldnum acc (encodeUint 0 ++ rest) = inl (acc, rest).
Proof. reflexivity. Qed.

(** Every round of decodeStruct moves to a higher field number: more rounds
    than there are fields left change nothing, and the bound in
    [decodeStruct] is never what stops it. *)
Lemma decodeFields_fuel {A}
    (engine : list (A -> list byte -> (A * list byte) + error)) n :
  forall fieldnum acc buf m,
    (fieldnum < Z.of_nat (List.length engine))%Z ->
    (Z.of_nat (List.length engine) - fieldnum <= Z.of_nat n)%Z ->
    (n <= m)%nat ->
    decodeFields m engine fieldnum acc buf = decodeFields n engine fieldnum acc buf.
Proof.
  induction n as [|n IH]; intros fieldnum acc buf m Hlt Hn Hm; [lia|].
  destruct m as [|m]; [lia|]. cbn [decodeFields].
  destruct buf as [|b buf]; [reflexivity|].
  destruct (decodeUint (b :: buf)) as [[delta buf1]|e]; [|reflexivity].
  destruct (2 ^ 63 <=? delta); [reflexivity|].
  destruct (delta =? 0) eqn:Ed; [reflexivity|]. apply N.eqb_neq in Ed.
  destruct (Z.of_nat (List.length engine) - Z.of_N delta <=? fieldnum)%Z eqn:Er;
    [reflexivity|]. apply Z.leb_gt in Er.
  destruct (nth_error engine (Z.to_nat (fieldnum + Z.of_N delta))) as [op|];
    [|reflexivity].
  destruct (op acc buf1) as [[acc' buf2]|e]; [|reflexivity].
  apply IH; lia.
Qed.

(** The fields of a [Message] are read back, whichever of them were sent;
    a slice of which nothing was sent is nil. *)
Lemma decodeStruct_Message a args :
  N.of_nat (List.length (bytesOf a)) < tooBig ->
  N.of_nat (List.length args) * stringSize <= tooBig ->
  Forall (fun s => N.of_nat (List.length (bytesOf s)) < tooBig) args ->
  decodeStruct [GobStream.decAction; GobStream.decArgs] GobStream.zeroMessage
    (encodeStruct [fieldString a; fieldSlice encodeString args])
  = inl ({| Action := a;
            Args := match args with [] => None | _ => Some args end |}, []).
Proof.
  intros Ha Hn Hargs. unfold decodeStruct, encodeStruct, fieldString, fieldSlice.
  cbn [List.length].
  destruct (bytesOf a) as [|b0 bs] eqn:Ea.
  - apply bytesOf_nil in Ea. subst a.
    destruct args as [|s0 args].
    + reflexivity.
    + cbn [encodeFields]. change (1 + 1) with 2.
      erewrite decodeFields_field; [|split; reflexivity|cbn; lia|reflexivity].
      unfold GobStream.decArgs, decField.
      rewrite decodeSlice_strings by assumption.
      reflexivity.
  - destruct args as [|s0 args].
    + cbn [encodeFields]. change (1 + 1) with 2.
      erewrite decodeFields_field; [|split; reflexivity|cbn; lia|reflexivity].
      unfold GobStream.decAction, decField.
      rewrite decodeString_encodeString by (rewrite Ea; exact Ha).
      reflexivity.
    + cbn [encodeFields].
      erewrite decodeFields_field; [|split; reflexivity|cbn; lia|reflexivity].
      unfold GobStream.decAction at 1. unfold decField at 1.
      rewrite decodeString_encodeString by (rewrite Ea; exact Ha).
      erewrite decodeFields_field; [|split; reflexivity|cbn; lia|reflexivity].
      unfold GobStream.decArgs, decField. cbn [Action Args].
      rewrite decodeSlice_strings by assumption.
      reflexivity.
Qed.

Lemma length_encodeString s :
  (List.length (bytesOf s) < List.length (encodeString s))%nat.
Proof.
  unfold encodeString. rewrite length_app.
  pose proof (encodeUint_nonempty (N.of_nat (List.length (bytesOf s)))).
  destruct (encodeUint (N.of_nat (List.length (bytesOf s)))); [congruence|cbn; lia].
Qed.

Lemma length_concat_strings l :
  (List.length l <= List.length (List.concat (map encodeString l)))%nat
  /\ Forall (fun s => (List.length (bytesOf s)
                       <= List.length (List.concat (map encodeString l)))%nat) l.
Proof.
  induction l as [|s l [IH1 IH2]]; [split; [cbn; lia|constructor]|].
  cbn [map List.concat List.length]. rewrite length_app.
  pose proof (length_encodeString s). split; [lia|].
  constructor; [lia|].
  eapply Forall_impl; [|exact IH2]. cbn. intros; lia.
Qed.

(** What [fits] says about the parts of a message. *)
Lemma fits_parts msg :
  fits msg ->
  N.of_nat (List.length (bytesOf (Action msg))) < tooBig
  /\ N.of_nat (List.length (elems (Args msg))) * stringSize <= tooBig
  /\ Forall (fun s => N.of_nat (List.length (bytesOf s)) < tooBig) (elems (Args msg))
  /\ N.of_nat (List.length (valueOf msg)) < tooBig.
Proof.
  destruct msg as [a args]. unfold fits, valueOf, encodeStruct. cbn [Action Args].
  set (l := elems args). rewrite length_app. intros [H Hcount].
  assert (Ha : (List.length (bytesOf a)
                <= List.length (encodeFields 1 [fieldString a; fieldSlice encodeString l]))%nat).
  { unfold fieldString. pose proof (length_encodeString a) as Hl.
    destruct (bytesOf a) eqn:E; [cbn; lia|].
    cbn [encodeFields]. rewrite !length_app. lia. }
  assert (Hs : (List.length (List.concat (map encodeString l))
                <= List.length (encodeFields 1 [fieldString a; fieldSlice encodeString l]))%nat).
  { destruct l as [|s0 l]; [cbn; lia|].
    unfold fieldSlice, encodeSlice.
    destruct (fieldString a); cbn [encodeFields]; rewrite !length_app; lia. }
  destruct (length_concat_strings l) as [Hn Hall].
  split; [lia|]. split; [exact Hcount|]. split; [|lia].
  eapply Forall_impl; [|exact Hall]. cbn beta. intros s0 Hs0. lia.
Qed.

(** Reading an unsigned integer from the source agrees with reading it from
    a buffer. *)
Lemma decodeUintReader_decodeUint data f x rest :
  decodeUint data = inl (x, rest) ->
  GobStream.decodeUintReader {| r_data := data; r_fail := f |}
  = ({| r_data := rest; r_fail := f |}, inl x).
Proof.
  destruct data as [|b r]; [discriminate|].
  unfold decodeUint, GobStream.decodeUintReader.
  change (ReadFull {| r_data := b :: r; r_fail := f |} 1)
    with ({| r_data := r; r_fail := f |}, @inl (list byte) error [b]).
  cbv iota beta.
  destruct (Byte.to_N b <=? 127) eqn:Eb.
  - intro H. injection H as <- <-. reflexivity.
  - cbv zeta.
    destruct (uint64Size <? N.to_nat (256 - Byte.to_N b))%nat; [discriminate|].
    apply N.leb_gt in Eb. pose proof (Byte.to_N_bounded b) as Hb.
    unfold ReadFull. cbn [r_data r_fail].
    replace (Nat.eqb (N.to_nat (256 - Byte.to_N b)) 0) with false
      by (symmetry; apply Nat.eqb_neq; lia).
    destruct (List.length r <? N.to_nat (256 - Byte.to_N b))%nat; [discriminate|].
    intro H. injection H as <- <-. reflexivity.
Qed.

(** A framed message is received whole, and the source is left at the byte
    after it. *)
Lemma recvMessage_frame body rest f :
  N.of_nat (List.length body) < tooBig ->
  GobStream.recvMessage {| r_data := frame body ++ rest; r_fail := f |}
  = ({| r_data := rest; r_fail := f |}, inl body).
Proof.
  intro Hb. unfold GobStream.recvMessage, frame.
  rewrite <- app_assoc.
  assert (Hb64 : N.of_nat (List.length body) < 2 ^ 64).
  { pose proof tooBig_small. change (2 ^ 64) with (2 * 2 ^ 63). lia. }
  rewrite (decodeUintReader_decodeUint _ f _ (body ++ rest)
             (decodeUint_encodeUint _ _ Hb64)).
  replace (tooBig <=? N.of_nat (List.length body)) with false
    by (symmetry; apply N.leb_gt; exact Hb).
  rewrite Nat2N.id. unfold ReadFull. cbn [r_data r_fail].
  clear Hb Hb64.
  destruct body as [|b body]; [reflexivity|].
  set (bb := b :: body).
  replace (Nat.eqb (List.length bb) 0) with false by reflexivity.
  replace (List.length (bb ++ rest) <? List.length bb)%nat with false
    by (symmetry; apply Nat.ltb_ge; rewrite length_app; lia).
  rewrite firstn_app, skipn_app, firstn_all, skipn_all, Nat.sub_diag.
  cbn [firstn skipn app]. now rewrite app_nil_r.
Qed.

Lemma frame_nonempty body : frame body <> [].
Proof.
  unfold frame. pose proof (encodeUint_nonempty (N.of_nat (List.length body))).
  destruct (encodeUint (N.of_nat (List.length body))); [congruence|discriminate].
Qed.

End GobFacts.

Module StreamFacts.
Import Gob GobStream GobFacts.

Lemma nextInt_typeDef_Message :
  nextInt (typeDef tMessage wireMessage)
  = inl ((- tMessage)%Z, encodeWireType wireMessage).
Proof. vm_compute. reflexivity. Qed.

Lemma nextInt_typeDef_Args :
  nextInt (typeDef tArgs wireArgs) = inl ((- tArgs)%Z, encodeWireType wireArgs).
Proof. vm_compute. reflexivity. Qed.

(** The two type descriptions are read back as they were written. *)
Lemma decodeWireType_Message :
  decodeWireType (encodeWireType wireMessage) = inl (wireMessage, []).
Proof. vm_compute. reflexivity. Qed.

Lemma decodeWireType_Args :
  decodeWireType (encodeWireType wireArgs) = inl (wireArgs, []).
Proof. vm_compute. reflexivity. Qed.

Lemma nextInt_valueOf msg :
  nextInt (valueOf msg)
  = inl (tMessage,
         encodeStruct [fieldString (Action msg);
                       fieldSlice encodeString (elems (Args msg))]).
Proof. reflexivity. Qed.

Lemma compileDec_knownTypes :
  compileDec knownTypes tMessage = inl [decAction; decArgs].
Proof. reflexivity. Qed.

Lemma decodeValue_valueOf msg :
  fits msg ->
  decodeValue knownTypes tMessage
    (encodeStruct [fieldString (Action msg);
                   fieldSlice encodeString (elems (Args msg))])
  = inl (arrives msg).
Proof.
  intro Hf. destruct (fits_parts msg Hf) as (Ha & Hn & Hargs & _).
  unfold decodeValue. rewrite compileDec_knownTypes.
  rewrite decodeStruct_Message by assumption.
  unfold arrives. now destruct (elems (Args msg)).
Qed.

(** On a message that [fits] the refusal of long messages never applies:
    [Encode] does what the library does. *)
Lemma Encode_fits enc msg : fits msg -> EncodeChecked enc msg = Encode enc msg.
Proof.
  intros [Hlen _]. unfold EncodeChecked, Encode, writeMessageChecked.
  destruct (sendTypeDescriptor enc) as [enc1 [e|]]; [reflexivity|].
  replace (tooBig <=? N.of_nat (List.length (valueOf msg))) with false
    by (symmetry; apply N.leb_gt; exact Hlen).
  reflexivity.
Qed.

Lemma typeDef_Message_small :
  N.of_nat (List.length (typeDef tMessage wireMessage)) < tooBig.
Proof. vm_compute. reflexivity. Qed.

Lemma typeDef_Args_small :
  N.of_nat (List.length (typeDef tArgs wireArgs)) < tooBig.
Proof. vm_compute. reflexivity. Qed.

(** A round of decodeTypeSequence on the description of [Message], on the
    description of [[]string], and on a value. *)
Lemma dts_def_Message fuel rest f first :
  decodeTypeSequence (S fuel)
    {| dec_r := {| r_data := frame (typeDef tMessage wireMessage) ++ rest; r_fail := f |};
       dec_wireType := [] |} first
  = decodeTypeSequence fuel
      {| dec_r := {| r_data := rest; r_fail := f |};
         dec_wireType := [(tMessage, wireMessage)] |} false.
Proof.
  cbn [decodeTypeSequence dec_r dec_wireType].
  rewrite recvMessage_frame by apply typeDef_Message_small.
  rewrite nextInt_typeDef_Message. cbv zeta.
  change (toTypeId (Z.opp tMessage)) with (Z.opp tMessage).
  change (Z.leb 0 (Z.opp tMessage)) with false. cbv iota.
  change (toTypeId (Z.opp (Z.opp tMessage))) with tMessage.
  unfold recvType. cbn [dec_r dec_wireType lookupType].
  change (Z.ltb tMessage firstUserId) with false. cbv iota.
  rewrite decodeWireType_Message. reflexivity.
Qed.

Lemma dts_def_Args fuel rest f first :
  decodeTypeSequence (S fuel)
    {| dec_r := {| r_data := frame (typeDef tArgs wireArgs) ++ rest; r_fail := f |};
       dec_wireType := [(tMessage, wireMessage)] |} first
  = decodeTypeSequence fuel
      {| dec_r := {| r_data := rest; r_fail := f |}; dec_wireType := knownTypes |}
      false.
Proof.
  cbn [decodeTypeSequence dec_r dec_wireType].
  rewrite recvMessage_frame by apply typeDef_Args_small.
  rewrite nextInt_typeDef_Args. cbv zeta.
  change (toTypeId (Z.opp tArgs)) with (Z.opp tArgs).
  change (Z.leb 0 (Z.opp tArgs)) with false. cbv iota.
  change (toTypeId (Z.opp (Z.opp tArgs))) with tArgs.
  unfold recvType. cbn [dec_r dec_wireType].
  change (Z.ltb tArgs firstUserId) with false. cbv iota.
  change (lookupType tArgs [(tMessage, wireMessage)]) with (@None wireType).
  cbv iota.
  rewrite decodeWireType_Args. reflexivity.
Qed.

Lemma dts_value fuel msg rest f tbl first :
  fits msg ->
  decodeTypeSequence (S fuel)
    {| dec_r := {| r_data := frame (valueOf msg) ++ rest; r_fail := f |};
       dec_wireType := tbl |} first
  = ({| dec_r := {| r_data := rest; r_fail := f |}; dec_wireType := tbl |},
     inl (tMessage,
          encodeStruct [fieldString (Action msg);
                        fieldSlice encodeString (elems (Args msg))])).
Proof.
  intro Hf. destruct (fits_parts msg Hf) as (_ & _ & _ & Hlen).
  cbn [decodeTypeSequence dec_r dec_wireType].
  rewrite recvMessage_frame by exact Hlen.
  rewrite nextInt_valueOf. reflexivity.
Qed.

(** A second description of a type the decoder already has is an error. *)
Lemma dts_duplicate fuel rest f first :
  decodeTypeSequence (S fuel)
    {| dec_r := {| r_data := frame (typeDef tMessage wireMessage) ++ rest; r_fail := f |};
       dec_wireType := knownTypes |} first
  = ({| dec_r := {| r_data := rest; r_fail := f |}; dec_wireType := knownTypes |},
     inr ErrDuplicateType).
Proof.
  cbn [decodeTypeSequence dec_r dec_wireType].
  rewrite recvMessage_frame by apply typeDef_Message_small.
  rewrite nextInt_typeDef_Message. reflexivity.
Qed.

Lemma encodeAlone_eq msg :
  encodeAlone msg
  = frame (typeDef tMessage wireMessage) ++ frame (typeDef tArgs wireArgs)
      ++ frame (valueOf msg).
Proof.
  unfold encodeAlone, Encode, sendTypeDescriptor, sendArgsType, writeMessage, Write.
  cbn [NewEncoder Buffer alreadySent existsb enc_sent enc_w w_fail w_calls w_out
       markSent goType_eqb orb fst app].
  now rewrite <- app_assoc.
Qed.

(** Decode, on a decoder that has seen no type yet, of what a new encoder
    writes for one message. *)
Lemma Decode_alone msg rest f :
  fits msg ->
  Decode {| dec_r := {| r_data := encodeAlone msg ++ rest; r_fail := f |};
            dec_wireType := [] |}
  = ({| dec_r := {| r_data := rest; r_fail := f |}; dec_wireType := knownTypes |},
     inl (arrives msg)).
Proof.
  intro Hf. unfold Decode. cbn [dec_r r_data].
  rewrite encodeAlone_eq, <- !app_assoc.
  pose proof (frame_nonempty (typeDef tMessage wireMessage)) as H1.
  pose proof (frame_nonempty (typeDef tArgs wireArgs)) as H2.
  rewrite !length_app.
  destruct (List.length (frame (typeDef tMessage wireMessage))) as [|n1] eqn:E1;
    [apply length_zero_iff_nil in E1; congruence|].
  destruct (List.length (frame (typeDef tArgs wireArgs))) as [|n2] eqn:E2;
    [apply length_zero_iff_nil in E2; congruence|].
  pose proof (frame_nonempty (valueOf msg)) as H3.
  destruct (List.length (frame (valueOf msg))) as [|n3] eqn:E3;
    [apply length_zero_iff_nil in E3; congruence|].
  rewrite dts_def_Message.
  replace (S n1 + (S n2 + (S n3 + List.length rest)))%nat
    with (S (S (S (n1 + n2 + n3 + List.length rest)))) by lia.
  rewrite dts_def_Args, dts_value by exact Hf.
  cbn [dec_wireType]. now rewrite decodeValue_valueOf.
Qed.

(** Decode of a value, on a decoder that has the types. *)
Lemma Decode_value msg rest f :
  fits msg ->
  Decode {| dec_r := {| r_data := frame (valueOf msg) ++ rest; r_fail := f |};
            dec_wireType := knownTypes |}
  = ({| dec_r := {| r_data := rest; r_fail := f |}; dec_wireType := knownTypes |},
     inl (arrives msg)).
Proof.
  intro Hf. unfold Decode. cbn [dec_r r_data].
  rewrite dts_value by exact Hf.
  cbn [dec_wireType]. now rewrite decodeValue_valueOf.
Qed.

(** Decode, on a decoder that has the types, of what a new encoder writes:
    the decoder stops at the first description. *)
Lemma Decode_again msg rest f :
  Decode {| dec_r := {| r_data := encodeAlone msg ++ rest; r_fail := f |};
            dec_wireType := knownTypes |}
  = ({| dec_r := {| r_data := frame (typeDef tArgs wireArgs)
                             ++ frame (valueOf msg) ++ rest;
                    r_fail := f |};
        dec_wireType := knownTypes |},
     inr ErrDuplicateType).
Proof.
  unfold Decode. cbn [dec_r r_data].
  rewrite encodeAlone_eq, <- !app_assoc.
  now rewrite dts_duplicate.
Qed.

(** *** The source only shrinks, which bounds the rounds of Decode *)

Lemma ReadFull_length r n r' x :
  ReadFull r n = (r', x) ->
  (List.length (r_data r') <= List.length (r_data r))%nat
  /\ (forall bs, x = inl bs ->
        (List.length (r_data r') + n = List.length (r_data r))%nat).
Proof.
  unfold ReadFull. destruct (Nat.eqb n 0) eqn:En.
  - apply Nat.eqb_eq in En. intro H. injection H as <- <-. split; [lia|].
    intros; lia.
  - apply Nat.eqb_neq in En.
    destruct (List.length (r_data r) <? n)%nat eqn:El; intro H; injection H as <- <-;
      cbn [r_data List.length].
    + split; [lia|]. intros bs Hbs. discriminate.
    + apply Nat.ltb_ge in El. rewrite length_skipn. split; [lia|]. intros; lia.
Qed.

Lemma decodeUintReader_length r r' x :
  decodeUintReader r = (r', x) ->
  (List.length (r_data r') <= List.length (r_data r))%nat
  /\ (forall n, x = inl n -> (List.length (r_data r') < List.length (r_data r))%nat).
Proof.
  unfold decodeUintReader.
  destruct (ReadFull r 1) as [r1 [bs|e]] eqn:E1;
    destruct (ReadFull_length _ _ _ _ E1) as [H1 H1'].
  2:{ intro H. injection H as <- <-. split; [lia|]. intros; discriminate. }
  specialize (H1' bs eq_refl).
  destruct bs as [|b bs].
  { intro H. injection H as <- <-. split; [lia|]. intros; discriminate. }
  destruct (Byte.to_N b <=? 127).
  { intro H. injection H as <- <-. split; intros; lia. }
  cbv zeta. destruct (uint64Size <? N.to_nat (256 - Byte.to_N b))%nat.
  { intro H. injection H as <- <-. split; [lia|]. intros; discriminate. }
  destruct (ReadFull r1 (N.to_nat (256 - Byte.to_N b))) as [r2 [bs2|e]] eqn:E2;
    destruct (ReadFull_length _ _ _ _ E2) as [H2 _];
    intro H; injection H as <- <-; split; intros; lia.
Qed.

Lemma recvMessage_length r r' x :
  recvMessage r = (r', x) ->
  (List.length (r_data r') <= List.length (r_data r))%nat
  /\ (forall body, x = inl body ->
        (List.length (r_data r') < List.length (r_data r))%nat).
Proof.
  unfold recvMessage.
  destruct (decodeUintReader r) as [r1 [n|e]] eqn:E1;
    destruct (decodeUintReader_length _ _ _ E1) as [H1 H1'].
  2:{ intro H. injection H as <- <-. split; [lia|]. intros; discriminate. }
  specialize (H1' n eq_refl).
  destruct (tooBig <=? n).
  { intro H. injection H as <- <-. split; [lia|]. intros; discriminate. }
  destruct (ReadFull r1 (N.to_nat n)) as [r2 [bs|e]] eqn:E2;
    destruct (ReadFull_length _ _ _ _ E2) as [H2 _];
    intro H; injection H as <- <-; split; intros; lia.
Qed.

Lemma recvType_reader d id buf d' x :
  recvType d id buf = (d', x) -> dec_r d' = dec_r d.
Proof.
  unfold recvType. destruct (id <? firstUserId)%Z.
  { intro H. now injection H as <- <-. }
  destruct (lookupType id (dec_wireType d)).
  { intro H. now injection H as <- <-. }
  destruct (decodeWireType buf) as [[wt rest]|e].
  - destruct rest; intro H; now injection H as <- <-.
  - intro H. now injection H as <- <-.
Qed.

(** decodeTypeSequence never reads backwards, and a value it returns was
    read from the source. *)
Lemma decodeTypeSequence_length fuel : forall d first d' x,
  decodeTypeSequence fuel d first = (d', x) ->
  (List.length (r_data (dec_r d')) <= List.length (r_data (dec_r d)))%nat
  /\ (forall v, x = inl v ->
        (List.length (r_data (dec_r d')) < List.length (r_data (dec_r d)))%nat).
Proof.
  induction fuel as [|fuel IH]; intros d first d' x; cbn [decodeTypeSequence].
  { intro H. injection H as <- <-. split; [lia|]. intros; discriminate. }
  destruct (recvMessage (dec_r d)) as [r1 [body|e]] eqn:E1;
    destruct (recvMessage_length _ _ _ E1) as [H1 H1'].
  2:{ intro H. injection H as <- <-. cbn [dec_r]. split; [lia|]. intros; discriminate. }
  specialize (H1' body eq_refl).
  destruct (nextInt body) as [[i rest]|e].
  2:{ intro H. injection H as <- <-. cbn [dec_r]. split; [lia|]. intros; discriminate. }
  cbv zeta. destruct (0 <=? toTypeId i)%Z.
  { intro H. injection H as <- <-. cbn [dec_r]. split; intros; lia. }
  destruct (recvType {| dec_r := r1; dec_wireType := dec_wireType d |}
              (toTypeId (- toTypeId i)) rest)
    as [d2 [e|]] eqn:E2; pose proof (recvType_reader _ _ _ _ _ E2) as Hr;
    cbn [dec_r] in Hr.
  { intro H. injection H as <- <-. rewrite Hr. split; [lia|]. intros; discriminate. }
  intro H. destruct (IH _ _ _ _ H) as [H2 H2']. rewrite Hr in H2, H2'.
  split; [lia|]. intros v Hv. specialize (H2' v Hv). lia.
Qed.

(** More rounds than the source has bytes change nothing: the bound in
    [Decode] is never what stops it. *)
Lemma decodeTypeSequence_fuel n : forall d first m,
  (List.length (r_data (dec_r d)) < n)%nat -> (n <= m)%nat ->
  decodeTypeSequence m d first = decodeTypeSequence n d first.
Proof.
  induction n as [|n IH]; intros d first m Hn Hm; [lia|].
  destruct m as [|m]; [lia|]. cbn [decodeTypeSequence].
  destruct (recvMessage (dec_r d)) as [r1 [body|e]] eqn:E1; [|reflexivity].
  destruct (recvMessage_length _ _ _ E1) as [_ H1]. specialize (H1 body eq_refl).
  destruct (nextInt body) as [[i rest]|e]; [|reflexivity].
  cbv zeta. destruct (0 <=? toTypeId i)%Z; [reflexivity|].
  destruct (recvType {| dec_r := r1; dec_wireType := dec_wireType d |}
              (toTypeId (- toTypeId i)) rest)
    as [d2 [e|]] eqn:E2; [reflexivity|].
  pose proof (recvType_reader _ _ _ _ _ E2) as Hr. cbn [dec_r] in Hr.
  apply IH; [rewrite Hr|]; lia.
Qed.

(** Every message Decode yields was paid for in bytes of the source. *)
Lemma Decode_length d d' x :
  Decode d = (d', x) ->
  (List.length (r_data (dec_r d')) <= List.length (r_data (dec_r d)))%nat
  /\ (forall m, x = inl m ->
        (List.length (r_data (dec_r d')) < List.length (r_data (dec_r d)))%nat).
Proof.
  unfold Decode.
  destruct (decodeTypeSequence (S (List.length (r_data (dec_r d)))) d true)
    as [d1 [[id body]|e]] eqn:E;
    destruct (decodeTypeSequence_length _ _ _ _ _ E) as [H1 H1'];
    intro H; injection H as <- <-.
  - specialize (H1' _ eq_refl). split; intros; lia.
  - split; [lia|]. intros; discriminate.
Qed.

(** Every source comes to a stop: some messages, then an error or the end
    of the stream. *)
Lemma decodes_total d : exists ms e d', decodes d ms e d'.
Proof.
  remember (List.length (r_data (dec_r d))) as n eqn:En.
  revert d En. induction n as [n IH] using lt_wf_ind. intros d En.
  destruct (Decode d) as [d1 [m|e]] eqn:E.
  - destruct (Decode_length _ _ _ E) as [_ Hlt]. specialize (Hlt m eq_refl).
    destruct (IH (List.length (r_data (dec_r d1)))) with (d := d1)
      as (ms & e & d' & Hd); [lia|reflexivity|].
    exists (m :: ms), e, d'. econstructor; eauto.
  - exists [], e, d1. now constructor.
Qed.

(** The messages and the stop of a source are determined. *)
Lemma decodes_unique d ms e d' :
  decodes d ms e d' -> forall ms2 e2 d2, decodes d ms2 e2 d2 ->
  ms2 = ms /\ e2 = e /\ d2 = d'.
Proof.
  induction 1 as [d d' e HD|d d' m ms e d'' HD Hrest IH]; intros ms2 e2 d2 H2;
    inversion H2 as [? ? ? HD2|? ? ? ? ? ? HD2 Hrest2]; subst;
    rewrite HD in HD2; try discriminate.
  - injection HD2 as <- <-. auto.
  - injection HD2 as <- <-. destruct (IH _ _ _ Hrest2) as (-> & -> & ->). auto.
Qed.

(** Decode at the clean end of the stream. *)
Lemma Decode_EOF tbl :
  Decode {| dec_r := {| r_data := []; r_fail := None |}; dec_wireType := tbl |}
  = ({| dec_r := {| r_data := []; r_fail := None |}; dec_wireType := tbl |}, inr EOF).
Proof. reflexivity. Qed.

End StreamFacts.

(** ** Skipping the values of fields the receiver lacks *)

Module SkipFacts.
Import Gob GobStream GobFacts.

Lemma lookupType_In id tbl wt :
  lookupType id tbl = Some wt -> In id (map fst tbl).
Proof.
  induction tbl as [|[i w] tbl IH]; cbn [lookupType map fst]; [discriminate|].
  destruct (i =? id)%Z eqn:E.
  - apply Z.eqb_eq in E. intros _. now left.
  - intro H. right. now apply IH.
Qed.

(** More rounds than there are types change nothing: the bound in
    [compileFields] is never what stops [canIgnore]. *)
Lemma canIgnore_fuel tbl n : forall m inProgress id,
  NoDup inProgress -> incl inProgress (map fst tbl) ->
  (List.length tbl < n + List.length inProgress)%nat -> (n <= m)%nat ->
  canIgnore m tbl inProgress id = canIgnore n tbl inProgress id.
Proof.
  induction n as [|n IH]; intros m ip id Hnd Hincl Hlen Hm.
  - exfalso. pose proof (NoDup_incl_length Hnd Hincl) as Hle.
    rewrite length_map in Hle. lia.
  - destruct m as [|m]; [lia|]. cbn [canIgnore].
    destruct (existsb (Z.eqb id) ip) eqn:Ex; [reflexivity|].
    destruct (ignoresUint id || ignoresBytes id || (id =? tComplex)%Z
              || (id =? tInterface)%Z); [reflexivity|].
    destruct (lookupType id tbl) as [wt|] eqn:El; [|reflexivity].
    assert (Hrec : forall x,
              canIgnore m tbl (id :: ip) x = canIgnore n tbl (id :: ip) x).
    { intro x. apply IH.
      - constructor; [|exact Hnd]. intro Hin.
        assert (existsb (Z.eqb id) ip = true)
          by (apply existsb_exists; exists id; split; [exact Hin|apply Z.eqb_refl]).
        congruence.
      - intros y [<-|Hy]; [now apply lookupType_In with (wt := wt)|now apply Hincl].
      - cbn [List.length]. lia.
      - lia. }
    cbv zeta.
    destruct (ArrayT wt); [apply Hrec|].
    destruct (MapT wt); [now rewrite !Hrec|].
    destruct (SliceT wt); [apply Hrec|].
    destruct (StructT wt) as [st|]; [|reflexivity].
    induction (Field st) as [|f fs IHf]; [reflexivity|].
    cbn [forallb]. now rewrite Hrec, IHf.
Qed.

Lemma decodeUint_shrinks buf x r :
  decodeUint buf = inl (x, r) -> (List.length r < List.length buf)%nat.
Proof.
  destruct buf as [|b buf]; [discriminate|]. cbn [decodeUint List.length].
  destruct (Byte.to_N b <=? 127).
  - intro H. injection H as _ <-. lia.
  - cbv zeta. destruct (uint64Size <? N.to_nat (256 - Byte.to_N b))%nat; [discriminate|].
    destruct (List.length buf <? N.to_nat (256 - Byte.to_N b))%nat; [discriminate|].
    intro H. injection H as _ <-. rewrite length_skipn. lia.
Qed.

Lemma ignoreUint_shrinks buf r :
  ignoreUint buf = inl r -> (List.length r < List.length buf)%nat.
Proof.
  unfold ignoreUint. destruct (decodeUint buf) as [[x r']|e] eqn:E; [|discriminate].
  intro H. injection H as <-. now apply decodeUint_shrinks in E.
Qed.

Lemma ignoreUint8Array_shrinks buf r :
  ignoreUint8Array buf = inl r -> (List.length r < List.length buf)%nat.
Proof.
  unfold ignoreUint8Array, getLength.
  destruct (decodeUint buf) as [[x r']|e] eqn:E; [|discriminate].
  apply decodeUint_shrinks in E.
  destruct ((N.of_nat (List.length r') <? x) || (tooBig <=? x)); [discriminate|].
  intro H. injection H as <-. rewrite length_skipn. lia.
Qed.

Lemma ignoreElems_shrinks (op : list byte -> list byte + error) :
  (forall b r, op b = inl r -> (List.length r <= List.length b)%nat) ->
  forall n buf r,
    ignoreElems op n buf = inl r -> (List.length r <= List.length buf)%nat.
Proof.
  intros Hop. induction n as [|n IH]; intros buf r; cbn [ignoreElems].
  - intro H. injection H as <-. lia.
  - destruct buf as [|b buf]; [discriminate|].
    destruct (op (b :: buf)) as [r1|e] eqn:E; [|discriminate].
    intro H. apply IH in H. apply Hop in E. lia.
Qed.

Lemma ignorePairs_shrinks (keyOp elemOp : list byte -> list byte + error) :
  (forall b r, keyOp b = inl r -> (List.length r <= List.length b)%nat) ->
  (forall b r, elemOp b = inl r -> (List.length r <= List.length b)%nat) ->
  forall n buf r,
    ignorePairs keyOp elemOp n buf = inl r -> (List.length r <= List.length buf)%nat.
Proof.
  intros Hk He. induction n as [|n IH]; intros buf r; cbn [ignorePairs].
  - intro H. injection H as <-. lia.
  - destruct (keyOp buf) as [r1|e] eqn:E1; [|discriminate].
    destruct (elemOp r1) as [r2|e] eqn:E2; [|discriminate].
    intro H. apply IH in H. apply Hk in E1. apply He in E2. lia.
Qed.

Lemma decodeFields_shrinks {A}
    (engine : list (A -> list byte -> (A * list byte) + error)) :
  Forall (fun op => forall a b a' r,
            op a b = inl (a', r) -> (List.length r <= List.length b)%nat) engine ->
  forall fuel fieldnum acc buf acc' r,
    decodeFields fuel engine fieldnum acc buf = inl (acc', r) ->
    (List.length r <= List.length buf)%nat.
Proof.
  intro Hall. induction fuel as [|fuel IH]; intros fieldnum acc buf acc' r;
    cbn [decodeFields]; [discriminate|].
  destruct buf as [|b buf].
  { intro H. injection H as _ <-. lia. }
  destruct (decodeUint (b :: buf)) as [[delta buf1]|e] eqn:E; [|discriminate].
  apply decodeUint_shrinks in E.
  destruct (2 ^ 63 <=? delta); [discriminate|].
  destruct (delta =? 0).
  { intro H. injection H as _ <-. lia. }
  destruct (Z.of_nat (List.length engine) - Z.of_N delta <=? fieldnum)%Z; [discriminate|].
  destruct (nth_error engine (Z.to_nat (fieldnum + Z.of_N delta))) as [op|] eqn:En;
    [|discriminate].
  destruct (op acc buf1) as [[acc1 buf2]|e] eqn:Eo; [|discriminate].
  intro H. apply IH in H.
  apply nth_error_In in En. rewrite Forall_forall in Hall.
  apply (Hall _ En) in Eo. lia.
Qed.

(** Skipping a value never gives bytes back. *)
Lemma ignoreValue_shrinks tbl n : forall id buf r,
  ignoreValue n tbl id buf = inl r -> (List.length r <= List.length buf)%nat.
Proof.
  induction n as [|n IH]; intros id buf r; cbn [ignoreValue]; [discriminate|].
  destruct (ignoresUint id).
  { intro H. apply ignoreUint_shrinks in H. lia. }
  destruct (ignoresBytes id).
  { intro H. apply ignoreUint8Array_shrinks in H. lia. }
  destruct (id =? tComplex)%Z.
  { unfold ignoreTwoUints. destruct (ignoreUint buf) as [r1|e] eqn:E1; [|discriminate].
    intro H. apply ignoreUint_shrinks in H. apply ignoreUint_shrinks in E1. lia. }
  destruct (id =? tInterface)%Z; [discriminate|].
  destruct (lookupType id tbl) as [wt|]; [|discriminate].
  destruct (ArrayT wt) as [a|].
  { destruct (decodeUint buf) as [[c r1]|e] eqn:E; [|discriminate].
    apply decodeUint_shrinks in E.
    destruct (Z.of_N c =? arrayLen a)%Z; [|discriminate].
    intro H. apply ignoreElems_shrinks in H; [lia|apply IH]. }
  destruct (MapT wt) as [mt|].
  { destruct (decodeUint buf) as [[c r1]|e] eqn:E; [|discriminate].
    apply decodeUint_shrinks in E.
    intro H. apply ignorePairs_shrinks in H; [lia|apply IH|apply IH]. }
  destruct (SliceT wt) as [sl|].
  { destruct (decodeUint buf) as [[c r1]|e] eqn:E; [|discriminate].
    apply decodeUint_shrinks in E.
    intro H. apply ignoreElems_shrinks in H; [lia|apply IH]. }
  destruct (StructT wt) as [st|].
  { unfold decodeStruct.
    match goal with
    | |- match ?X with _ => _ end = _ -> _ => destruct X as [[u r1]|e] eqn:E; [|discriminate]
    end.
    intro H. injection H as <-.
    apply decodeFields_shrinks in E; [exact E|].
    apply Forall_forall. intros op Hop. apply in_map_iff in Hop.
    destruct Hop as (f & <- & _). intros a b a' r0. unfold decField.
    destruct (ignoreValue n tbl (fieldId f) b) as [r2|e] eqn:E2; [|discriminate].
    intro H. injection H as _ <-. now apply IH in E2. }
  intro H. apply ignoreUint8Array_shrinks in H. lia.
Qed.

Lemma ignoreElems_agree (op1 op2 : list byte -> list byte + error) K :
  (forall b, (List.length b < K)%nat -> op1 b = op2 b) ->
  (forall b r, op2 b = inl r -> (List.length r <= List.length b)%nat) ->
  forall n buf,
    (List.length buf < K)%nat -> ignoreElems op1 n buf = ignoreElems op2 n buf.
Proof.
  intros Hag Hsh. induction n as [|n IH]; intros buf Hb; cbn [ignoreElems];
    [reflexivity|].
  destruct buf as [|b buf]; [reflexivity|].
  rewrite Hag by exact Hb.
  destruct (op2 (b :: buf)) as [r|e] eqn:E; [|reflexivity].
  apply Hsh in E. apply IH. lia.
Qed.

Lemma ignorePairs_agree (k1 k2 e1 e2 : list byte -> list byte + error) K :
  (forall b, (List.length b < K)%nat -> k1 b = k2 b) ->
  (forall b, (List.length b < K)%nat -> e1 b = e2 b) ->
  (forall b r, k2 b = inl r -> (List.length r <= List.length b)%nat) ->
  (forall b r, e2 b = inl r -> (List.length r <= List.length b)%nat) ->
  forall n buf,
    (List.length buf < K)%nat -> ignorePairs k1 e1 n buf = ignorePairs k2 e2 n buf.
Proof.
  intros Hk He Hks Hes. induction n as [|n IH]; intros buf Hb; cbn [ignorePairs];
    [reflexivity|].
  rewrite Hk by exact Hb.
  destruct (k2 buf) as [r1|e] eqn:E1; [|reflexivity]. apply Hks in E1.
  rewrite He by lia.
  destruct (e2 r1) as [r2|e] eqn:E2; [|reflexivity]. apply Hes in E2.
  apply IH. lia.
Qed.

Lemma decodeFields_agree {A}
    (g1 g2 : fieldType -> A -> list byte -> (A * list byte) + error) K :
  (forall f a b, (List.length b < K)%nat -> g1 f a b = g2 f a b) ->
  (forall f a b a' r, g2 f a b = inl (a', r) -> (List.length r <= List.length b)%nat) ->
  forall fs fuel fieldnum acc buf,
    (List.length buf <= K)%nat ->
    decodeFields fuel (map g1 fs) fieldnum acc buf
    = decodeFields fuel (map g2 fs) fieldnum acc buf.
Proof.
  intros Hag Hsh fs. induction fuel as [|fuel IH]; intros fieldnum acc buf Hb;
    cbn [decodeFields]; [reflexivity|].
  destruct buf as [|b buf]; [reflexivity|].
  destruct (decodeUint (b :: buf)) as [[delta buf1]|e] eqn:E; [|reflexivity].
  apply decodeUint_shrinks in E.
  destruct (2 ^ 63 <=? delta); [reflexivity|].
  destruct (delta =? 0); [reflexivity|].
  rewrite !length_map.
  destruct (Z.of_nat (List.length fs) - Z.of_N delta <=? fieldnum)%Z; [reflexivity|].
  rewrite !nth_error_map.
  destruct (nth_error fs (Z.to_nat (fieldnum + Z.of_N delta))) as [f|];
    [|reflexivity].
  cbn [option_map]. rewrite Hag by lia.
  destruct (g2 f acc buf1) as [[acc1 buf2]|e] eqn:Eo; [|reflexivity].
  apply Hsh in Eo. apply IH. lia.
Qed.

(** More rounds than the buffer has bytes change nothing: the bound in
    [decIgnore] is never what stops [ignoreValue]. *)
Lemma ignoreValue_fuel tbl n : forall m id buf,
  (List.length buf < n)%nat -> (n <= m)%nat ->
  ignoreValue m tbl id buf = ignoreValue n tbl id buf.
Proof.
  induction n as [|n IH]; intros m id buf Hb Hm; [lia|].
  destruct m as [|m]; [lia|]. cbn [ignoreValue].
  destruct (ignoresUint id); [reflexivity|].
  destruct (ignoresBytes id); [reflexivity|].
  destruct (id =? tComplex)%Z; [reflexivity|].
  destruct (id =? tInterface)%Z; [reflexivity|].
  destruct (lookupType id tbl) as [wt|]; [|reflexivity].
  assert (Hag : forall x b, (List.length b < n)%nat ->
            ignoreValue m tbl x b = ignoreValue n tbl x b).
  { intros x b Hlt. apply IH; lia. }
  destruct (ArrayT wt) as [a|].
  { destruct (decodeUint buf) as [[c r1]|e] eqn:E; [|reflexivity].
    apply decodeUint_shrinks in E.
    destruct (Z.of_N c =? arrayLen a)%Z; [|reflexivity].
    apply ignoreElems_agree with (K := n);
      [intros; now apply Hag|apply ignoreValue_shrinks|lia]. }
  destruct (MapT wt) as [mt|].
  { destruct (decodeUint buf) as [[c r1]|e] eqn:E; [|reflexivity].
    apply decodeUint_shrinks in E.
    apply ignorePairs_agree with (K := n);
      [intros; now apply Hag|intros; now apply Hag
      |apply ignoreValue_shrinks|apply ignoreValue_shrinks|lia]. }
  destruct (SliceT wt) as [sl|].
  { destruct (decodeUint buf) as [[c r1]|e] eqn:E; [|reflexivity].
    apply decodeUint_shrinks in E.
    apply ignoreElems_agree with (K := n);
      [intros; now apply Hag|apply ignoreValue_shrinks|lia]. }
  destruct (StructT wt) as [st|]; [|reflexivity].
  unfold decodeStruct. rewrite !length_map.
  rewrite (decodeFields_agree
             (fun f => decField
                         (fun b => match ignoreValue m tbl (fieldId f) b with
                                   | inr e => inr e
                                   | inl r => inl (tt, r)
                                   end)
                         (fun (u : unit) (_ : unit) => u))
             (fun f => decField
                         (fun b => match ignoreValue n tbl (fieldId f) b with
                                   | inr e => inr e
                                   | inl r => inl (tt, r)
                                   end)
                         (fun (u : unit) (_ : unit) => u)) n).
  - reflexivity.
  - intros f a b Hlt. unfold decField. now rewrite Hag.
  - intros f a b a' r. unfold decField.
    destruct (ignoreValue n tbl (fieldId f) b) as [r2|e] eqn:E2; [|discriminate].
    intro H. injection H as _ <-. now apply ignoreValue_shrinks in E2.
  - lia.
Qed.

End SkipFacts.

(** ** Runs *)

Section Runs.
Context {S E : Type} (step : S -> E -> S -> Prop).

Lemma run_one s ev s' : step s ev s' -> run step s [ev] s'.
Proof. intro H. apply (run_snoc step s [] s ev s' (run_nil step s) H). Qed.

Lemma run_app s t1 s1 t2 s2 :
  run step s t1 s1 -> run step s1 t2 s2 -> run step s (t1 ++ t2) s2.
Proof.
  intros H1 H2. induction H2 as [|s1 t2 s2 ev s3 H2 IH H3].
  - now rewrite app_nil_r.
  - rewrite app_assoc. eapply run_snoc; eauto.
Qed.

Lemma run_cons s ev s1 t s2 :
  step s ev s1 -> run step s1 t s2 -> run step s (ev :: t) s2.
Proof. intros H1 H2. apply (run_app s [ev] s1 t s2 (run_one _ _ _ H1) H2). Qed.

(** A run can be cut at any of its events. *)
Lemma run_split s t1 ev t2 s' :
  run step s (t1 ++ ev :: t2) s' ->
  exists s1 s2, run step s t1 s1 /\ step s1 ev s2 /\ run step s2 t2 s'.
Proof.
  revert s'. induction t2 as [|x t2 IH] using rev_ind; intros s' H.
  - remember (t1 ++ [ev]) as tr eqn:Et.
    destruct H as [s0|s0 t s1 ev' s2 Hr Hs].
    + destruct t1; discriminate.
    + apply app_inj_tail in Et as [-> ->].
      exists s1, s2. repeat split; auto. constructor.
  - remember (t1 ++ ev :: t2 ++ [x]) as tr eqn:Et.
    destruct H as [s0|s0 t s1 ev' s2 Hr Hs].
    + destruct t1; discriminate.
    + change (t1 ++ ev :: t2 ++ [x]) with (t1 ++ (ev :: t2) ++ [x]) in Et.
      rewrite app_assoc in Et. apply app_inj_tail in Et as [-> ->].
      destruct (IH _ Hr) as (sa & sb & H1 & H2 & H3).
      exists sa, sb. repeat split; auto. eapply run_snoc; eauto.
Qed.
End Runs.

(** ** The encoding side *)

Module WriteFacts.
Import Gob GobFacts StreamFacts.

Lemma sentMsgs_snoc t ev :
  sentMsgs (t ++ [ev]) = sentMsgs t ++ match ev with EvSend m => [m] | _ => [] end.
Proof. unfold sentMsgs. rewrite flat_map_app. cbn. now rewrite app_nil_r. Qed.

Lemma attempts_snoc t ev :
  attempts (t ++ [ev])
  = attempts t ++ match ev with EvEncode m r => [(m, r)] | _ => [] end.
Proof. unfold attempts. rewrite flat_map_app. cbn. now rewrite app_nil_r. Qed.

Lemma errsSent_snoc t ev :
  errsSent (t ++ [ev]) = errsSent t ++ match ev with EvErr e => [e] | _ => [] end.
Proof. unfold errsSent. rewrite flat_map_app. cbn. now rewrite app_nil_r. Qed.

Lemma errsReceived_snoc t ev :
  errsReceived (t ++ [ev])
  = errsReceived t ++ match ev with EvRecvErr e => [e] | _ => [] end.
Proof. unfold errsReceived. rewrite flat_map_app. cbn. now rewrite app_nil_r. Qed.

Lemma failures_snoc rs m r :
  failures (rs ++ [(m, r)])
  = failures rs ++ match r with Some e => [e] | None => [] end.
Proof. unfold failures. rewrite flat_map_app. cbn. now rewrite app_nil_r. Qed.

Lemma encodeEach_snoc w msgs m :
  encodeEach w (msgs ++ [m])
  = let (w1, rs) := encodeEach w msgs in
    let (enc, err) := Encode (NewEncoder w1) m in
    (enc_w enc, rs ++ [(m, err)]).
Proof.
  revert w. induction msgs as [|m0 msgs IH]; intro w; cbn [app encodeEach].
  - destruct (Encode (NewEncoder w) m). reflexivity.
  - destruct (Encode (NewEncoder w) m0) as [enc0 err0]. rewrite IH.
    destruct (encodeEach (enc_w enc0) msgs) as [w1 rs].
    destruct (Encode (NewEncoder w1) m). reflexivity.
Qed.

Ltac snoc_simpl :=
  rewrite ?sentMsgs_snoc, ?attempts_snoc, ?errsSent_snoc, ?errsReceived_snoc,
    ?filter_app, ?existsb_app, ?map_app, ?length_app;
  cbn [filter existsb isClose isCloseErr map fst snd List.length orb];
  rewrite ?app_nil_r, ?orb_false_r, ?Nat.add_0_r.

Lemma WInv_init w0 : WInv w0 [] (ChannelFromWriter w0).
Proof.
  constructor; cbn; auto; try (split; [lia|lia]).
  - split; discriminate.
  - discriminate.
Qed.

Ltac winv :=
  constructor; cbn [ws_w ws_ch ws_errCh ws_pc buf cap closed pendingErr] in *;
  snoc_simpl; rewrite ?app_nil_r in *; cbn [List.length] in *; auto;
  try tauto; try lia; try congruence.

Lemma WInv_step w0 t s ev s' :
  WInv w0 t s -> wstep s ev s' -> WInv w0 (t ++ [ev]) s'.
Proof.
  intros I Hstep.
  destruct Hstep as [s ev s' Hw|s m c Hs|s c Hc|s e c Hr];
    destruct I; destruct s as [w [chb chc chx] [eb ec ex] pc];
    cbn [ws_w ws_ch ws_errCh ws_pc buf cap closed] in *.
  - unfold write in Hw. cbn [ws_w ws_ch ws_errCh ws_pc] in Hw.
    destruct pc as [|e|]; [| |discriminate].
    + unfold recv in Hw. cbn [buf cap closed] in Hw.
      destruct chb as [|m chb].
      * destruct chx; [|discriminate].
        unfold close in Hw. cbn [closed buf cap] in Hw.
        destruct ex; [discriminate|]. injection Hw as <- <-.
        winv.
      * destruct (Encode (NewEncoder w) m) as [enc err] eqn:EE.
        injection Hw as <- <-.
        winv.
        -- now rewrite <- app_assoc.
        -- now rewrite encodeEach_snoc, wi_sink0, EE.
        -- destruct err; split; intro Hx; try discriminate;
             apply wi_exit0 in Hx; discriminate.
        -- destruct err; discriminate.
        -- rewrite failures_snoc, wi_errs0. destruct err; cbn [pendingErr];
             now rewrite ?app_nil_r.
    + unfold send in Hw. cbn [buf cap closed] in Hw.
      destruct ex; [discriminate|].
      destruct (List.length eb <? ec)%nat eqn:El; [|discriminate].
      injection Hw as <- <-. apply Nat.ltb_lt in El.
      winv.
      * split; discriminate.
      * now rewrite wi_errq0, app_assoc.
  - unfold send in Hs. cbn [buf cap closed] in Hs.
    destruct chx; [discriminate|].
    destruct (List.length chb <? chc)%nat eqn:El; [|discriminate].
    injection Hs as <-. apply Nat.ltb_lt in El.
    winv.
    + now rewrite wi_sent0, app_assoc.
    + intro Hx. apply wi_drained0 in Hx. destruct Hx; discriminate.
  - unfold close in Hc. cbn [buf cap closed] in Hc.
    destruct chx; [discriminate|]. injection Hc as <-.
    winv.
  - unfold recv in Hr. cbn [buf cap closed] in Hr.
    destruct eb as [|e0 eb]; [destruct ex; discriminate|].
    injection Hr as <- <-.
    winv.
    + now rewrite wi_errq0, <- app_assoc.
Qed.

(** Every run from [ChannelFromWriter w0] keeps the invariant. *)
Lemma WInv_run w0 t s : wrun (ChannelFromWriter w0) t s -> WInv w0 t s.
Proof.
  intro H. remember (ChannelFromWriter w0) as s0 eqn:E.
  induction H as [s0|s0 t s1 ev s2 H IH Hs]; subst.
  - apply WInv_init.
  - eapply WInv_step; eauto.
Qed.

(** *** What Encode does to the sink *)

(** The three [Write] calls of a new encoder all succeed. *)
Lemma Encode_three w m :
  w_fail w (w_calls w) = None ->
  w_fail w (S (w_calls w)) = None ->
  w_fail w (S (S (w_calls w))) = None ->
  Encode (NewEncoder w) m
  = ({| enc_w := {| w_out := w_out w ++ encodeAlone m;
                    w_calls := 3 + w_calls w;
                    w_fail := w_fail w |};
        enc_sent := [StringsT; MessageT] |}, None).
Proof.
  intros H0 H1 H2. rewrite encodeAlone_eq.
  unfold Encode, sendTypeDescriptor, sendArgsType, writeMessage, Write.
  cbn [NewEncoder alreadySent existsb enc_sent enc_w w_fail w_calls w_out
       markSent goType_eqb orb].
  rewrite H0. cbn [enc_w enc_sent w_fail w_calls w_out markSent alreadySent existsb
                   goType_eqb orb].
  rewrite H1. cbn [enc_w enc_sent w_fail w_calls w_out markSent alreadySent existsb
                   goType_eqb orb].
  rewrite H2. now rewrite <- !app_assoc.
Qed.

(** On a sink that fails no more, every message is written whole. *)
Lemma encodeEach_healthy msgs w :
  (forall i, (w_calls w <= i)%nat -> w_fail w i = None) ->
  encodeEach w msgs
  = ({| w_out := w_out w ++ List.concat (map encodeAlone msgs);
        w_calls := 3 * List.length msgs + w_calls w;
        w_fail := w_fail w |},
     map (fun m => (m, None)) msgs).
Proof.
  revert w. induction msgs as [|m msgs IH]; intros w Hw.
  - cbn. rewrite app_nil_r. now destruct w.
  - cbn [encodeEach]. rewrite Encode_three by (apply Hw; lia).
    cbn [enc_w]. rewrite IH by (cbn; intros; apply Hw; lia).
    cbn [w_out w_calls w_fail map List.concat List.length].
    rewrite <- app_assoc. f_equal. f_equal. lia.
Qed.



(** *** Progress of [write] *)

(** An error that [write] holds gets sent, once the consumer has made room
    for it if the error channel is full. *)
Lemma write_flushes w0 t s e :
  wrun (ChannelFromWriter w0) t s ->
  ws_pc s = WSendErr e ->
  exists t' s',
    wrun s t' s' /\ ws_pc s' = WRange /\ ws_ch s' = ws_ch s
    /\ sentMsgs t' = [] /\ attempts t' = [].
Proof.
  intros Hrun Hpc. pose proof (WInv_run _ _ _ Hrun) as I. destruct I.
  destruct s as [w ch [eb ec ex] pc].
  cbn [ws_w ws_ch ws_errCh ws_pc buf cap closed] in *. subst pc.
  assert (ex = false) as ->.
  { destruct ex; [|reflexivity]. destruct wi_exit0 as [X _].
    specialize (X eq_refl). discriminate. }
  destruct wi_cap0 as [_ ->].
  destruct (List.length eb <? ChanSize)%nat eqn:El.
  - eexists [EvErr e], _. split.
    { apply run_one, wstep_write. unfold write, send.
      cbn [ws_w ws_ch ws_errCh ws_pc buf cap closed]. rewrite El. reflexivity. }
    repeat split.
  - apply Nat.ltb_ge in El. destruct eb as [|e0 eb]; [unfold ChanSize in El; cbn in El; lia|].
    cbn [List.length] in *.
    eexists [EvRecvErr e0; EvErr e], _. split.
    { eapply run_cons.
      + apply wstep_recvErr. reflexivity.
      + apply run_one, wstep_write. unfold write, send.
        cbn [ws_w ws_ch ws_errCh ws_pc buf cap closed].
        replace (List.length eb <? ChanSize)%nat with true
          by (symmetry; apply Nat.ltb_lt; lia).
        reflexivity. }
    repeat split.
Qed.

(** With the message channel closed, [write] works off what is left in it
    and returns, closing the error channel. *)
Lemma write_drains w0 n : forall t s,
  wrun (ChannelFromWriter w0) t s ->
  closed (ws_ch s) = true ->
  ws_pc s = WRange ->
  List.length (buf (ws_ch s)) = n ->
  exists t' s',
    wrun s t' s' /\ ws_pc s' = WExit /\ closed (ws_errCh s') = true
    /\ sentMsgs t' = [].
Proof.
  induction n as [|n IH]; intros t s Hrun Hcl Hpc Hn.
  - pose proof (WInv_run _ _ _ Hrun) as I. destruct I.
    destruct s as [w [chb chc chx] [eb ec ex] pc].
    cbn [ws_w ws_ch ws_errCh ws_pc buf cap closed] in *. subst pc chx.
    destruct chb; [|discriminate].
    assert (ex = false) as ->.
    { destruct ex; [|reflexivity]. destruct wi_exit0 as [X _].
      specialize (X eq_refl). discriminate. }
    eexists [EvCloseErr], _. split.
    { apply run_one, wstep_write. reflexivity. }
    repeat split.
  - destruct s as [w [chb chc chx] errCh pc].
    cbn [ws_w ws_ch ws_errCh ws_pc buf cap closed] in *. subst pc chx.
    destruct chb as [|m chb]; [discriminate|]. injection Hn as Hn.
    destruct (Encode (NewEncoder w) m) as [enc err] eqn:EE.
    set (s1 := {| ws_w := enc_w enc;
                  ws_ch := {| buf := chb; cap := chc; closed := true |};
                  ws_errCh := errCh;
                  ws_pc := match err with Some e => WSendErr e | None => WRange end |}).
    assert (Hs1 : wstep {| ws_w := w;
                           ws_ch := {| buf := m :: chb; cap := chc; closed := true |};
                           ws_errCh := errCh; ws_pc := WRange |}
                        (EvEncode m err) s1).
    { apply wstep_write. unfold write, recv.
      cbn [ws_w ws_ch ws_errCh ws_pc buf cap closed]. now rewrite EE. }
    pose proof (run_snoc _ _ _ _ _ _ Hrun Hs1) as Hrun1.
    destruct err as [e|].
    + destruct (write_flushes _ _ _ e Hrun1 eq_refl)
        as (t2 & s2 & Hr2 & Hpc2 & Hch2 & Hsent2 & _).
      destruct (IH _ s2 (run_app _ _ _ _ _ _ Hrun1 Hr2))
        as (t3 & s3 & Hr3 & Hpc3 & Hcl3 & Hsent3);
        try (rewrite Hch2; cbn; auto); auto.
      exists (EvEncode m (Some e) :: t2 ++ t3), s3. repeat split; auto.
      * eapply run_cons; [exact Hs1|]. eapply run_app; eauto.
      * unfold sentMsgs in *. cbn [flat_map app]. rewrite flat_map_app.
        now rewrite Hsent2, Hsent3.
    + destruct (IH _ s1 Hrun1) as (t3 & s3 & Hr3 & Hpc3 & Hcl3 & Hsent3); auto.
      exists (EvEncode m None :: t3), s3. repeat split; auto.
      eapply run_cons; eauto.
Qed.

(** Once the message channel is closed, [write] can always reach its end. *)
Lemma write_exits w0 t s :
  wrun (ChannelFromWriter w0) t s ->
  closed (ws_ch s) = true ->
  exists t' s',
    wrun s t' s' /\ ws_pc s' = WExit /\ closed (ws_errCh s') = true
    /\ sentMsgs t' = [].
Proof.
  intros Hrun Hcl. destruct (ws_pc s) as [|e|] eqn:Hpc.
  - eapply write_drains; eauto.
  - destruct (write_flushes _ _ _ e Hrun Hpc) as (t2 & s2 & Hr2 & Hpc2 & Hch2 & Hs2 & _).
    destruct (write_drains w0 (List.length (buf (ws_ch s2))) _ s2
                (run_app _ _ _ _ _ _ Hrun Hr2))
      as (t3 & s3 & Hr3 & Hpc3 & Hcl3 & Hs3); auto.
    { now rewrite Hch2. }
    exists (t2 ++ t3), s3. repeat split; auto.
    + eapply run_app; eauto.
    + unfold sentMsgs in *. now rewrite flat_map_app, Hs2, Hs3.
  - exists [], s. repeat split; auto.
    + constructor.
    + pose proof (WInv_run _ _ _ Hrun) as I. now apply (wi_exit _ _ _ I).
Qed.

Lemma sentMsgs_app t1 t2 : sentMsgs (t1 ++ t2) = sentMsgs t1 ++ sentMsgs t2.
Proof. unfold sentMsgs. apply flat_map_app. Qed.

(** While the message channel is open, [write] can make room in it. *)
Lemma write_makes_room w0 t s :
  wrun (ChannelFromWriter w0) t s ->
  closed (ws_ch s) = false ->
  exists t' s',
    wrun s t' s' /\ sentMsgs t' = [] /\ closed (ws_ch s') = false
    /\ (List.length (buf (ws_ch s')) < cap (ws_ch s'))%nat.
Proof.
  intros Hrun Hopen. pose proof (WInv_run _ _ _ Hrun) as I.
  destruct (List.length (buf (ws_ch s)) <? cap (ws_ch s))%nat eqn:El.
  { apply Nat.ltb_lt in El. exists [], s. repeat split; auto. constructor. }
  apply Nat.ltb_ge in El.
  assert (Hrange : exists t1 s1,
            wrun s t1 s1 /\ sentMsgs t1 = [] /\ ws_ch s1 = ws_ch s
            /\ ws_pc s1 = WRange).
  { destruct (ws_pc s) as [|e|] eqn:Hpc.
    - exists [], s. repeat split; auto. constructor.
    - destruct (write_flushes _ _ _ e Hrun Hpc) as (t1 & s1 & H1 & H2 & H3 & H4 & _).
      exists t1, s1. repeat split; auto.
    - destruct (wi_drained _ _ _ I Hpc) as [Hc _]. congruence. }
  destruct Hrange as (t1 & s1 & Hr1 & Hs1 & Hch1 & Hpc1).
  pose proof (wi_cap _ _ _ I) as [Hcap _]. pose proof (wi_len _ _ _ I) as [Hlen _].
  destruct s1 as [w1 ch1 errCh1 pc1]. cbn [ws_ch ws_pc] in *. subst ch1 pc1.
  destruct (ws_ch s) as [chb chc chx] eqn:Ech. cbn [buf cap closed] in *. subst chx.
  destruct chb as [|m chb]; [unfold ChanSize in *; cbn in El; lia|].
  destruct (Encode (NewEncoder w1) m) as [enc err] eqn:EE.
  eexists (t1 ++ [EvEncode m err]), _. split.
  { eapply run_snoc; [exact Hr1|]. apply wstep_write. unfold write, recv.
    cbn [ws_w ws_ch ws_errCh ws_pc buf cap closed]. rewrite EE. reflexivity. }
  rewrite sentMsgs_app, Hs1. cbn [ws_ch buf cap closed List.length] in *.
  repeat split; auto. lia.
Qed.

(** While the message channel is open, the producer can get any messages
    into it, [write] making room as needed. *)
Lemma write_accepts w0 msgs : forall t s,
  wrun (ChannelFromWriter w0) t s ->
  closed (ws_ch s) = false ->
  exists t' s',
    wrun s t' s' /\ sentMsgs t' = msgs /\ closed (ws_ch s') = false.
Proof.
  induction msgs as [|m msgs IH]; intros t s Hrun Hopen.
  { exists [], s. repeat split; auto. constructor. }
  destruct (write_makes_room _ _ _ Hrun Hopen) as (t1 & s1 & Hr1 & Hs1 & Ho1 & Hl1).
  set (s2 := {| ws_w := ws_w s1;
                ws_ch := {| buf := buf (ws_ch s1) ++ [m]; cap := cap (ws_ch s1);
                            closed := false |};
                ws_errCh := ws_errCh s1; ws_pc := ws_pc s1 |}).
  assert (Hstep : wstep s1 (EvSend m) s2).
  { apply wstep_send. unfold send. rewrite Ho1.
    apply Nat.ltb_lt in Hl1. now rewrite Hl1. }
  pose proof (run_snoc _ _ _ _ _ _ Hr1 Hstep) as Hr2.
  destruct (IH _ s2 (run_app _ _ _ _ _ _ Hrun Hr2) eq_refl) as (t3 & s3 & Hr3 & Hs3 & Ho3).
  exists ((t1 ++ [EvSend m]) ++ t3), s3. repeat split; auto.
  - eapply run_app; eauto.
  - rewrite !sentMsgs_app, Hs1, Hs3. reflexivity.
Qed.

(** Whatever the sink and the messages, there is a run in which exactly
    these messages are sent and [write] comes to its end. *)
Lemma write_completes w msgs :
  exists t s,
    wrun (ChannelFromWriter w) t s /\ sentMsgs t = msgs /\ ws_pc s = WExit.
Proof.
  destruct (write_accepts w msgs [] (ChannelFromWriter w) (run_nil _ _) eq_refl)
    as (t1 & s1 & Hr1 & Hs1 & Ho1).
  set (s2 := {| ws_w := ws_w s1;
                ws_ch := {| buf := buf (ws_ch s1); cap := cap (ws_ch s1);
                            closed := true |};
                ws_errCh := ws_errCh s1; ws_pc := ws_pc s1 |}).
  assert (Hstep : wstep s1 EvClose s2).
  { apply wstep_close. unfold close. now rewrite Ho1. }
  pose proof (run_snoc _ _ _ _ _ _ Hr1 Hstep) as Hr2.
  destruct (write_exits _ _ s2 Hr2 eq_refl) as (t3 & s3 & Hr3 & Hpc3 & _ & Hs3).
  exists ((t1 ++ [EvClose]) ++ t3), s3. repeat split; auto.
  - eapply run_app; eauto.
  - rewrite !sentMsgs_app, Hs1, Hs3. cbn. now rewrite !app_nil_r.
Qed.

(** A schedule produces a run. *)
Lemma wmove_step p todo s ev todo' s' :
  wmove p todo s = Some (ev, todo', s') -> wstep s ev s'.
Proof.
  destruct p; cbn [wmove].
  - destruct todo as [[|m rest]|]; [| |discriminate].
    + destruct (close (ws_ch s)) eqn:E; [|discriminate].
      intro H. injection H as <- <- <-. now constructor.
    + destruct (send (ws_ch s) m) eqn:E; try discriminate.
      intro H. injection H as <- <- <-. now constructor.
  - destruct (write s) as [[ev0 s0]|] eqn:E; [|discriminate].
    intro H. injection H as <- <- <-. now constructor.
  - destruct (recv (ws_errCh s)) eqn:E; try discriminate.
    intro H. injection H as <- <- <-. now constructor.
Qed.

Lemma wsched_sound sched : forall todo s t s',
  wsched sched todo s = (t, s') -> wrun s t s'.
Proof.
  induction sched as [|p sched IH]; intros todo s t s' H; cbn [wsched] in H.
  - injection H as <- <-. constructor.
  - destruct (wmove p todo s) as [[[ev todo'] s1]|] eqn:E.
    + destruct (wsched sched todo' s1) as [t1 s2] eqn:E1.
      injection H as <- <-.
      eapply run_cons; [eapply wmove_step; eauto|]. eapply IH; eauto.
    + eapply IH; eauto.
Qed.


(** The goroutine never sends on the message channel and the producer never
    encodes: the label tells who moved. *)
Lemma wstep_send_inv s m s' :
  wstep s (EvSend m) s' -> exists c, send (ws_ch s) m = Sent c.
Proof.
  intro H. inversion H as [? ? ? Hw|? ? c Hs| |]; subst; [|eauto].
  unfold write in Hw. destruct (ws_pc s).
  - destruct (recv (ws_ch s)); try discriminate.
    + destruct (Encode (NewEncoder (ws_w s)) v). discriminate.
    + destruct (close (ws_errCh s)); discriminate.
  - destruct (send (ws_errCh s) e); discriminate.
  - discriminate.
Qed.


(** A full message channel stays full for as long as [write] takes nothing
    off it. *)
Lemma full_stays_full s t s' :
  wrun s t s' ->
  List.length (buf (ws_ch s)) = cap (ws_ch s) ->
  existsb isRemoval t = false ->
  List.length (buf (ws_ch s')) = cap (ws_ch s').
Proof.
  intros H Hfull. induction H as [s|s t s1 ev s2 H IH Hs]; intro Hno; [exact Hfull|].
  rewrite existsb_app in Hno. apply orb_false_iff in Hno as [Hno1 Hno2].
  specialize (IH Hfull Hno1).
  destruct Hs as [s1 ev s2 Hw|s1 m c Hs|s1 c Hc|s1 e c Hr].
  - unfold write in Hw. destruct (ws_pc s1).
    + destruct (recv (ws_ch s1)); try discriminate.
      * destruct (Encode (NewEncoder (ws_w s1)) v). injection Hw as <- <-.
        discriminate.
      * destruct (close (ws_errCh s1)); [|discriminate].
        injection Hw as <- <-. exact IH.
    + destruct (send (ws_errCh s1) e); try discriminate.
      injection Hw as <- <-. exact IH.
    + discriminate.
  - unfold send in Hs. destruct (closed (ws_ch s1)); [discriminate|].
    rewrite IH, Nat.ltb_irrefl in Hs. discriminate.
  - unfold close in Hc. destruct (closed (ws_ch s1)); [discriminate|].
    injection Hc as <-. exact IH.
  - exact IH.
Qed.

Lemma wstep_encode_inv s m r s' :
  wstep s (EvEncode m r) s' ->
  exists rest,
    buf (ws_ch s) = m :: rest
    /\ ws_ch s' = {| buf := rest; cap := cap (ws_ch s); closed := closed (ws_ch s) |}.
Proof.
  intro H. inversion H as [? ? ? Hw| | |]; subst.
  unfold write in Hw. destruct (ws_pc s).
  - unfold recv in Hw. destruct (buf (ws_ch s)) as [|m0 rest] eqn:Eb.
    + destruct (closed (ws_ch s)); [|discriminate].
      destruct (close (ws_errCh s)); discriminate.
    + destruct (Encode (NewEncoder (ws_w s)) m0). injection Hw as <- <- <-.
      exists rest. split; reflexivity.
  - destruct (send (ws_errCh s) e); discriminate.
  - discriminate.
Qed.

End WriteFacts.

(** ** The decoding side *)

Module ReadFacts.
Import Gob GobFacts StreamFacts.

Lemma delivered_snoc t ev :
  delivered (t ++ [ev]) = delivered t ++ match ev with RvMsg m => [m] | _ => [] end.
Proof. unfold delivered. rewrite flat_map_app. cbn. now rewrite app_nil_r. Qed.

Lemma errsEmitted_snoc t ev :
  errsEmitted (t ++ [ev])
  = errsEmitted t ++ match ev with RvErr e => [e] | _ => [] end.
Proof. unfold errsEmitted. rewrite flat_map_app. cbn. now rewrite app_nil_r. Qed.

Lemma msgsReceived_snoc t ev :
  msgsReceived (t ++ [ev])
  = msgsReceived t ++ match ev with RvRecvMsg m => [m] | _ => [] end.
Proof. unfold msgsReceived. rewrite flat_map_app. cbn. now rewrite app_nil_r. Qed.

Lemma errsTaken_snoc t ev :
  errsTaken (t ++ [ev])
  = errsTaken t ++ match ev with RvRecvErr e => [e] | _ => [] end.
Proof. unfold errsTaken. rewrite flat_map_app. cbn. now rewrite app_nil_r. Qed.

Lemma decodeCalls_snoc t ev :
  decodeCalls (t ++ [ev])
  = decodeCalls t ++ match ev with RvDecode r => [r] | _ => [] end.
Proof. unfold decodeCalls. rewrite flat_map_app. cbn. now rewrite app_nil_r. Qed.

Ltac rsnoc :=
  rewrite ?delivered_snoc, ?errsEmitted_snoc, ?msgsReceived_snoc, ?errsTaken_snoc,
    ?decodeCalls_snoc, ?filter_app, ?length_app;
  cbn [filter isRvCloseMsg isRvCloseErr List.length finishing];
  rewrite ?app_nil_r, ?Nat.add_0_r.

Ltac rinv :=
  constructor; cbn [rs_dec rs_ch rs_errCh rs_pc buf cap closed finishing] in *;
  rsnoc; rewrite ?app_nil_r in *; cbn [List.length] in *; auto;
  try tauto; try lia; try congruence.

Lemma RInv_init r : RInv [] (ChannelFromReader r).
Proof.
  constructor; cbn; auto; split; auto; lia.
Qed.

Lemma RInv_step t s ev s' :
  RInv t s -> rstep s ev s' -> RInv (t ++ [ev]) s'.
Proof.
  intros I Hstep.
  destruct Hstep as [s ev s' Hr|s m c Hr|s e c Hr];
    destruct I; destruct s as [d [chb chc chx] [eb ec ex] pc];
    cbn [rs_dec rs_ch rs_errCh rs_pc buf cap closed] in *.
  - unfold read in Hr. cbn [rs_dec rs_ch rs_errCh rs_pc] in Hr.
    destruct pc as [|m|e| | |]; [| | | | |discriminate].
    + destruct (Decode d) as [d' res] eqn:ED. injection Hr as <- <-.
      rinv.
      * destruct res as [m|e]; [exact I|].
        destruct (isEOF e) eqn:Ee; [exact I|]. split; eauto.
      * destruct res as [m|e]; [exact ri_pc0|]. now destruct (isEOF e).
    + unfold send in Hr. cbn [buf cap closed] in Hr.
      destruct chx; [discriminate|].
      destruct (List.length chb <? chc)%nat eqn:El; [|discriminate].
      injection Hr as <- <-. apply Nat.ltb_lt in El.
      rinv.
      * now rewrite ri_msgq0, app_assoc.
    + unfold send in Hr. cbn [buf cap closed] in Hr.
      destruct ex; [discriminate|].
      destruct (List.length eb <? ec)%nat eqn:El; [|discriminate].
      injection Hr as <- <-. apply Nat.ltb_lt in El.
      destruct ri_errs0 as [_ Hnil]. specialize (Hnil eq_refl).
      rinv.
      * now rewrite ri_errq0, app_assoc.
      * rewrite Hnil. cbn. split; [lia|discriminate].
    + unfold close in Hr. cbn [buf cap closed] in Hr.
      destruct chx; [discriminate|]. injection Hr as <- <-.
      rinv; try (split; [tauto|discriminate]).
    + unfold close in Hr. cbn [buf cap closed] in Hr.
      destruct ex; [discriminate|]. injection Hr as <- <-.
      rinv; try (split; [tauto|discriminate]).
  - unfold recv in Hr. cbn [buf cap closed] in Hr.
    destruct chb as [|m0 chb]; [destruct chx; discriminate|].
    injection Hr as <- <-.
    rinv.
    + now rewrite ri_msgq0, <- app_assoc.
  - unfold recv in Hr. cbn [buf cap closed] in Hr.
    destruct eb as [|e0 eb]; [destruct ex; discriminate|].
    injection Hr as <- <-.
    rinv.
    + now rewrite ri_errq0, <- app_assoc.
Qed.

(** Every run from [ChannelFromReader r] keeps the invariant. *)
Lemma RInv_run r t s : rrun (ChannelFromReader r) t s -> RInv t s.
Proof.
  intro H. remember (ChannelFromReader r) as s0 eqn:E.
  induction H as [s0|s0 t s1 ev s2 H IH Hs]; subst.
  - apply RInv_init.
  - eapply RInv_step; eauto.
Qed.

Lemma RScript_init r ms e dfin :
  decodes (NewDecoder r) ms e dfin -> RScript ms e dfin [] (ChannelFromReader r).
Proof. intro H. exists ms. repeat split. exact H. Qed.

Lemma RScript_step ms e dfin t s ev s' :
  RInv t s -> RScript ms e dfin t s -> rstep s ev s' ->
  RScript ms e dfin (t ++ [ev]) s'.
Proof.
  intros I R Hstep. unfold RScript in *.
  destruct Hstep as [s ev s' Hr|s m c Hr|s e0 c Hr].
  - unfold read in Hr.
    destruct I as [_ _ _ _ _ _ [_ Hnil] Hlast _].
    destruct s as [d ch errCh pc]. cbn [rs_dec rs_ch rs_errCh rs_pc] in *.
    destruct pc as [|m|e'| | |]; [| | | | |discriminate].
    + destruct (Decode d) as [d' res] eqn:ED. injection Hr as <- <-.
      destruct R as (ms2 & Hms & Hdec & Hcalls).
      cbn [rs_pc rs_dec]. rsnoc.
      inversion Hdec as [d0 d1 e1 HD|d0 d1 m ms3 e1 d2 HD Hrest]; subst;
        rewrite HD in ED; injection ED as <- <-.
      * rewrite app_nil_r in *. specialize (Hnil eq_refl).
        destruct (isEOF e) eqn:Ee; cbn [rs_pc]; rewrite Hcalls;
          repeat split; auto.
      * exists ms3. rewrite Hcalls, map_app. repeat split; auto.
    + destruct (send ch m); try discriminate. injection Hr as <- <-.
      destruct R as (ms2 & Hms & Hdec & Hcalls).
      cbn [rs_pc rs_dec]. rsnoc. exists ms2.
      rewrite <- app_assoc. repeat split; auto.
    + destruct (send errCh e'); try discriminate. injection Hr as <- <-.
      destruct R as (-> & Hms & Hd & Hcalls). destruct Hlast as [Ee _].
      specialize (Hnil eq_refl).
      cbn [rs_pc rs_dec]. rsnoc. rewrite Ee, Hnil. repeat split; auto.
    + destruct (close ch); try discriminate. injection Hr as <- <-.
      cbn [rs_pc rs_dec]. rsnoc. exact R.
    + destruct (close errCh); try discriminate. injection Hr as <- <-.
      cbn [rs_pc rs_dec]. rsnoc. exact R.
  - cbn [rs_pc rs_dec]. rsnoc. exact R.
  - cbn [rs_pc rs_dec]. rsnoc. exact R.
Qed.

(** A run over a stream of known content follows the script. *)
Lemma RScript_run r ms e dfin t s :
  decodes (NewDecoder r) ms e dfin ->
  rrun (ChannelFromReader r) t s -> RScript ms e dfin t s.
Proof.
  intros Hd H. remember (ChannelFromReader r) as s0 eqn:E.
  induction H as [s0|s0 t s1 ev s2 H IH Hs]; subst.
  - now apply RScript_init.
  - eapply RScript_step; eauto. eapply RInv_run; eauto.
Qed.

(** *** Progress of [read] *)

(** A message that [read] holds gets sent, once the consumer has made room
    for it if the message channel is full. *)
Lemma read_sends_msg r t s m :
  rrun (ChannelFromReader r) t s ->
  rs_pc s = RSendMsg m ->
  exists t' s', rrun s t' s' /\ rs_pc s' = RLoop /\ rs_dec s' = rs_dec s.
Proof.
  intros Hrun Hpc. pose proof (RInv_run _ _ _ Hrun) as I. destruct I.
  destruct s as [d [chb chc chx] errCh pc].
  cbn [rs_dec rs_ch rs_errCh rs_pc buf cap closed] in *. subst pc.
  destruct ri_pc0 as [-> _]. destruct ri_cap0 as [-> _].
  destruct (List.length chb <? ChanSize)%nat eqn:El.
  - eexists [RvMsg m], _. split.
    { apply run_one, rstep_read. unfold read, send.
      cbn [rs_dec rs_ch rs_errCh rs_pc buf cap closed]. rewrite El. reflexivity. }
    repeat split.
  - apply Nat.ltb_ge in El.
    destruct chb as [|m0 chb]; [unfold ChanSize in El; cbn in El; lia|].
    cbn [List.length] in *.
    eexists [RvRecvMsg m0; RvMsg m], _. split.
    { eapply run_cons.
      + apply rstep_recvMsg. reflexivity.
      + apply run_one, rstep_read. unfold read, send.
        cbn [rs_dec rs_ch rs_errCh rs_pc buf cap closed].
        replace (List.length chb <? ChanSize)%nat with true
          by (symmetry; apply Nat.ltb_lt; lia).
        reflexivity. }
    repeat split.
Qed.

(** After the loop, [read] closes both channels and returns; the error it
    may hold is sent first. *)
Lemma read_finishes r t s :
  rrun (ChannelFromReader r) t s ->
  (finishing (rs_pc s) = true \/ exists e, rs_pc s = RSendErr e) ->
  exists t' s',
    rrun s t' s' /\ rs_pc s' = RExit /\ rs_dec s' = rs_dec s
    /\ closed (rs_ch s') = true /\ closed (rs_errCh s') = true.
Proof.
  intros Hrun Hpc. pose proof (RInv_run _ _ _ Hrun) as I. destruct I.
  destruct s as [d [chb chc chx] [eb ec ex] pc].
  cbn [rs_dec rs_ch rs_errCh rs_pc buf cap closed] in *.
  destruct ri_cap0 as [-> ->].
  assert (Hclose : forall d chb eb,
    exists t' s',
      rrun {| rs_dec := d;
              rs_ch := {| buf := chb; cap := ChanSize; closed := false |};
              rs_errCh := {| buf := eb; cap := ChanSize; closed := false |};
              rs_pc := RCloseMsg |} t' s'
      /\ rs_pc s' = RExit /\ rs_dec s' = d
      /\ closed (rs_ch s') = true /\ closed (rs_errCh s') = true).
  { intros d1 chb1 eb1. eexists [RvCloseMsg; RvCloseErr], _. split.
    { eapply run_cons; [apply rstep_read; reflexivity|].
      apply run_one, rstep_read. reflexivity. }
    repeat split. }
  destruct Hpc as [Hf|[e He]].
  - destruct pc; try discriminate.
    + destruct ri_pc0 as [-> ->]. apply Hclose.
    + destruct ri_pc0 as [-> ->].
      eexists [RvCloseErr], _. split.
      { apply run_one, rstep_read. reflexivity. }
      repeat split.
    + destruct ri_pc0 as [-> ->]. eexists [], _. split; [constructor|repeat split].
  - subst pc. destruct ri_pc0 as [-> ->].
    destruct (List.length eb <? ChanSize)%nat eqn:El.
    + destruct (Hclose d chb (eb ++ [e])) as (t2 & s2 & Hr2 & Hrest).
      exists (RvErr e :: t2), s2. split; [|exact Hrest].
      eapply run_cons; [|exact Hr2]. apply rstep_read. unfold read, send.
      cbn [rs_dec rs_ch rs_errCh rs_pc buf cap closed]. rewrite El. reflexivity.
    + apply Nat.ltb_ge in El.
      destruct eb as [|e0 eb]; [unfold ChanSize in El; cbn in El; lia|].
      cbn [List.length] in *.
      destruct (Hclose d chb (eb ++ [e])) as (t2 & s2 & Hr2 & Hrest).
      exists (RvRecvErr e0 :: RvErr e :: t2), s2. split; [|exact Hrest].
      eapply run_cons; [apply rstep_recvErr; reflexivity|].
      eapply run_cons; [|exact Hr2]. apply rstep_read. unfold read, send.
      cbn [rs_dec rs_ch rs_errCh rs_pc buf cap closed].
      replace (List.length eb <? ChanSize)%nat with true
        by (symmetry; apply Nat.ltb_lt; lia).
      reflexivity.
Qed.

(** Over a stream that stops, [read] reaches its end from the head of its
    loop. *)
Lemma read_loops r d ms e dfin :
  decodes d ms e dfin ->
  forall t s,
    rrun (ChannelFromReader r) t s -> rs_pc s = RLoop -> rs_dec s = d ->
    exists t' s',
      rrun s t' s' /\ rs_pc s' = RExit
      /\ closed (rs_ch s') = true /\ closed (rs_errCh s') = true.
Proof.
  induction 1 as [d d' e HD|d d' m ms e d'' HD Hrest IH]; intros t s Hrun Hpc Hd.
  - set (s1 := {| rs_dec := d'; rs_ch := rs_ch s; rs_errCh := rs_errCh s;
                  rs_pc := if isEOF e then RCloseMsg else RSendErr e |}).
    assert (Hs1 : rstep s (RvDecode (inr e)) s1).
    { apply rstep_read. unfold read. now rewrite Hpc, Hd, HD. }
    destruct (read_finishes r _ s1 (run_snoc _ _ _ _ _ _ Hrun Hs1))
      as (t2 & s2 & Hr2 & Hpc2 & _ & Hc1 & Hc2).
    { cbn [s1 rs_pc]. destruct (isEOF e); [left; reflexivity|right; eauto]. }
    exists (RvDecode (inr e) :: t2), s2. repeat split; auto.
    eapply run_cons; eauto.
  - set (s1 := {| rs_dec := d'; rs_ch := rs_ch s; rs_errCh := rs_errCh s;
                  rs_pc := RSendMsg m |}).
    assert (Hs1 : rstep s (RvDecode (inl m)) s1).
    { apply rstep_read. unfold read. now rewrite Hpc, Hd, HD. }
    pose proof (run_snoc _ _ _ _ _ _ Hrun Hs1) as Hrun1.
    destruct (read_sends_msg r _ s1 m Hrun1 eq_refl) as (t2 & s2 & Hr2 & Hpc2 & Hd2).
    destruct (IH _ s2 (run_app _ _ _ _ _ _ Hrun1 Hr2) Hpc2 Hd2)
      as (t3 & s3 & Hr3 & Hrest3).
    exists (RvDecode (inl m) :: t2 ++ t3), s3. split; [|exact Hrest3].
    eapply run_cons; [exact Hs1|]. eapply run_app; eauto.
Qed.

(** Over a stream that stops, [read] can always reach its end. *)
Lemma read_exits r ms e dfin t s :
  decodes (NewDecoder r) ms e dfin ->
  rrun (ChannelFromReader r) t s ->
  exists t' s',
    rrun s t' s' /\ rs_pc s' = RExit
    /\ closed (rs_ch s') = true /\ closed (rs_errCh s') = true.
Proof.
  intros Hdec Hrun. pose proof (RScript_run _ _ _ _ _ _ Hdec Hrun) as R.
  unfold RScript in R. destruct (rs_pc s) as [|m|e'| | |] eqn:Hpc.
  - destruct R as (ms2 & _ & Hd2 & _). eapply read_loops; eauto.
  - destruct R as (ms2 & _ & Hd2 & _).
    destruct (read_sends_msg r _ s m Hrun Hpc) as (t2 & s2 & Hr2 & Hpc2 & Hdd).
    rewrite <- Hdd in Hd2.
    destruct (read_loops r _ _ _ _ Hd2 _ s2 (run_app _ _ _ _ _ _ Hrun Hr2) Hpc2 eq_refl)
      as (t3 & s3 & Hr3 & Hrest3).
    exists (t2 ++ t3), s3. split; [|exact Hrest3]. eapply run_app; eauto.
  - destruct (read_finishes r _ s Hrun) as (t2 & s2 & Hr2 & Hp & _ & Hc).
    { right. eauto. }
    exists t2, s2. repeat split; tauto.
  - destruct (read_finishes r _ s Hrun) as (t2 & s2 & Hr2 & Hp & _ & Hc).
    { left. now rewrite Hpc. }
    exists t2, s2. repeat split; tauto.
  - destruct (read_finishes r _ s Hrun) as (t2 & s2 & Hr2 & Hp & _ & Hc).
    { left. now rewrite Hpc. }
    exists t2, s2. repeat split; tauto.
  - destruct (read_finishes r _ s Hrun) as (t2 & s2 & Hr2 & Hp & _ & Hc).
    { left. now rewrite Hpc. }
    exists t2, s2. repeat split; tauto.
Qed.

(** Once [read] has left its loop it calls Decode no more and sends
    nothing more. *)
Lemma read_after s t s' :
  rrun s t s' -> finishing (rs_pc s) = true ->
  finishing (rs_pc s') = true /\ rs_dec s' = rs_dec s
  /\ decodeCalls t = [] /\ delivered t = [] /\ errsEmitted t = [].
Proof.
  intros H Hf. induction H as [s|s t s1 ev s2 H IH Hs].
  - repeat split; auto.
  - destruct (IH Hf) as (Hf1 & Hd1 & Hc & Hm & He). clear IH.
    rsnoc. rewrite Hc, Hm, He.
    destruct Hs as [s1 ev s2 Hr|s1 m c Hr|s1 e c Hr].
    + unfold read in Hr. destruct (rs_pc s1); try discriminate.
      * destruct (close (rs_ch s1)); [|discriminate]. injection Hr as <- <-.
        repeat split; auto.
      * destruct (close (rs_errCh s1)); [|discriminate]. injection Hr as <- <-.
        repeat split; auto.
    + repeat split; auto.
    + repeat split; auto.
Qed.

Lemma read_never_receives s m s' : read s <> Some (RvRecvMsg m, s').
Proof.
  unfold read. destruct (rs_pc s).
  - destruct (Decode (rs_dec s)). discriminate.
  - destruct (send (rs_ch s) m0); discriminate.
  - destruct (send (rs_errCh s) e); discriminate.
  - destruct (close (rs_ch s)); discriminate.
  - destruct (close (rs_errCh s)); discriminate.
  - discriminate.
Qed.

(** While the consumer takes no message, a goroutine that waits to send on
    a full message channel goes on waiting. *)
Lemma blocked_stays_blocked s t s' m :
  rrun s t s' ->
  rs_pc s = RSendMsg m ->
  List.length (buf (rs_ch s)) = cap (rs_ch s) ->
  msgsReceived t = [] ->
  rs_pc s' = RSendMsg m
  /\ List.length (buf (rs_ch s')) = cap (rs_ch s')
  /\ delivered t = [].
Proof.
  intros H Hpc Hfull. induction H as [s|s t s1 ev s2 H IH Hs]; intro Hno.
  - repeat split; auto.
  - rewrite msgsReceived_snoc in Hno. apply app_eq_nil in Hno as [Hno1 Hno2].
    destruct (IH Hpc Hfull Hno1) as (Hp1 & Hf1 & Hd1). clear IH.
    rewrite delivered_snoc, Hd1.
    destruct Hs as [s1 ev s2 Hr|s1 m0 c Hr|s1 e c Hr].
    + unfold read in Hr. rewrite Hp1 in Hr. unfold send in Hr.
      destruct (closed (rs_ch s1)); [discriminate|].
      rewrite Hf1, Nat.ltb_irrefl in Hr. discriminate.
    + discriminate.
    + repeat split; auto.
Qed.

Lemma rmove_step p s ev s' : rmove p s = Some (ev, s') -> rstep s ev s'.
Proof.
  destruct p; cbn [rmove]; [discriminate| |].
  - now constructor.
  - destruct (recv (rs_ch s)) eqn:E.
    + intro H. injection H as <- <-. now constructor.
    + destruct (recv (rs_errCh s)) eqn:E2; try discriminate.
      intro H. injection H as <- <-. now constructor.
    + destruct (recv (rs_errCh s)) eqn:E2; try discriminate.
      intro H. injection H as <- <-. now constructor.
Qed.

Lemma rsched_sound sched : forall s t s',
  rsched sched s = (t, s') -> rrun s t s'.
Proof.
  induction sched as [|p sched IH]; intros s t s' H; cbn [rsched] in H.
  - injection H as <- <-. constructor.
  - destruct (rmove p s) as [[ev s1]|] eqn:E.
    + destruct (rsched sched s1) as [t1 s2] eqn:E1.
      injection H as <- <-.
      eapply run_cons; [eapply rmove_step; eauto|]. eapply IH; eauto.
    + eapply IH; eauto.
Qed.

Lemma decodeErrs_snoc t ev :
  decodeErrs (t ++ [ev])
  = decodeErrs t ++ match ev with
                    | RvDecode (inr e) => if isEOF e then [] else [e]
                    | _ => []
                    end.
Proof. unfold decodeErrs. rewrite flat_map_app. cbn. now rewrite app_nil_r. Qed.

(** No error of Decode is lost: those that are not io.EOF are the errors
    sent on the error channel, then the one [read] still holds. *)
Lemma errors_accounted r t s :
  rrun (ChannelFromReader r) t s ->
  decodeErrs t = errsEmitted t ++ errInHand (rs_pc s).
Proof.
  intro H. remember (ChannelFromReader r) as s0 eqn:E.
  induction H as [s0|s0 t s1 ev s2 H IH Hs]; subst; [reflexivity|].
  specialize (IH eq_refl). rewrite decodeErrs_snoc, errsEmitted_snoc, IH.
  destruct Hs as [s ev s' Hr|s m c Hr|s e c Hr]; cbn [rs_pc];
    [|now rewrite !app_nil_r..].
  unfold read in Hr. destruct (rs_pc s) as [|m|e| | |]; [| | | | |discriminate].
  - destruct (Decode (rs_dec s)) as [d' res]. injection Hr as <- <-. cbn [rs_pc].
    destruct res as [m|e]; cbn [errInHand]; [now rewrite !app_nil_r|].
    destruct (isEOF e); cbn [errInHand]; now rewrite !app_nil_r.
  - destruct (send (rs_ch s) m); try discriminate. injection Hr as <- <-.
    cbn [rs_pc errInHand]. now rewrite !app_nil_r.
  - destruct (send (rs_errCh s) e); try discriminate. injection Hr as <- <-.
    cbn [rs_pc errInHand]. now rewrite !app_nil_r.
  - destruct (close (rs_ch s)); try discriminate. injection Hr as <- <-.
    cbn [rs_pc errInHand]. now rewrite !app_nil_r.
  - destruct (close (rs_errCh s)); try discriminate. injection Hr as <- <-.
    cbn [rs_pc errInHand]. now rewrite !app_nil_r.
Qed.

End ReadFacts.

(** ** Streams written by [write] and read by [read] *)

Module PipeFacts.
Import Gob GobFacts StreamFacts WriteFacts ReadFacts.

(** The stream of one message holds exactly that message. *)
Lemma decodes_alone msg :
  fits msg ->
  decodes (NewDecoder (NewReader (encodeAlone msg))) [arrives msg] EOF
    {| dec_r := NewReader []; dec_wireType := knownTypes |}.
Proof.
  intro Hf. eapply decodes_msg.
  - unfold NewDecoder, NewReader.
    rewrite <- (app_nil_r (encodeAlone msg)). now apply Decode_alone.
  - apply decodes_stop. apply Decode_EOF.
Qed.

(** The stream [write] produces for two messages or more: the decoder made
    by [read] yields the first message and then stops at the type
    description that precedes the second. *)
Lemma decodes_each m1 m2 ms :
  fits m1 ->
  decodes (NewDecoder (NewReader (List.concat (map encodeAlone (m1 :: m2 :: ms)))))
    [arrives m1] ErrDuplicateType
    {| dec_r := NewReader (frame (typeDef tArgs wireArgs) ++ frame (valueOf m2)
                             ++ List.concat (map encodeAlone ms));
       dec_wireType := knownTypes |}.
Proof.
  intro Hf. cbn [map List.concat]. eapply decodes_msg.
  - unfold NewDecoder, NewReader. now apply Decode_alone.
  - apply decodes_stop. apply Decode_again.
Qed.

(** One encoder kept for all messages describes the types once. *)
Lemma Encode_known w sent m :
  w_fail w (w_calls w) = None ->
  alreadySent {| enc_w := w; enc_sent := sent |} MessageT = true ->
  Encode {| enc_w := w; enc_sent := sent |} m
  = ({| enc_w := {| w_out := w_out w ++ frame (valueOf m);
                    w_calls := S (w_calls w); w_fail := w_fail w |};
        enc_sent := sent |}, None).
Proof.
  intros Hw Hs. unfold Encode, sendTypeDescriptor. rewrite Hs.
  unfold writeMessage, Write. cbn [enc_w enc_sent]. now rewrite Hw.
Qed.

Lemma EncodeAll_known msgs : forall w sent,
  (forall i, w_fail w i = None) ->
  alreadySent {| enc_w := w; enc_sent := sent |} MessageT = true ->
  w_out (enc_w (EncodeAll {| enc_w := w; enc_sent := sent |} msgs))
  = w_out w ++ List.concat (map (fun m => frame (valueOf m)) msgs).
Proof.
  induction msgs as [|m msgs IH]; intros w sent Hw Hs; cbn [EncodeAll map List.concat].
  - now rewrite app_nil_r.
  - rewrite Encode_known by auto. cbn [fst].
    rewrite IH by auto. cbn [w_out]. now rewrite app_assoc.
Qed.

Lemma EncodeAll_Buffer m msgs :
  w_out (enc_w (EncodeAll (NewEncoder Buffer) (m :: msgs)))
  = encodeAlone m ++ List.concat (map (fun x => frame (valueOf x)) msgs).
Proof.
  cbn [EncodeAll]. rewrite Encode_three by reflexivity. cbn [fst].
  rewrite EncodeAll_known; reflexivity.
Qed.

Lemma decodes_values msgs :
  Forall fits msgs ->
  decodes {| dec_r := NewReader (List.concat (map (fun m => frame (valueOf m)) msgs));
             dec_wireType := knownTypes |}
    (map arrives msgs) EOF {| dec_r := NewReader []; dec_wireType := knownTypes |}.
Proof.
  induction 1 as [|m msgs Hm Hall IH]; cbn [map List.concat].
  - apply decodes_stop. apply Decode_EOF.
  - eapply decodes_msg; [|exact IH]. now apply Decode_value.
Qed.

(** A message that has arguments, or whose [Args] is nil, arrives as it
    is. *)
Lemma arrives_same msg : Args msg <> Some [] -> arrives msg = msg.
Proof.
  destruct msg as [a [[|x l]|]]; cbn [Args]; intro H; try reflexivity. congruence.
Qed.

Lemma arrives_elems msg :
  Action (arrives msg) = Action msg
  /\ elems (Args (arrives msg)) = elems (Args msg).
Proof. destruct msg as [a [[|x l]|]]; split; reflexivity. Qed.

(** The stream of one encoder kept for all messages, as a caller of
    encoding/gob would write it, holds all of them in order. *)
Lemma decodes_one_encoder msgs :
  Forall fits msgs -> msgs <> [] ->
  decodes (NewDecoder (NewReader (w_out (enc_w (EncodeAll (NewEncoder Buffer) msgs)))))
    (map arrives msgs) EOF {| dec_r := NewReader []; dec_wireType := knownTypes |}.
Proof.
  intros Hall Hne. destruct msgs as [|m msgs]; [congruence|].
  inversion Hall as [|? ? Hm Hrest]; subst.
  rewrite EncodeAll_Buffer. cbn [map]. eapply decodes_msg.
  - unfold NewDecoder, NewReader. now apply Decode_alone.
  - now apply decodes_values.
Qed.

(** On a sink that accepts everything, what [write] has written once it
    has returned. *)
Lemma Buffer_at_exit t s :
  wrun (ChannelFromWriter Buffer) t s ->
  ws_pc s = WExit ->
  w_out (ws_w s) = List.concat (map encodeAlone (sentMsgs t)) /\ errsSent t = [].
Proof.
  intros Hrun Hpc. pose proof (WInv_run _ _ _ Hrun) as I.
  pose proof (wi_sink _ _ _ I) as Hsink.
  rewrite encodeEach_healthy in Hsink by reflexivity.
  injection Hsink as Hw Ha.
  destruct (wi_drained _ _ _ I Hpc) as [_ Hb]. split.
  - rewrite (wi_sent _ _ _ I), Hb, app_nil_r, <- Hw. reflexivity.
  - pose proof (wi_errs _ _ _ I) as He. rewrite <- Ha in He.
    assert (Hok : forall l : list Message,
              failures (map (fun m => (m, None)) l) = []).
    { induction l as [|x l IHl]; [reflexivity|exact IHl]. }
    rewrite Hok in He. symmetry in He. now apply app_eq_nil in He.
Qed.

(** What [read] has delivered and reported once it has returned. *)
Lemma read_at_exit r ms e dfin t s :
  decodes (NewDecoder r) ms e dfin ->
  rrun (ChannelFromReader r) t s ->
  rs_pc s = RExit ->
  delivered t = ms /\ errsEmitted t = (if isEOF e then [] else [e])
  /\ closed (rs_ch s) = true /\ closed (rs_errCh s) = true.
Proof.
  intros Hdec Hrun Hpc.
  pose proof (RScript_run _ _ _ _ _ _ Hdec Hrun) as R.
  pose proof (ri_pc _ _ (RInv_run _ _ _ Hrun)) as Hp.
  unfold RScript in R. rewrite Hpc in R, Hp. tauto.
Qed.

(** The same, told of the channels themselves: what the consumer has taken
    off each channel and what still waits in it, and of the calls of Decode
    made. *)
Lemma queues_at_exit r ms e dfin t s :
  decodes (NewDecoder r) ms e dfin ->
  rrun (ChannelFromReader r) t s ->
  rs_pc s = RExit ->
  msgsReceived t ++ buf (rs_ch s) = ms
  /\ errsTaken t ++ buf (rs_errCh s) = (if isEOF e then [] else [e])
  /\ decodeCalls t = map inl ms ++ [inr e].
Proof.
  intros Hdec Hrun Hpc.
  pose proof (RScript_run _ _ _ _ _ _ Hdec Hrun) as R.
  pose proof (RInv_run _ _ _ Hrun) as I.
  unfold RScript in R. rewrite Hpc in R. destruct R as (H1 & _ & H3 & H4).
  rewrite <- (ri_msgq _ _ I), <- (ri_errq _ _ I). auto.
Qed.

(** [write] wired to [read] over a buffer, two messages or more: the first
    message arrives, then the error for the repeated type description, and
    nothing else. *)
Lemma second_message_never_arrives m1 m2 ms wt ws rt rs :
  fits m1 ->
  wrun (ChannelFromWriter Buffer) wt ws ->
  sentMsgs wt = m1 :: m2 :: ms ->
  ws_pc ws = WExit ->
  rrun (ChannelFromReader (NewReader (w_out (ws_w ws)))) rt rs ->
  rs_pc rs = RExit ->
  delivered rt = [arrives m1] /\ errsEmitted rt = [ErrDuplicateType].
Proof.
  intros Hf Hw Hs Hpc Hr Hrpc.
  destruct (Buffer_at_exit _ _ Hw Hpc) as [Hout _]. rewrite Hs in Hout.
  rewrite Hout in Hr.
  destruct (read_at_exit _ _ _ _ _ _ (decodes_each m1 m2 ms Hf) Hr Hrpc)
    as (H1 & H2 & _).
  now split.
Qed.

(** With one encoder for all messages, which is how the decoder of [read]
    expects a stream to be written, every message arrives, in order. *)
Lemma one_encoder_preserves_order msgs rt rs :
  Forall fits msgs -> msgs <> [] ->
  rrun (ChannelFromReader
          (NewReader (w_out (enc_w (EncodeAll (NewEncoder Buffer) msgs))))) rt rs ->
  rs_pc rs = RExit ->
  delivered rt = map arrives msgs /\ errsEmitted rt = [].
Proof.
  intros Hall Hne Hr Hpc.
  destruct (read_at_exit _ _ _ _ _ _ (decodes_one_encoder msgs Hall Hne) Hr Hpc)
    as (H1 & H2 & _).
  now split.
Qed.

End PipeFacts.

(** * The specification, statement by statement *)

Import Gob GobFacts StreamFacts WriteFacts ReadFacts PipeFacts.





(** C7.  Both constructors hand out a message channel and an error channel
    of capacity 32, and no run changes the capacity of a channel. *)
Theorem channels_are_buffered_by_ChanSize :
  ChanSize = 32%nat
  /\ (forall w,
        cap (ws_ch (ChannelFromWriter w)) = 32%nat
        /\ cap (ws_errCh (ChannelFromWriter w)) = 32%nat)
  /\ (forall r,
        cap (rs_ch (ChannelFromReader r)) = 32%nat
        /\ cap (rs_errCh (ChannelFromReader r)) = 32%nat)
  /\ (forall w t s,
        wrun (ChannelFromWriter w) t s ->
        cap (ws_ch s) = 32%nat /\ cap (ws_errCh s) = 32%nat)
  /\ (forall r t s,
        rrun (ChannelFromReader r) t s ->
        cap (rs_ch s) = 32%nat /\ cap (rs_errCh s) = 32%nat).
Proof.
  split; [reflexivity|]. split; [intro; split; reflexivity|].
  split; [intro; split; reflexivity|]. split.
  - intros w t s H. exact (wi_cap _ _ _ (WInv_run _ _ _ H)).
  - intros r t s H. exact (ri_cap _ _ (RInv_run _ _ _ H)).
Qed.

Lemma channels_are_buffered_by_ChanSize_witness :
  let r := wsched (inTurn 6) (Some [regenerate; restart; destroy])
             (ChannelFromWriter Buffer) in
  cap (ws_ch (snd r)) = 32%nat /\ cap (ws_errCh (snd r)) = 32%nat.
Proof.
  cbv zeta.
  destruct channels_are_buffered_by_ChanSize as (_ & _ & _ & H & _).
  apply (H Buffer (fst (wsched (inTurn 6) (Some [regenerate; restart; destroy])
                          (ChannelFromWriter Buffer)))).
  apply (wsched_sound (inTurn 6) (Some [regenerate; restart; destroy])).
  apply surjective_pairing.
Defined.



(** C8.  A send on an open channel that holds as many items as its capacity
    blocks, and a send after an item was taken out succeeds.  For the message
    channel of ChannelFromWriter, once it holds [ChanSize] messages: as long
    as [write] takes none off it no send by the producer can happen, and as
    soon as [write] has taken one a send can.  For the message channel of
    ChannelFromReader, once it holds [ChanSize] messages and [read] has the
    next one in hand: as long as the consumer takes none [read] waits and
    delivers nothing, and as soon as the consumer has taken one [read] sends
    the message it holds. *)
Theorem full_queue_blocks_until_removal :
  (forall (A : Type) (c : chan A) (v : A),
      closed c = false -> List.length (buf c) = cap c -> send c v = SendBlocks)
  /\ (forall (A : Type) (c c' : chan A) (x v : A),
        closed c = false -> List.length (buf c) = cap c ->
        recv c = Received x c' -> exists c'', send c' v = Sent c'')
  /\ (forall w t s,
        wrun (ChannelFromWriter w) t s ->
        List.length (buf (ws_ch s)) = ChanSize ->
        (forall t' s',
            wrun s t' s' -> existsb isRemoval t' = false ->
            forall m s'', ~ wstep s' (EvSend m) s'')
        /\ (forall m0 r s',
              closed (ws_ch s) = false ->
              wstep s (EvEncode m0 r) s' ->
              forall m, exists s'', wstep s' (EvSend m) s''))
  /\ (forall r t s m,
        rrun (ChannelFromReader r) t s ->
        rs_pc s = RSendMsg m ->
        List.length (buf (rs_ch s)) = ChanSize ->
        (forall t' s',
            rrun s t' s' -> msgsReceived t' = [] ->
            read s' = None /\ delivered t' = [])
        /\ (forall m0 s',
              rstep s (RvRecvMsg m0) s' ->
              exists s'', read s' = Some (RvMsg m, s''))).
Proof.
  split; [|split; [|split]].
  - intros A c v Hc Hfull. unfold send. now rewrite Hc, Hfull, Nat.ltb_irrefl.
  - intros A c c' x v Hc Hfull Hr. unfold recv in Hr.
    destruct c as [b n cl]. cbn [buf cap closed] in *. subst cl.
    destruct b as [|y b]; [discriminate|]. injection Hr as <- <-.
    unfold send. cbn [buf cap closed].
    replace (List.length b <? n)%nat with true
      by (symmetry; apply Nat.ltb_lt; cbn in Hfull; lia).
    eauto.
  - intros w t s Hrun Hfull.
    pose proof (wi_cap _ _ _ (WInv_run _ _ _ Hrun)) as [Hcap _].
    rewrite <- Hcap in Hfull. split.
    + intros t' s' Hr' Hno m s'' Hsend.
      pose proof (full_stays_full _ _ _ Hr' Hfull Hno) as Hf'.
      destruct (wstep_send_inv _ _ _ Hsend) as [c Hc]. unfold send in Hc.
      destruct (closed (ws_ch s')); [discriminate|].
      rewrite Hf', Nat.ltb_irrefl in Hc. discriminate.
    + intros m0 r s' Hopen Hstep m.
      destruct (wstep_encode_inv _ _ _ _ Hstep) as (rest & Hb & Hch).
      assert (Hs : send (ws_ch s') m
                   = Sent {| buf := rest ++ [m]; cap := cap (ws_ch s); closed := false |}).
      { rewrite Hch. unfold send. cbn [buf cap closed]. rewrite Hopen.
        replace (List.length rest <? cap (ws_ch s))%nat with true
          by (symmetry; apply Nat.ltb_lt; rewrite Hb in Hfull; cbn in Hfull; lia).
        reflexivity. }
      eexists. apply wstep_send. exact Hs.
  - intros r t s m Hrun Hpc Hfull.
    pose proof (RInv_run _ _ _ Hrun) as I.
    pose proof (ri_cap _ _ I) as [Hcap _]. rewrite <- Hcap in Hfull. split.
    + intros t' s' Hr' Hno.
      destruct (blocked_stays_blocked _ _ _ _ Hr' Hpc Hfull Hno) as (Hp' & Hf' & Hd').
      split; [|exact Hd']. unfold read. rewrite Hp'. unfold send.
      destruct (closed (rs_ch s')); [reflexivity|].
      now rewrite Hf', Nat.ltb_irrefl.
    + intros m0 s' Hstep.
      pose proof (ri_pc _ _ I) as Hopen. rewrite Hpc in Hopen. destruct Hopen as [Hopen _].
      inversion Hstep as [? ? ? Hr|? ? c Hr|]; subst.
      { exfalso. eapply read_never_receives; eauto. }
      unfold recv in Hr. destruct (buf (rs_ch s)) as [|y b] eqn:Eb.
      { destruct (closed (rs_ch s)); discriminate. }
      injection Hr as <- <-. unfold read. cbn [rs_pc rs_ch]. rewrite Hpc.
      unfold send. cbn [buf cap closed]. rewrite Hopen.
      replace (List.length b <? cap (rs_ch s))%nat with true
        by (symmetry; apply Nat.ltb_lt; cbn in Hfull; lia).
      eauto.
Qed.

(** The producer gets ahead of [write] by 32 messages and no further. *)
Lemma full_queue_blocks_until_removal_witness :
  let r := wsched (producerFirst 40) (Some (repeat restart 40))
             (ChannelFromWriter Buffer) in
  List.length (sentMsgs (fst r)) = 32%nat
  /\ forall m s'', ~ wstep (snd r) (EvSend m) s''.
Proof.
  cbv zeta.
  set (r := wsched (producerFirst 40) (Some (repeat restart 40))
              (ChannelFromWriter Buffer)).
  split; [vm_compute; reflexivity|].
  destruct full_queue_blocks_until_removal as (_ & _ & H & _).
  destruct (H Buffer (fst r) (snd r) (wsched_sound _ _ _ _ _ (surjective_pairing r)))
    as [Hblocked _].
  { vm_compute. reflexivity. }
  apply (Hblocked [] (snd r)); [constructor|reflexivity].
Defined.

(** C4.  Over a source that holds the records of the messages [ms] and then
    ends cleanly: in every run of the decoding side no error is ever sent on
    the error channel, which stays empty; the messages sent on the message
    channel so far, which are those the consumer has taken off it followed
    by those that wait in it, are the first ones of [ms] in order; a channel
    is closed only after all of [ms] has been put on the message channel,
    the error channel only after the message channel; and the run can always
    be carried on to the end of [read], where the consumer has received, or
    finds waiting in the message channel, exactly [ms], nothing was put on
    the error channel, Decode was called once per message and once for the
    end, and both channels are closed. *)
Theorem clean_end_of_stream_is_no_error r ms dfin t s :
  decodes (NewDecoder r) ms EOF dfin ->
  rrun (ChannelFromReader r) t s ->
  errsEmitted t = []
  /\ (errsTaken t = [] /\ buf (rs_errCh s) = [])
  /\ delivered t = msgsReceived t ++ buf (rs_ch s)
  /\ (exists ms2, ms = delivered t ++ ms2)
  /\ (closed (rs_ch s) = true -> delivered t = ms)
  /\ (closed (rs_errCh s) = true -> closed (rs_ch s) = true)
  /\ exists t' s',
       rrun s t' s' /\ rs_pc s' = RExit
       /\ closed (rs_ch s') = true /\ closed (rs_errCh s') = true
       /\ delivered (t ++ t') = ms /\ errsEmitted (t ++ t') = []
       /\ msgsReceived (t ++ t') ++ buf (rs_ch s') = ms
       /\ errsTaken (t ++ t') = [] /\ buf (rs_errCh s') = []
       /\ decodeCalls (t ++ t') = map inl ms ++ [inr EOF].
Proof.
  intros Hdec Hrun.
  pose proof (RInv_run _ _ _ Hrun) as I.
  pose proof (RScript_run _ _ _ _ _ _ Hdec Hrun) as R.
  assert (Hfin : forall t0 s0,
            rrun (ChannelFromReader r) t0 s0 -> finishing (rs_pc s0) = true ->
            delivered t0 = ms /\ errsEmitted t0 = []).
  { intros t0 s0 H0 Hf. pose proof (RScript_run _ _ _ _ _ _ Hdec H0) as R0.
    unfold RScript in R0. destruct (rs_pc s0); try discriminate; tauto. }
  assert (Hnone : errsEmitted t = []).
  { destruct (finishing (rs_pc s)) eqn:Ef.
    - now apply (Hfin t s).
    - now apply (ri_errs _ _ I). }
  split; [exact Hnone|]. split; [|split; [|split; [|split; [|split]]]].
  - pose proof (ri_errq _ _ I) as Hq. rewrite Hnone in Hq.
    symmetry in Hq. now apply app_eq_nil in Hq.
  - exact (ri_msgq _ _ I).
  - unfold RScript in R. destruct (rs_pc s).
    + destruct R as (ms2 & -> & _). eauto.
    + destruct R as (ms2 & -> & _). eauto.
    + destruct R as (_ & <- & _). exists []. now rewrite app_nil_r.
    + destruct R as (<- & _). exists []. now rewrite app_nil_r.
    + destruct R as (<- & _). exists []. now rewrite app_nil_r.
    + destruct R as (<- & _). exists []. now rewrite app_nil_r.
  - intro Hc. apply (Hfin t s Hrun).
    pose proof (ri_pc _ _ I) as Hp.
    destruct (rs_pc s); try reflexivity; destruct Hp; congruence.
  - intro Hc. pose proof (ri_pc _ _ I) as Hp.
    destruct (rs_pc s); destruct Hp; congruence.
  - destruct (read_exits _ _ _ _ _ _ Hdec Hrun) as (t' & s' & Hr' & Hpc' & Hc1 & Hc2).
    exists t', s'.
    pose proof (run_app _ _ _ _ _ _ Hrun Hr') as Hall.
    destruct (Hfin _ s' Hall) as [Hd He]; [now rewrite Hpc'|].
    destruct (queues_at_exit _ _ _ _ _ _ Hdec Hall Hpc') as (Hq1 & Hq2 & Hq3).
    cbn [isEOF] in Hq2. apply app_eq_nil in Hq2 as [Hq2 Hq2'].
    repeat split; auto.
Qed.

(** Two records written with one encoder, then the end of the stream. *)
Lemma clean_end_of_stream_is_no_error_witness :
  let data := w_out (enc_w (EncodeAll (NewEncoder Buffer) [regenerate; restart])) in
  let x := rsched (inTurn 8) (ChannelFromReader (NewReader data)) in
  delivered (fst x) = [regenerate; restart] /\ errsEmitted (fst x) = []
  /\ msgsReceived (fst x) ++ buf (rs_ch (snd x)) = [regenerate; restart]
  /\ msgsReceived (fst x) = [regenerate; restart]
  /\ closed (rs_ch (snd x)) = true /\ closed (rs_errCh (snd x)) = true.
Proof.
  cbv zeta.
  set (data := w_out (enc_w (EncodeAll (NewEncoder Buffer) [regenerate; restart]))).
  set (x := rsched (inTurn 8) (ChannelFromReader (NewReader data))).
  assert (Hd : decodes (NewDecoder (NewReader data)) [regenerate; restart] EOF
                 {| dec_r := NewReader []; dec_wireType := knownTypes |}).
  { apply (decodes_one_encoder [regenerate; restart]); [|discriminate].
    repeat constructor; vm_compute; (reflexivity || discriminate). }
  destruct (clean_end_of_stream_is_no_error (NewReader data) [regenerate; restart] _
              (fst x) (snd x) Hd (rsched_sound _ _ _ _ (surjective_pairing x)))
    as (He & _ & Hq & _ & Hc & _).
  assert (Hc1 : closed (rs_ch (snd x)) = true) by (vm_compute; reflexivity).
  split; [exact (Hc Hc1)|]. split; [exact He|].
  split; [rewrite <- Hq; exact (Hc Hc1)|].
  split; [vm_compute; reflexivity|].
  split; [exact Hc1|vm_compute; reflexivity].
Defined.

(** C5.  Over a source that holds the records of the messages [ms] and then
    bytes at which Decode fails with [e]: in every run of the decoding side
    the messages sent on the message channel so far, which are those the
    consumer has taken off it followed by those that wait in it, are the
    first ones of [ms] in order; the errors sent on the error channel, which
    are those taken off it followed by those that wait in it, are none, or
    [e] alone, and then [e] is not io.EOF and all of [ms] had been sent; a
    channel is closed only after that, and then [e] has been sent unless it
    is io.EOF; Decode is called no more than once per message and once for
    the failure; and the run can always be carried on to the end of [read],
    where the consumer has received, or finds waiting, exactly [ms] and
    exactly the error [e], or no error when [e] is io.EOF, where Decode was
    called once per message and once for the failure, whatever bytes follow
    it, and where both channels are closed. *)
Theorem corrupted_bytes_end_the_stream r ms e dfin t s :
  decodes (NewDecoder r) ms e dfin ->
  rrun (ChannelFromReader r) t s ->
  (exists ms2, ms = delivered t ++ ms2)
  /\ delivered t = msgsReceived t ++ buf (rs_ch s)
  /\ errsEmitted t = errsTaken t ++ buf (rs_errCh s)
  /\ (errsEmitted t = []
      \/ isEOF e = false /\ errsEmitted t = [e] /\ delivered t = ms)
  /\ (closed (rs_ch s) = true ->
      delivered t = ms /\ errsEmitted t = if isEOF e then [] else [e])
  /\ (closed (rs_errCh s) = true -> closed (rs_ch s) = true)
  /\ (List.length (decodeCalls t) <= S (List.length ms))%nat
  /\ exists t' s',
       rrun s t' s' /\ rs_pc s' = RExit
       /\ closed (rs_ch s') = true /\ closed (rs_errCh s') = true
       /\ msgsReceived (t ++ t') ++ buf (rs_ch s') = ms
       /\ errsTaken (t ++ t') ++ buf (rs_errCh s') = (if isEOF e then [] else [e])
       /\ decodeCalls (t ++ t') = map inl ms ++ [inr e].
Proof.
  intros Hdec Hrun.
  pose proof (RInv_run _ _ _ Hrun) as I.
  pose proof (RScript_run _ _ _ _ _ _ Hdec Hrun) as R.
  assert (Hfin : forall t0 s0,
            rrun (ChannelFromReader r) t0 s0 -> finishing (rs_pc s0) = true ->
            delivered t0 = ms /\ errsEmitted t0 = if isEOF e then [] else [e]).
  { intros t0 s0 H0 Hf. pose proof (RScript_run _ _ _ _ _ _ Hdec H0) as R0.
    unfold RScript in R0.
    destruct (rs_pc s0); try discriminate; tauto. }
  split; [|split; [|split; [|split; [|split; [|split; [|split]]]]]].
  - unfold RScript in R. destruct (rs_pc s).
    + destruct R as (ms2 & -> & _). eauto.
    + destruct R as (ms2 & -> & _). eauto.
    + destruct R as (_ & <- & _). exists []. now rewrite app_nil_r.
    + destruct R as (<- & _). exists []. now rewrite app_nil_r.
    + destruct R as (<- & _). exists []. now rewrite app_nil_r.
    + destruct R as (<- & _). exists []. now rewrite app_nil_r.
  - exact (ri_msgq _ _ I).
  - exact (ri_errq _ _ I).
  - destruct (finishing (rs_pc s)) eqn:Ef.
    + destruct (Hfin t s Hrun Ef) as (H1 & H2).
      destruct (isEOF e); [now left|right; auto].
    + left. now apply (ri_errs _ _ I).
  - intro Hc. apply (Hfin t s Hrun).
    pose proof (ri_pc _ _ I) as Hp.
    destruct (rs_pc s); try reflexivity; destruct Hp; congruence.
  - intro Hc. pose proof (ri_pc _ _ I) as Hp.
    destruct (rs_pc s); destruct Hp; congruence.
  - unfold RScript in R. destruct (rs_pc s).
    + destruct R as (ms2 & -> & _ & ->). rewrite length_map, length_app. lia.
    + destruct R as (ms2 & -> & _ & ->).
      rewrite length_map, !length_app. cbn [List.length]. lia.
    + destruct R as (_ & _ & _ & ->). rewrite length_app, length_map. cbn. lia.
    + destruct R as (_ & _ & -> & _). rewrite length_app, length_map. cbn. lia.
    + destruct R as (_ & _ & -> & _). rewrite length_app, length_map. cbn. lia.
    + destruct R as (_ & _ & -> & _). rewrite length_app, length_map. cbn. lia.
  - destruct (read_exits _ _ _ _ _ _ Hdec Hrun) as (t' & s' & Hr' & Hpc' & Hc1 & Hc2).
    exists t', s'.
    destruct (queues_at_exit _ _ _ _ _ _ Hdec (run_app _ _ _ _ _ _ Hrun Hr') Hpc')
      as (Hq1 & Hq2 & Hq3).
    repeat split; auto.
Qed.

(** One record, then a byte that announces a count of nine bytes, then a
    second record that would decode if the decoder got to it. *)
Lemma corrupted_bytes_end_the_stream_witness :
  let data := encodeAlone regenerate ++ [xf7] ++ frame (valueOf restart) in
  let x := rsched (inTurn 8) (ChannelFromReader (NewReader data)) in
  msgsReceived (fst x) ++ buf (rs_ch (snd x)) = [regenerate]
  /\ errsTaken (fst x) ++ buf (rs_errCh (snd x)) = [errBadUint]
  /\ msgsReceived (fst x) = [regenerate] /\ errsTaken (fst x) = [errBadUint]
  /\ (List.length (decodeCalls (fst x)) <= 2)%nat.
Proof.
  cbv zeta.
  set (data := encodeAlone regenerate ++ [xf7] ++ frame (valueOf restart)).
  set (x := rsched (inTurn 8) (ChannelFromReader (NewReader data))).
  assert (Hd : decodes (NewDecoder (NewReader data)) [regenerate] errBadUint
                 {| dec_r := NewReader (frame (valueOf restart));
                    dec_wireType := knownTypes |}).
  { eapply decodes_msg.
    - unfold NewDecoder, NewReader, data.
      apply (Decode_alone regenerate). split; vm_compute; (reflexivity || discriminate).
    - apply decodes_stop. vm_compute. reflexivity. }
  destruct (corrupted_bytes_end_the_stream (NewReader data) [regenerate] errBadUint _
              (fst x) (snd x) Hd
              (rsched_sound _ _ _ _ (surjective_pairing x)))
    as (_ & Hq & Hqe & _ & Hc & _ & Hn & _).
  assert (Hc1 : closed (rs_ch (snd x)) = true) by (vm_compute; reflexivity).
  destruct (Hc Hc1) as [H1 H2]. cbn [isEOF] in H2.
  rewrite <- Hq, <- Hqe. split; [exact H1|]. split; [exact H2|].
  split; [vm_compute; reflexivity|]. split; [vm_compute; reflexivity|exact Hn].
Defined.

(** One record, then a byte that announces a message of length zero, which
    no encoder writes: Decode answers it with io.EOF, and [read] takes that
    for the end of the stream.  There are runs to the end of [read], and in
    every one of them one message is delivered and no error at all. *)
Lemma corrupted_bytes_without_an_error :
  let data := encodeAlone regenerate ++ [x00] in
  (exists t s,
      rrun (ChannelFromReader (NewReader data)) t s /\ rs_pc s = RExit
      /\ decodeCalls t = [inl regenerate; inr EOF])
  /\ forall t s,
       rrun (ChannelFromReader (NewReader data)) t s -> rs_pc s = RExit ->
       msgsReceived t ++ buf (rs_ch s) = [regenerate]
       /\ errsEmitted t = []
       /\ errsTaken t ++ buf (rs_errCh s) = []
       /\ List.length (errsEmitted t) <> 1%nat
       /\ closed (rs_ch s) = true /\ closed (rs_errCh s) = true.
Proof.
  cbv zeta.
  set (data := encodeAlone regenerate ++ [x00]).
  assert (Hd : decodes (NewDecoder (NewReader data)) [regenerate] EOF
                 {| dec_r := NewReader []; dec_wireType := knownTypes |}).
  { eapply decodes_msg.
    - unfold NewDecoder, NewReader, data.
      apply (Decode_alone regenerate). split; vm_compute; (reflexivity || discriminate).
    - apply decodes_stop. vm_compute. reflexivity. }
  split.
  - set (x := rsched (inTurn 8) (ChannelFromReader (NewReader data))).
    exists (fst x), (snd x).
    split; [apply (rsched_sound (inTurn 8)); apply surjective_pairing|].
    split; vm_compute; reflexivity.
  - intros t s Hrun Hpc.
    destruct (read_at_exit _ _ _ _ _ _ Hd Hrun Hpc) as (_ & H2 & H3 & H4).
    destruct (queues_at_exit _ _ _ _ _ _ Hd Hrun Hpc) as (Hq1 & Hq2 & _).
    cbn [isEOF] in H2, Hq2. rewrite H2. repeat split; auto; discriminate.
Qed.

(** C9.  Whatever the source: in every run of the decoding side at most one
    error is ever sent on the error channel; the errors sent are those the
    consumer has taken off the error channel followed by those that wait in
    it; no error of Decode other than io.EOF is lost: such errors are, at
    any moment, the errors sent followed by the one [read] is about to send;
    the error sent is the one the last call of Decode returned and is not
    io.EOF; after it was sent [read] calls Decode no more and sends nothing
    more; [read] then goes on to close both channels and return, the decoder
    left where it was; when [read] has returned after Decode failed with an
    error [e] other than io.EOF, exactly [e] was sent on the error channel,
    and the consumer has received it or finds it waiting there; and from
    wherever a run stands it can be carried on to the end of [read], both
    channels closed and still at most one error sent. *)
Theorem at_most_one_error_then_close r t s :
  rrun (ChannelFromReader r) t s ->
  (List.length (errsEmitted t) <= 1)%nat
  /\ errsEmitted t = errsTaken t ++ buf (rs_errCh s)
  /\ decodeErrs t = errsEmitted t ++ errInHand (rs_pc s)
  /\ (forall t1 e t2,
        t = t1 ++ RvErr e :: t2 ->
        isEOF e = false
        /\ (exists calls, decodeCalls t1 = calls ++ [inr e])
        /\ decodeCalls t2 = [] /\ delivered t2 = [] /\ errsEmitted t2 = [])
  /\ (rs_pc s = RExit ->
      forall calls e,
        decodeCalls t = calls ++ [inr e] -> isEOF e = false ->
        errsEmitted t = [e] /\ errsTaken t ++ buf (rs_errCh s) = [e])
  /\ (errsEmitted t <> [] ->
      exists t' s',
        rrun s t' s' /\ rs_pc s' = RExit
        /\ closed (rs_ch s') = true /\ closed (rs_errCh s') = true
        /\ decodeCalls t' = [] /\ rs_dec s' = rs_dec s)
  /\ (exists t' s',
        rrun s t' s' /\ rs_pc s' = RExit
        /\ closed (rs_ch s') = true /\ closed (rs_errCh s') = true
        /\ (List.length (errsEmitted (t ++ t')) <= 1)%nat).
Proof.
  intro Hrun. pose proof (RInv_run _ _ _ Hrun) as I.
  pose proof (errors_accounted _ _ _ Hrun) as Hacc.
  split; [|split; [|split; [|split; [|split; [|split]]]]].
  - apply (ri_errs _ _ I).
  - exact (ri_errq _ _ I).
  - exact Hacc.
  - intros t1 e t2 ->.
    destruct (run_split _ _ _ _ _ _ Hrun) as (s1 & s2 & Hr1 & Hstep & Hr2).
    pose proof (RInv_run _ _ _ Hr1) as I1.
    assert (Hpc : rs_pc s1 = RSendErr e /\ rs_pc s2 = RCloseMsg).
    { inversion Hstep as [? ? ? Hr| |]; subst.
      unfold read in Hr. destruct (rs_pc s1).
      - destruct (Decode (rs_dec s1)). discriminate.
      - destruct (send (rs_ch s1) m); discriminate.
      - destruct (send (rs_errCh s1) e0); try discriminate.
        injection Hr as <- <-. split; reflexivity.
      - destruct (close (rs_ch s1)); discriminate.
      - destruct (close (rs_errCh s1)); discriminate.
      - discriminate. }
    destruct Hpc as [Hp1 Hp2].
    pose proof (ri_last _ _ I1) as Hl. rewrite Hp1 in Hl. destruct Hl as [He Hcalls].
    destruct (read_after _ _ _ Hr2) as (_ & _ & H1 & H2 & H3); [now rewrite Hp2|].
    repeat split; auto.
  - intros Hpc calls e Hcalls He.
    rewrite Hpc in Hacc. cbn [errInHand] in Hacc. rewrite app_nil_r in Hacc.
    assert (Hlast : exists l, decodeErrs t = l ++ [e]).
    { assert (Hd : forall u, decodeErrs u
                = flat_map (fun r : Message + error =>
                              match r with
                              | inr e0 => if isEOF e0 then [] else [e0]
                              | inl _ => []
                              end) (decodeCalls u)).
      { induction u as [|ev u IHu]; [reflexivity|].
        change (decodeErrs (ev :: u)) with
          (match ev with
           | RvDecode (inr e0) => if isEOF e0 then [] else [e0]
           | _ => []
           end ++ decodeErrs u).
        change (decodeCalls (ev :: u)) with
          (match ev with RvDecode r0 => [r0] | _ => [] end ++ decodeCalls u).
        rewrite flat_map_app, <- IHu.
        destruct ev as [[m|e0]| | | | | |]; cbn [flat_map app];
          rewrite ?app_nil_r; reflexivity. }
      rewrite Hd, Hcalls, flat_map_app. cbn [flat_map]. rewrite He, app_nil_r.
      eauto. }
    destruct Hlast as [l Hl]. rewrite Hacc in Hl.
    pose proof (proj1 (ri_errs _ _ I)) as Hle. rewrite Hl in Hle.
    rewrite length_app in Hle. cbn [List.length] in Hle.
    destruct l as [|x l]; [|cbn [List.length] in Hle; lia].
    cbn [app] in Hl. split; [exact Hl|]. now rewrite <- (ri_errq _ _ I).
  - intro Hne.
    assert (Hf : finishing (rs_pc s) = true).
    { destruct (finishing (rs_pc s)) eqn:Ef; [reflexivity|].
      exfalso. apply Hne. now apply (ri_errs _ _ I). }
    destruct (read_finishes _ _ _ Hrun (or_introl Hf))
      as (t' & s' & Hr' & Hpc' & Hd' & Hc1 & Hc2).
    destruct (read_after _ _ _ Hr' Hf) as (_ & _ & Hcalls & _).
    exists t', s'. repeat split; auto.
  - destruct (decodes_total (NewDecoder r)) as (ms & e & dfin & Hdec).
    destruct (read_exits _ _ _ _ _ _ Hdec Hrun) as (t' & s' & Hr' & Hpc' & Hc1 & Hc2).
    exists t', s'. repeat split; auto.
    apply (ri_errs _ _ (RInv_run _ _ _ (run_app _ _ _ _ _ _ Hrun Hr'))).
Qed.

(** A source that is nothing but a byte announcing a count of nine bytes. *)
Lemma at_most_one_error_then_close_witness :
  let x := rsched (inTurn 4) (ChannelFromReader (NewReader [xf7; x00])) in
  errsTaken (fst x) ++ buf (rs_errCh (snd x)) = [errBadUint]
  /\ errsTaken (fst x) = [errBadUint]
  /\ (List.length (errsEmitted (fst x)) <= 1)%nat.
Proof.
  cbv zeta.
  set (x := rsched (inTurn 4) (ChannelFromReader (NewReader [xf7; x00]))).
  destruct (at_most_one_error_then_close (NewReader [xf7; x00]) (fst x) (snd x)
              (rsched_sound _ _ _ _ (surjective_pairing x)))
    as (H & _ & _ & _ & Hexit & _).
  split; [|split; [vm_compute; reflexivity|exact H]].
  apply (Hexit eq_refl [] errBadUint); vm_compute; reflexivity.
Defined.

(** C1.  A message that goes through the encoding side into a buffer comes
    out of the decoding side reading that buffer with the same [Action] and
    the same strings in [Args], in the same order; [Args] itself is as it
    was unless it was an empty slice that is not nil, which comes out as the
    nil slice.  For every message [msg] within the limits of the library:
    there are runs of [write] on an empty buffer in which exactly [msg] is
    sent and [write] comes to its end; after every such run [write] has
    reported no error, there are runs of [read] on the bytes of that buffer
    that come to their end, and in every such run exactly one message was
    put on the message channel, where the consumer has received it or finds
    it waiting, the message is as said, nothing was put on the error
    channel, and both channels are closed. *)
Theorem round_trip_of_one_message msg :
  fits msg ->
  (exists wt ws,
      wrun (ChannelFromWriter Buffer) wt ws
      /\ sentMsgs wt = [msg] /\ ws_pc ws = WExit)
  /\ forall wt ws,
       wrun (ChannelFromWriter Buffer) wt ws ->
       sentMsgs wt = [msg] ->
       ws_pc ws = WExit ->
       errsSent wt = []
       /\ errsReceived wt ++ buf (ws_errCh ws) = []
       /\ (exists rt rs,
             rrun (ChannelFromReader (NewReader (w_out (ws_w ws)))) rt rs
             /\ rs_pc rs = RExit)
       /\ forall rt rs,
            rrun (ChannelFromReader (NewReader (w_out (ws_w ws)))) rt rs ->
            rs_pc rs = RExit ->
            exists got,
              delivered rt = [got]
              /\ msgsReceived rt ++ buf (rs_ch rs) = [got]
              /\ Action got = Action msg
              /\ elems (Args got) = elems (Args msg)
              /\ (Args msg <> Some [] -> got = msg)
              /\ (Args msg = Some [] -> Args got = None)
              /\ errsEmitted rt = []
              /\ errsTaken rt ++ buf (rs_errCh rs) = []
              /\ closed (rs_ch rs) = true /\ closed (rs_errCh rs) = true.
Proof.
  intro Hf. split; [apply write_completes|].
  intros wt ws Hw Hs Hpc.
  destruct (Buffer_at_exit _ _ Hw Hpc) as [Hout Herr]. rewrite Hs in Hout.
  cbn [map List.concat] in Hout. rewrite app_nil_r in Hout. rewrite Hout.
  pose proof (decodes_alone msg Hf) as Hd.
  split; [exact Herr|].
  split; [now rewrite <- (wi_errq _ _ _ (WInv_run _ _ _ Hw))|]. split.
  - destruct (read_exits _ _ _ _ [] _ Hd (run_nil _ _)) as (rt & rs & Hr & Hp & _).
    eauto.
  - intros rt rs Hr Hrpc.
    destruct (read_at_exit _ _ _ _ _ _ Hd Hr Hrpc) as (H1 & H2 & H3 & H4).
    destruct (queues_at_exit _ _ _ _ _ _ Hd Hr Hrpc) as (Hq1 & Hq2 & _).
    destruct (arrives_elems msg) as [Ha He].
    exists (arrives msg). repeat split; auto.
    + apply arrives_same.
    + intro Hempty. unfold arrives. now rewrite Hempty.
Qed.

(** A message with one argument. *)
Lemma round_trip_of_one_message_witness :
  let w := wsched (inTurn 3) (Some [regenerate]) (ChannelFromWriter Buffer) in
  let x := rsched (inTurn 6) (ChannelFromReader (NewReader (w_out (ws_w (snd w))))) in
  fits regenerate
  /\ msgsReceived (fst x) ++ buf (rs_ch (snd x)) = [regenerate]
  /\ msgsReceived (fst x) = [regenerate]
  /\ errsTaken (fst x) ++ buf (rs_errCh (snd x)) = [].
Proof.
  cbv zeta.
  set (w := wsched (inTurn 3) (Some [regenerate]) (ChannelFromWriter Buffer)).
  set (x := rsched (inTurn 6) (ChannelFromReader (NewReader (w_out (ws_w (snd w)))))).
  assert (Hf : fits regenerate) by (split; vm_compute; (reflexivity || discriminate)).
  assert (Hs : sentMsgs (fst w) = [regenerate]) by (vm_compute; reflexivity).
  assert (Hpc : ws_pc (snd w) = WExit) by (vm_compute; reflexivity).
  assert (Hrpc : rs_pc (snd x) = RExit) by (vm_compute; reflexivity).
  destruct (round_trip_of_one_message regenerate Hf) as [_ H].
  destruct (H (fst w) (snd w) (wsched_sound _ _ _ _ _ (surjective_pairing w)) Hs Hpc)
    as (_ & _ & _ & Hr).
  destruct (Hr (fst x) (snd x) (rsched_sound _ _ _ _ (surjective_pairing x)) Hrpc)
    as (got & _ & Hq & _ & _ & Hsame & _ & _ & He & _).
  rewrite Hq, He. rewrite (Hsame ltac:(discriminate)).
  split; [exact Hf|]. split; [reflexivity|].
  split; [vm_compute; reflexivity|reflexivity].
Defined.

(** A message whose [Args] is the empty slice [[]string{}]: it is sent,
    [write] reports no error, and what the consumer receives in every run
    to the end of [read] is a message whose [Args] is nil, which is not the
    [Args] that was sent. *)
Lemma empty_args_arrive_as_nil :
  fits restartNoArgs
  /\ (exists wt ws,
        wrun (ChannelFromWriter Buffer) wt ws
        /\ sentMsgs wt = [restartNoArgs] /\ ws_pc ws = WExit)
  /\ forall wt ws rt rs,
       wrun (ChannelFromWriter Buffer) wt ws ->
       sentMsgs wt = [restartNoArgs] -> ws_pc ws = WExit ->
       rrun (ChannelFromReader (NewReader (w_out (ws_w ws)))) rt rs ->
       rs_pc rs = RExit ->
       errsSent wt = [] /\ errsEmitted rt = []
       /\ msgsReceived rt ++ buf (rs_ch rs) = [restart]
       /\ map Args (msgsReceived rt ++ buf (rs_ch rs)) = [None]
       /\ map Args (msgsReceived rt ++ buf (rs_ch rs)) <> [Args restartNoArgs].
Proof.
  assert (Hf : fits restartNoArgs) by (split; vm_compute; (reflexivity || discriminate)).
  split; [exact Hf|]. split; [apply write_completes|].
  intros wt ws rt rs Hw Hs Hpc Hr Hrpc.
  destruct (Buffer_at_exit _ _ Hw Hpc) as [Hout Herr]. rewrite Hs in Hout.
  cbn [map List.concat] in Hout. rewrite app_nil_r in Hout. rewrite Hout in Hr.
  pose proof (decodes_alone restartNoArgs Hf) as Hd.
  destruct (read_at_exit _ _ _ _ _ _ Hd Hr Hrpc) as (_ & H2 & _).
  destruct (queues_at_exit _ _ _ _ _ _ Hd Hr Hrpc) as (Hq1 & _).
  rewrite Hq1. repeat split; auto. discriminate.
Qed.

(** C2.  The scenario of the specification: "regenerate apprc" and then
    "restart" are sent into [write] over a buffer and the buffer is read by
    [read]; no error is injected and [write] reports none.  [read] delivers
    the first message only, sends the error of a repeated type description
    and closes its channels: the second message does not arrive.  The
    consumer receives one message and one error, and nothing is left in
    either channel. *)
Theorem two_messages_one_arrives :
  let w := wsched (inTurn 4) (Some [regenerate; restart]) (ChannelFromWriter Buffer) in
  let x := rsched (inTurn 8) (ChannelFromReader (NewReader (w_out (ws_w (snd w))))) in
  sentMsgs (fst w) = [regenerate; restart]
  /\ errsSent (fst w) = [] /\ ws_pc (snd w) = WExit
  /\ delivered (fst x) = [regenerate]
  /\ errsEmitted (fst x) = [ErrDuplicateType]
  /\ rs_pc (snd x) = RExit
  /\ closed (rs_ch (snd x)) = true /\ closed (rs_errCh (snd x)) = true
  /\ msgsReceived (fst x) = [regenerate]
  /\ errsTaken (fst x) = [ErrDuplicateType]
  /\ buf (rs_ch (snd x)) = [] /\ buf (rs_errCh (snd x)) = [].
Proof. vm_compute. repeat split. Qed.

(** * Further properties of [write] and [read] *)

Module MoreFacts.
Import Gob GobFacts StreamFacts WriteFacts ReadFacts PipeFacts.

Lemma attempts_app t1 t2 : attempts (t1 ++ t2) = attempts t1 ++ attempts t2.
Proof. unfold attempts. apply flat_map_app. Qed.

(** While [write] holds an error that the full error channel has no room
    for, and the consumer takes none, [write] stays where it is. *)
Lemma stalled_stays_stalled s t s' e :
  wrun s t s' ->
  ws_pc s = WSendErr e ->
  List.length (buf (ws_errCh s)) = cap (ws_errCh s) ->
  errsReceived t = [] ->
  ws_pc s' = WSendErr e
  /\ List.length (buf (ws_errCh s')) = cap (ws_errCh s')
  /\ ws_w s' = ws_w s /\ attempts t = [] /\ errsSent t = [].
Proof.
  intros H Hpc Hfull. induction H as [s|s t s1 ev s2 H IH Hs]; intro Hno.
  - repeat split; auto.
  - rewrite errsReceived_snoc in Hno. apply app_eq_nil in Hno as [Hno1 Hno2].
    destruct (IH Hpc Hfull Hno1) as (Hp1 & Hf1 & Hw1 & Ha1 & He1). clear IH.
    rewrite attempts_snoc, errsSent_snoc, Ha1, He1.
    destruct Hs as [s1 ev s2 Hw|s1 m c Hs|s1 c Hc|s1 e0 c Hr].
    + unfold write in Hw. rewrite Hp1 in Hw. unfold send in Hw.
      destruct (closed (ws_errCh s1)); [discriminate|].
      rewrite Hf1, Nat.ltb_irrefl in Hw. discriminate.
    + repeat split; auto.
    + repeat split; auto.
    + discriminate.
Qed.

(** What [write] has done to the sink and what it has reported, once it has
    returned, on any sink. *)
Lemma write_at_exit w t s :
  wrun (ChannelFromWriter w) t s ->
  ws_pc s = WExit ->
  (ws_w s, attempts t) = encodeEach w (sentMsgs t)
  /\ errsSent t = failures (attempts t).
Proof.
  intros Hrun Hpc. pose proof (WInv_run _ _ _ Hrun) as I.
  destruct (wi_drained _ _ _ I Hpc) as [_ Hb]. split.
  - rewrite (wi_sent _ _ _ I), Hb, app_nil_r. symmetry. apply (wi_sink _ _ _ I).
  - rewrite (wi_errs _ _ _ I), Hpc. cbn. now rewrite app_nil_r.
Qed.

(** On a sink of which every call fails, nothing is written and every
    message is answered with the error. *)
Lemma encodeEach_Broken e msgs : forall w,
  (forall i, w_fail w i = Some e) ->
  exists w',
    encodeEach w msgs = (w', map (fun m => (m, Some e)) msgs)
    /\ w_out w' = w_out w /\ (forall i, w_fail w' i = Some e).
Proof.
  induction msgs as [|m msgs IH]; intros w Hw.
  - exists w. repeat split; auto.
  - cbn [encodeEach].
    unfold Encode, sendTypeDescriptor, writeMessage, Write.
    cbn [NewEncoder alreadySent existsb enc_sent enc_w]. rewrite Hw.
    cbn [enc_w].
    destruct (IH {| w_out := w_out w; w_calls := S (w_calls w); w_fail := w_fail w |})
      as (w' & HE & Ho & Hf); [exact Hw|].
    rewrite HE. exists w'. repeat split; auto.
Qed.

End MoreFacts.

Import MoreFacts.

(** X1.  [write] takes the messages off its channel in the order they were
    sent, none skipped and none twice: at every moment of every run the
    messages sent are those attempted so far followed by those waiting in
    the channel, so the producer is never more than [ChanSize] messages
    ahead. *)
Theorem messages_are_attempted_in_the_order_sent w t s :
  wrun (ChannelFromWriter w) t s ->
  sentMsgs t = map fst (attempts t) ++ buf (ws_ch s)
  /\ (List.length (sentMsgs t) <= List.length (attempts t) + ChanSize)%nat.
Proof.
  intro Hrun. pose proof (WInv_run _ _ _ Hrun) as I.
  pose proof (wi_sent _ _ _ I) as Hs. split; [exact Hs|].
  rewrite Hs, length_app, length_map. pose proof (wi_len _ _ _ I) as [Hl _]. lia.
Qed.

(** Forty messages offered before [write] ever moves: 32 get in, and one
    more for each message [write] then takes. *)
Lemma messages_are_attempted_in_the_order_sent_witness :
  let r := wsched (producerFirst 40 ++ inTurn 3) (Some (repeat restart 40))
             (ChannelFromWriter Buffer) in
  List.length (sentMsgs (fst r)) = 34%nat
  /\ List.length (attempts (fst r)) = 3%nat
  /\ (List.length (sentMsgs (fst r)) <= List.length (attempts (fst r)) + ChanSize)%nat.
Proof.
  cbv zeta.
  set (r := wsched (producerFirst 40 ++ inTurn 3) (Some (repeat restart 40))
              (ChannelFromWriter Buffer)).
  destruct (messages_are_attempted_in_the_order_sent Buffer (fst r) (snd r)
              (wsched_sound _ _ _ _ _ (surjective_pairing r))) as [_ H].
  split; [vm_compute; reflexivity|]. split; [vm_compute; reflexivity|exact H].
Defined.

(** X2.  No error of Encode is dropped: at every moment of every run, the
    errors Encode has returned, in order, are those the consumer has
    received, then those waiting in the error channel, then the one [write]
    still holds. *)
Theorem encode_errors_are_never_dropped w t s :
  wrun (ChannelFromWriter w) t s ->
  failures (attempts t)
  = errsReceived t ++ buf (ws_errCh s) ++ pendingErr (ws_pc s).
Proof.
  intro Hrun. pose proof (WInv_run _ _ _ Hrun) as I.
  now rewrite (wi_errs _ _ _ I), (wi_errq _ _ _ I), app_assoc.
Qed.

(** Every write fails; the consumer has taken one error so far. *)
Lemma encode_errors_are_never_dropped_witness :
  let r := wsched (producerFirst 4 ++ [Worker; Worker; Worker; Worker; Consumer; Worker])
             (Some [regenerate; restart; destroy])
             (ChannelFromWriter (Broken (ErrIO "closed pipe"))) in
  errsReceived (fst r) = [ErrIO "closed pipe"]
  /\ buf (ws_errCh (snd r)) = [ErrIO "closed pipe"]
  /\ pendingErr (ws_pc (snd r)) = [ErrIO "closed pipe"]
  /\ List.length (failures (attempts (fst r))) = 3%nat.
Proof.
  cbv zeta.
  set (r := wsched (producerFirst 4 ++ [Worker; Worker; Worker; Worker; Consumer; Worker])
              (Some [regenerate; restart; destroy])
              (ChannelFromWriter (Broken (ErrIO "closed pipe")))).
  pose proof (encode_errors_are_never_dropped _ (fst r) (snd r)
                (wsched_sound _ _ _ _ _ (surjective_pairing r))) as H.
  assert (H1 : errsReceived (fst r) = [ErrIO "closed pipe"]) by (vm_compute; reflexivity).
  assert (H2 : buf (ws_errCh (snd r)) = [ErrIO "closed pipe"]) by (vm_compute; reflexivity).
  assert (H3 : pendingErr (ws_pc (snd r)) = [ErrIO "closed pipe"])
    by (vm_compute; reflexivity).
  rewrite H1, H2, H3 in H. rewrite H. repeat split; auto.
Defined.

(** X3.  [write] never panics, and it waits in three situations only: it
    has returned; the message channel is open and empty; it holds an error
    and the error channel is full.  In every other reachable state it can
    take its next step. *)
Theorem write_waits_only_for_input_or_room w t s :
  wrun (ChannelFromWriter w) t s ->
  writePanics s = false
  /\ (write s = None <->
      ws_pc s = WExit
      \/ (ws_pc s = WRange /\ buf (ws_ch s) = [] /\ closed (ws_ch s) = false)
      \/ (exists e, ws_pc s = WSendErr e
                    /\ List.length (buf (ws_errCh s)) = ChanSize)).
Proof.
  intro Hrun. pose proof (WInv_run _ _ _ Hrun) as I. destruct I.
  destruct s as [w1 [chb chc chx] [eb ec ex] pc].
  cbn [ws_w ws_ch ws_errCh ws_pc buf cap closed] in *.
  destruct wi_cap0 as [-> ->]. destruct wi_len0 as [_ Hlen].
  assert (Hex : pc <> WExit -> ex = false).
  { intro Hne. destruct ex; [|reflexivity]. exfalso. apply Hne. now apply wi_exit0. }
  unfold writePanics, write, recv, send, close.
  cbn [ws_w ws_ch ws_errCh ws_pc buf cap closed].
  destruct pc as [|e|].
  - rewrite (Hex ltac:(discriminate)). split.
    + destruct chb; [destruct chx|]; reflexivity.
    + destruct chb as [|m chb].
      * destruct chx; split.
        -- discriminate.
        -- intros [H|[(_ & _ & H)|(e0 & H & _)]]; discriminate.
        -- intros _. right. left. repeat split.
        -- reflexivity.
      * destruct (Encode (NewEncoder w1) m). split; [discriminate|].
        intros [H|[(_ & H & _)|(e0 & H & _)]]; discriminate.
  - rewrite (Hex ltac:(discriminate)). split; [reflexivity|].
    destruct (List.length eb <? ChanSize)%nat eqn:El.
    + apply Nat.ltb_lt in El. split; [discriminate|].
      intros [H|[(H & _)|(e0 & _ & H)]]; try discriminate. lia.
    + apply Nat.ltb_ge in El. split; [|reflexivity].
      intros _. right. right. exists e. split; [reflexivity|lia].
  - split; [reflexivity|]. split; [|reflexivity]. intros _. now left.
Qed.

(** A producer that has sent nothing yet: [write] waits for it. *)
Lemma write_waits_only_for_input_or_room_witness :
  write (ChannelFromWriter Buffer) = None
  /\ writePanics (ChannelFromWriter Buffer) = false.
Proof.
  destruct (write_waits_only_for_input_or_room Buffer [] (ChannelFromWriter Buffer)
              (run_nil _ _)) as [Hp Hw].
  split; [|exact Hp]. apply Hw. right. left. repeat split.
Defined.

(** X4.  Back-pressure from the error channel: when [write] holds an error
    and the error channel is full, then for as long as the consumer takes no
    error [write] takes no message off its channel and does not touch the
    sink; and as soon as the consumer has taken one, [write] sends the error
    it holds. *)
Theorem full_error_channel_stalls_write w t s e :
  wrun (ChannelFromWriter w) t s ->
  ws_pc s = WSendErr e ->
  List.length (buf (ws_errCh s)) = ChanSize ->
  (forall t' s',
      wrun s t' s' -> errsReceived t' = [] ->
      write s' = None /\ attempts t' = [] /\ ws_w s' = ws_w s)
  /\ (forall e0 s',
        wstep s (EvRecvErr e0) s' -> exists s'', write s' = Some (EvErr e, s'')).
Proof.
  intros Hrun Hpc Hfull. pose proof (WInv_run _ _ _ Hrun) as I.
  pose proof (wi_cap _ _ _ I) as [_ Hcap]. rewrite <- Hcap in Hfull. split.
  - intros t' s' Hr' Hno.
    destruct (stalled_stays_stalled _ _ _ _ Hr' Hpc Hfull Hno) as (Hp & Hf & Hw & Ha & _).
    repeat split; auto. unfold write. rewrite Hp. unfold send.
    destruct (closed (ws_errCh s')); [reflexivity|].
    now rewrite Hf, Nat.ltb_irrefl.
  - intros e0 s' Hstep.
    assert (Hopen : closed (ws_errCh s) = false).
    { destruct (closed (ws_errCh s)) eqn:Ec; [|reflexivity].
      apply (wi_exit _ _ _ I) in Ec. congruence. }
    inversion Hstep as [? ? ? Hw| | |? ? c Hr]; subst.
    { exfalso. unfold write in Hw. rewrite Hpc in Hw.
      destruct (send (ws_errCh s) e); discriminate. }
    unfold recv in Hr. destruct (buf (ws_errCh s)) as [|y b] eqn:Eb.
    { destruct (closed (ws_errCh s)); discriminate. }
    injection Hr as <- <-. unfold write. cbn [ws_pc ws_errCh]. rewrite Hpc.
    unfold send. cbn [buf cap closed]. rewrite Hopen.
    replace (List.length b <? cap (ws_errCh s))%nat with true
      by (symmetry; apply Nat.ltb_lt; cbn in Hfull; lia).
    eauto.
Qed.

(** Every write fails and nobody reads the errors: after 32 of them the
    33rd stays in the hand of [write], and the messages behind it wait. *)
Lemma full_error_channel_stalls_write_witness :
  let r := wsched (inTurn 0 ++ List.concat (repeat [Producer; Worker; Worker] 40))
             (Some (repeat restart 40))
             (ChannelFromWriter (Broken (ErrIO "closed pipe"))) in
  List.length (attempts (fst r)) = 33%nat /\ write (snd r) = None.
Proof.
  cbv zeta.
  set (r := wsched (inTurn 0 ++ List.concat (repeat [Producer; Worker; Worker] 40))
              (Some (repeat restart 40))
              (ChannelFromWriter (Broken (ErrIO "closed pipe")))).
  split; [vm_compute; reflexivity|].
  destruct (full_error_channel_stalls_write _ (fst r) (snd r) (ErrIO "closed pipe")
              (wsched_sound _ _ _ _ _ (surjective_pairing r))) as [H _].
  { vm_compute. reflexivity. }
  { vm_compute. reflexivity. }
  apply (H [] (snd r)); [constructor|reflexivity].
Defined.

(** X5.  What [write] leaves behind does not depend on how the goroutines
    were scheduled: two runs from the same sink that have both come to their
    end and in which the same messages were sent end with the same sink, the
    same result of Encode for every message and the same errors sent; they
    are what encoding the messages one after the other, each with a new
    encoder, gives. *)
Theorem complete_runs_of_write_agree w t1 s1 t2 s2 :
  wrun (ChannelFromWriter w) t1 s1 -> ws_pc s1 = WExit ->
  wrun (ChannelFromWriter w) t2 s2 -> ws_pc s2 = WExit ->
  sentMsgs t1 = sentMsgs t2 ->
  ws_w s1 = ws_w s2 /\ attempts t1 = attempts t2 /\ errsSent t1 = errsSent t2
  /\ (ws_w s1, attempts t1) = encodeEach w (sentMsgs t1).
Proof.
  intros H1 P1 H2 P2 Hs.
  destruct (write_at_exit _ _ _ H1 P1) as [E1 F1].
  destruct (write_at_exit _ _ _ H2 P2) as [E2 F2].
  rewrite <- Hs in E2. rewrite <- E1 in E2. injection E2 as Hw Ha.
  repeat split; auto. now rewrite F1, F2, Ha.
Qed.

(** The producer running ahead, or everybody in turn. *)
Lemma complete_runs_of_write_agree_witness :
  let a := wsched (producerFirst 4 ++ inTurn 6) (Some [regenerate; restart; destroy])
             (ChannelFromWriter (FailingOnce 4 (ErrIO "broken pipe"))) in
  let b := wsched (inTurn 6) (Some [regenerate; restart; destroy])
             (ChannelFromWriter (FailingOnce 4 (ErrIO "broken pipe"))) in
  fst a <> fst b /\ ws_w (snd a) = ws_w (snd b) /\ errsSent (fst a) = errsSent (fst b).
Proof.
  cbv zeta.
  set (a := wsched (producerFirst 4 ++ inTurn 6) (Some [regenerate; restart; destroy])
              (ChannelFromWriter (FailingOnce 4 (ErrIO "broken pipe")))).
  set (b := wsched (inTurn 6) (Some [regenerate; restart; destroy])
              (ChannelFromWriter (FailingOnce 4 (ErrIO "broken pipe")))).
  destruct (complete_runs_of_write_agree _ (fst a) (snd a) (fst b) (snd b)
              (wsched_sound _ _ _ _ _ (surjective_pairing a))
              ltac:(vm_compute; reflexivity)
              (wsched_sound _ _ _ _ _ (surjective_pairing b))
              ltac:(vm_compute; reflexivity)
              ltac:(vm_compute; reflexivity)) as (Hw & _ & He & _).
  split; [|split; assumption].
  intro Heq. apply (f_equal (fun l => nth_error l 1)) in Heq.
  vm_compute in Heq. discriminate.
Defined.

(** X6.  A failure of the sink never stops [write]: on a sink of which
    every [Write] call fails, whatever the messages, there are runs to the
    end of [write], and in each of them every message was attempted, each
    was answered with one error on the error channel, in order, which the
    consumer has received or finds waiting there, and nothing was
    written. *)
Theorem broken_sink_one_error_per_message e msgs :
  (exists t s,
      wrun (ChannelFromWriter (Broken e)) t s
      /\ sentMsgs t = msgs /\ ws_pc s = WExit)
  /\ forall t s,
       wrun (ChannelFromWriter (Broken e)) t s ->
       sentMsgs t = msgs ->
       ws_pc s = WExit ->
       attempts t = map (fun m => (m, Some e)) msgs
       /\ errsSent t = map (fun _ => e) msgs
       /\ errsReceived t ++ buf (ws_errCh s) = map (fun _ => e) msgs
       /\ w_out (ws_w s) = [].
Proof.
  split; [apply write_completes|]. intros t s Hrun Hs Hpc.
  destruct (write_at_exit _ _ _ Hrun Hpc) as [HE HF]. rewrite Hs in HE.
  destruct (encodeEach_Broken e msgs (Broken e)) as (w' & HE' & Ho & _);
    [reflexivity|].
  rewrite HE' in HE. injection HE as Hw Ha.
  assert (Hall : errsSent t = map (fun _ => e) msgs).
  { rewrite HF, Ha. clear. induction msgs as [|m msgs IH]; [reflexivity|].
    cbn [map]. unfold failures in *. cbn [flat_map snd app]. now rewrite IH. }
  split; [exact Ha|]. split; [exact Hall|]. split.
  - now rewrite <- (wi_errq _ _ _ (WInv_run _ _ _ Hrun)).
  - now rewrite Hw, Ho.
Qed.

Lemma broken_sink_one_error_per_message_witness :
  let r := wsched (inTurn 8) (Some [regenerate; restart; destroy])
             (ChannelFromWriter (Broken (ErrIO "closed pipe"))) in
  errsSent (fst r) = [ErrIO "closed pipe"; ErrIO "closed pipe"; ErrIO "closed pipe"]
  /\ errsReceived (fst r)
     = [ErrIO "closed pipe"; ErrIO "closed pipe"; ErrIO "closed pipe"]
  /\ w_out (ws_w (snd r)) = [].
Proof.
  cbv zeta.
  set (r := wsched (inTurn 8) (Some [regenerate; restart; destroy])
              (ChannelFromWriter (Broken (ErrIO "closed pipe")))).
  destruct (broken_sink_one_error_per_message (ErrIO "closed pipe")
              [regenerate; restart; destroy]) as [_ H].
  destruct (H (fst r) (snd r) (wsched_sound _ _ _ _ _ (surjective_pairing r))
              ltac:(vm_compute; reflexivity) ltac:(vm_compute; reflexivity))
    as (_ & H1 & _ & H2).
  split; [exact H1|]. split; [vm_compute; reflexivity|exact H2].
Defined.

Module MoreReadFacts.
Import Gob GobFacts StreamFacts WriteFacts ReadFacts PipeFacts.

Lemma decodedMsgs_snoc t ev :
  decodedMsgs (t ++ [ev])
  = decodedMsgs t ++ match ev with RvDecode (inl m) => [m] | _ => [] end.
Proof.
  unfold decodedMsgs. rewrite flat_map_app. cbn [flat_map].
  now rewrite app_nil_r.
Qed.

(** Every message Decode has yielded has been sent on, except the one
    [read] holds. *)
Lemma decoded_is_delivered s0 t s :
  rrun s0 t s -> rs_pc s0 = RLoop ->
  decodedMsgs t = delivered t ++ inHand (rs_pc s).
Proof.
  intros H H0. induction H as [s|s t s1 ev s2 H IH Hs].
  - now rewrite H0.
  - specialize (IH H0). rewrite decodedMsgs_snoc, delivered_snoc, IH.
    destruct Hs as [s1 ev s2 Hr|s1 m c Hr|s1 e c Hr];
      [|cbn [rs_pc]; now rewrite !app_nil_r|cbn [rs_pc]; now rewrite !app_nil_r].
    unfold read in Hr. destruct (rs_pc s1) as [|m|e| | |].
    + destruct (Decode (rs_dec s1)) as [d' [m|e]]; injection Hr as <- <-;
        [|destruct (isEOF e)]; cbn [rs_pc inHand]; now rewrite !app_nil_r.
    + destruct (send (rs_ch s1) m); try discriminate. injection Hr as <- <-.
      cbn [rs_pc inHand]. now rewrite !app_nil_r.
    + destruct (send (rs_errCh s1) e); try discriminate. injection Hr as <- <-.
      cbn [rs_pc inHand]. now rewrite !app_nil_r.
    + destruct (close (rs_ch s1)); try discriminate. injection Hr as <- <-.
      cbn [rs_pc inHand]. now rewrite !app_nil_r.
    + destruct (close (rs_errCh s1)); try discriminate. injection Hr as <- <-.
      cbn [rs_pc inHand]. now rewrite !app_nil_r.
    + discriminate.
Qed.

Lemma filter_one_exists {A} (f : A -> bool) l :
  List.length (filter f l) = 1%nat -> existsb f l = true.
Proof.
  induction l as [|x l IH]; cbn; [discriminate|].
  destruct (f x); [reflexivity|exact IH].
Qed.

Lemma rstep_close_inv s ev s' :
  rstep s ev s' ->
  (ev = RvCloseMsg -> rs_pc s = RCloseMsg /\ rs_pc s' = RCloseErr)
  /\ (ev = RvCloseErr -> rs_pc s = RCloseErr /\ rs_pc s' = RExit).
Proof.
  intro H. destruct H as [s ev s' Hr|s m c Hr|s e c Hr];
    [|split; discriminate|split; discriminate].
  unfold read in Hr. destruct (rs_pc s) as [|m|e| | |].
  - destruct (Decode (rs_dec s)). injection Hr as <- <-. split; discriminate.
  - destruct (send (rs_ch s) m); try discriminate. injection Hr as <- <-.
    split; discriminate.
  - destruct (send (rs_errCh s) e); try discriminate. injection Hr as <- <-.
    split; discriminate.
  - destruct (close (rs_ch s)); try discriminate. injection Hr as <- <-.
    split; [auto|discriminate].
  - destruct (close (rs_errCh s)); try discriminate. injection Hr as <- <-.
    split; [discriminate|auto].
  - discriminate.
Qed.

End MoreReadFacts.

Import MoreReadFacts.

(** X7.  [read] never panics, and it waits in three situations only: it has
    returned; it holds a message and the message channel is full; it holds
    an error and the error channel is full.  In every other reachable state
    it can take its next step. *)
Theorem read_waits_only_for_room r t s :
  rrun (ChannelFromReader r) t s ->
  readPanics s = false
  /\ (read s = None <->
      rs_pc s = RExit
      \/ (exists m, rs_pc s = RSendMsg m
                    /\ List.length (buf (rs_ch s)) = ChanSize)
      \/ (exists e, rs_pc s = RSendErr e
                    /\ List.length (buf (rs_errCh s)) = ChanSize)).
Proof.
  intro Hrun. pose proof (RInv_run _ _ _ Hrun) as I. destruct I.
  destruct s as [d [chb chc chx] [eb ec ex] pc].
  cbn [rs_dec rs_ch rs_errCh rs_pc buf cap closed] in *.
  destruct ri_cap0 as [-> ->]. destruct ri_len0 as [Hl1 Hl2].
  unfold readPanics, read, send, close.
  cbn [rs_dec rs_ch rs_errCh rs_pc buf cap closed].
  destruct pc as [|m|e| | |]; destruct ri_pc0 as [-> ->].
  - split; [reflexivity|]. destruct (Decode d). split; [discriminate|].
    intros [H|[(m & H & _)|(e & H & _)]]; discriminate.
  - split; [reflexivity|].
    destruct (List.length chb <? ChanSize)%nat eqn:El.
    + apply Nat.ltb_lt in El. split; [discriminate|].
      intros [H|[(m0 & _ & H)|(e & H & _)]]; try discriminate. lia.
    + apply Nat.ltb_ge in El. split; [|reflexivity].
      intros _. right. left. exists m. split; [reflexivity|lia].
  - split; [reflexivity|].
    destruct (List.length eb <? ChanSize)%nat eqn:El.
    + apply Nat.ltb_lt in El. split; [discriminate|].
      intros [H|[(m0 & H & _)|(e0 & _ & H)]]; try discriminate. lia.
    + apply Nat.ltb_ge in El. split; [|reflexivity].
      intros _. right. right. exists e. split; [reflexivity|lia].
  - split; [reflexivity|]. split; [discriminate|].
    intros [H|[(m & H & _)|(e & H & _)]]; discriminate.
  - split; [reflexivity|]. split; [discriminate|].
    intros [H|[(m & H & _)|(e & H & _)]]; discriminate.
  - split; [reflexivity|]. split; [|reflexivity]. intros _. now left.
Qed.

(** Forty records and a consumer that takes nothing: [read] waits with the
    34th decoded message in its hand. *)
Lemma read_waits_only_for_room_witness :
  let data := w_out (enc_w (EncodeAll (NewEncoder Buffer) (repeat restart 40))) in
  let x := rsched (repeat Worker 100) (ChannelFromReader (NewReader data)) in
  read (snd x) = None /\ rs_pc (snd x) = RSendMsg restart
  /\ readPanics (snd x) = false.
Proof.
  cbv zeta.
  set (data := w_out (enc_w (EncodeAll (NewEncoder Buffer) (repeat restart 40)))).
  set (x := rsched (repeat Worker 100) (ChannelFromReader (NewReader data))).
  destruct (read_waits_only_for_room (NewReader data) (fst x) (snd x)
              (rsched_sound _ _ _ _ (surjective_pairing x))) as [Hp Hw].
  split; [|split; [vm_compute; reflexivity|exact Hp]].
  apply Hw. right. left. exists restart. split; vm_compute; reflexivity.
Defined.

(** X8.  [read] does not run ahead of its consumer: at every moment of every
    run the messages Decode has yielded are, in order, those sent on the
    message channel followed by the one [read] holds, and those sent are
    those the consumer has received followed by those waiting in the
    channel; so Decode has yielded at most [ChanSize] + 1 messages more than
    the consumer has received. *)
Theorem read_ahead_is_bounded r t s :
  rrun (ChannelFromReader r) t s ->
  decodedMsgs t = delivered t ++ inHand (rs_pc s)
  /\ delivered t = msgsReceived t ++ buf (rs_ch s)
  /\ (List.length (decodedMsgs t) <= List.length (msgsReceived t) + ChanSize + 1)%nat.
Proof.
  intro Hrun. pose proof (RInv_run _ _ _ Hrun) as I.
  pose proof (decoded_is_delivered _ _ _ Hrun eq_refl) as Hd.
  pose proof (ri_msgq _ _ I) as Hq. pose proof (ri_len _ _ I) as [Hl _].
  split; [exact Hd|]. split; [exact Hq|].
  rewrite Hd, Hq, !length_app. destruct (rs_pc s); cbn [inHand List.length]; lia.
Qed.

Lemma read_ahead_is_bounded_witness :
  let data := w_out (enc_w (EncodeAll (NewEncoder Buffer) (repeat restart 40))) in
  let x := rsched (repeat Worker 100) (ChannelFromReader (NewReader data)) in
  List.length (decodedMsgs (fst x)) = 33%nat
  /\ (List.length (decodedMsgs (fst x))
      <= List.length (msgsReceived (fst x)) + ChanSize + 1)%nat.
Proof.
  cbv zeta.
  set (data := w_out (enc_w (EncodeAll (NewEncoder Buffer) (repeat restart 40)))).
  set (x := rsched (repeat Worker 100) (ChannelFromReader (NewReader data))).
  destruct (read_ahead_is_bounded (NewReader data) (fst x) (snd x)
              (rsched_sound _ _ _ _ (surjective_pairing x))) as (_ & _ & H).
  split; [vm_compute; reflexivity|exact H].
Defined.

(** X9.  What [read] delivers does not depend on how the goroutines were
    scheduled: two runs on the same source that have both come to their end
    delivered the same messages, sent the same errors, made the same calls
    of Decode and left the decoder in the same state. *)
Theorem complete_runs_of_read_agree r t1 s1 t2 s2 :
  rrun (ChannelFromReader r) t1 s1 -> rs_pc s1 = RExit ->
  rrun (ChannelFromReader r) t2 s2 -> rs_pc s2 = RExit ->
  delivered t1 = delivered t2 /\ errsEmitted t1 = errsEmitted t2
  /\ decodeCalls t1 = decodeCalls t2 /\ rs_dec s1 = rs_dec s2.
Proof.
  intros H1 P1 H2 P2.
  destruct (decodes_total (NewDecoder r)) as (ms & e & dfin & Hdec).
  pose proof (RScript_run _ _ _ _ _ _ Hdec H1) as R1.
  pose proof (RScript_run _ _ _ _ _ _ Hdec H2) as R2.
  unfold RScript in R1, R2. rewrite P1 in R1. rewrite P2 in R2.
  destruct R1 as (A1 & B1 & C1 & D1). destruct R2 as (A2 & B2 & C2 & D2).
  repeat split; congruence.
Qed.

(** A consumer that keeps up, and one that comes late. *)
Lemma complete_runs_of_read_agree_witness :
  let data := w_out (enc_w (EncodeAll (NewEncoder Buffer) [regenerate; restart])) in
  let a := rsched (inTurn 8) (ChannelFromReader (NewReader data)) in
  let b := rsched (repeat Worker 8 ++ repeat Consumer 2)
             (ChannelFromReader (NewReader data)) in
  fst a <> fst b /\ delivered (fst a) = delivered (fst b).
Proof.
  cbv zeta.
  set (data := w_out (enc_w (EncodeAll (NewEncoder Buffer) [regenerate; restart]))).
  set (a := rsched (inTurn 8) (ChannelFromReader (NewReader data))).
  set (b := rsched (repeat Worker 8 ++ repeat Consumer 2)
              (ChannelFromReader (NewReader data))).
  destruct (complete_runs_of_read_agree (NewReader data) (fst a) (snd a) (fst b) (snd b)
              (rsched_sound _ _ _ _ (surjective_pairing a))
              ltac:(vm_compute; reflexivity)
              (rsched_sound _ _ _ _ (surjective_pairing b))
              ltac:(vm_compute; reflexivity)) as (Hd & _).
  split; [|exact Hd].
  intro Heq. apply (f_equal (fun l => nth_error l 2)) in Heq.
  vm_compute in Heq. discriminate.
Defined.

(** X10.  Whatever the source, [read] closes each of its channels at most
    once, the message channel before the error channel, and once it has
    closed the message channel it sends nothing more on either channel and
    calls Decode no more: an error, if any, goes out before both closes. *)
Theorem read_closes_messages_then_errors r t s :
  rrun (ChannelFromReader r) t s ->
  (List.length (filter isRvCloseMsg t) <= 1)%nat
  /\ (List.length (filter isRvCloseErr t) <= 1)%nat
  /\ (forall t1 t2,
        t = t1 ++ RvCloseErr :: t2 -> existsb isRvCloseMsg t1 = true)
  /\ (forall t1 t2,
        t = t1 ++ RvCloseMsg :: t2 ->
        delivered t2 = [] /\ errsEmitted t2 = [] /\ decodeCalls t2 = []).
Proof.
  intro Hrun. pose proof (RInv_run _ _ _ Hrun) as I.
  split; [|split; [|split]].
  - rewrite (ri_closeMsg _ _ I). destruct (closed (rs_ch s)); lia.
  - rewrite (ri_closeErr _ _ I). destruct (closed (rs_errCh s)); lia.
  - intros t1 t2 ->.
    destruct (run_split _ _ _ _ _ _ Hrun) as (sa & sb & Hr1 & Hstep & _).
    destruct (rstep_close_inv _ _ _ Hstep) as [_ Hc]. destruct (Hc eq_refl) as [Hp _].
    pose proof (RInv_run _ _ _ Hr1) as I1.
    pose proof (ri_pc _ _ I1) as Hpc. rewrite Hp in Hpc. destruct Hpc as [Hcl _].
    apply filter_one_exists. now rewrite (ri_closeMsg _ _ I1), Hcl.
  - intros t1 t2 ->.
    destruct (run_split _ _ _ _ _ _ Hrun) as (sa & sb & _ & Hstep & Hr2).
    destruct (rstep_close_inv _ _ _ Hstep) as [Hc _]. destruct (Hc eq_refl) as [_ Hp].
    destruct (read_after _ _ _ Hr2) as (_ & _ & H1 & H2 & H3); [now rewrite Hp|].
    repeat split; assumption.
Qed.

Lemma read_closes_messages_then_errors_witness :
  let x := rsched (inTurn 4) (ChannelFromReader (NewReader [xf7; x00])) in
  fst x = [RvDecode (inr errBadUint); RvErr errBadUint; RvRecvErr errBadUint;
           RvCloseMsg; RvCloseErr]
  /\ (List.length (filter isRvCloseMsg (fst x)) <= 1)%nat.
Proof.
  cbv zeta.
  set (x := rsched (inTurn 4) (ChannelFromReader (NewReader [xf7; x00]))).
  destruct (read_closes_messages_then_errors (NewReader [xf7; x00]) (fst x) (snd x)
              (rsched_sound _ _ _ _ (surjective_pairing x))) as (H & _).
  split; [vm_compute; reflexivity|exact H].
Defined.

Module MorePipeFacts.
Import Gob GobFacts StreamFacts WriteFacts ReadFacts PipeFacts.

(** Decode when the source fails before the first byte of a record. *)
Lemma Decode_source_fails e tbl :
  Decode {| dec_r := {| r_data := []; r_fail := Some e |}; dec_wireType := tbl |}
  = ({| dec_r := {| r_data := []; r_fail := Some e |}; dec_wireType := tbl |}, inr e).
Proof. reflexivity. Qed.

(** How a source ends: cleanly, or with its failure. *)
Lemma decodes_end f tbl :
  decodes {| dec_r := {| r_data := []; r_fail := f |}; dec_wireType := tbl |} []
    (match f with Some e => e | None => EOF end)
    {| dec_r := {| r_data := []; r_fail := f |}; dec_wireType := tbl |}.
Proof.
  apply decodes_stop. destruct f; [apply Decode_source_fails|apply Decode_EOF].
Qed.

Lemma decodes_values_then f msgs :
  Forall fits msgs ->
  decodes {| dec_r := {| r_data := List.concat (map (fun m => frame (valueOf m)) msgs);
                         r_fail := f |};
             dec_wireType := knownTypes |}
    (map arrives msgs) (match f with Some e => e | None => EOF end)
    {| dec_r := {| r_data := []; r_fail := f |}; dec_wireType := knownTypes |}.
Proof.
  induction 1 as [|m msgs Hm Hall IH]; cbn [map List.concat].
  - apply decodes_end.
  - eapply decodes_msg; [|exact IH]. now apply Decode_value.
Qed.

(** The stream of one encoder kept for all messages, on a source that ends
    cleanly or fails after it. *)
Lemma decodes_one_encoder_then f msgs :
  Forall fits msgs ->
  exists dfin,
    decodes (NewDecoder {| r_data := w_out (enc_w (EncodeAll (NewEncoder Buffer) msgs));
                           r_fail := f |})
      (map arrives msgs) (match f with Some e => e | None => EOF end) dfin.
Proof.
  intro Hall. destruct msgs as [|m msgs].
  - eexists. apply decodes_end.
  - inversion Hall as [|? ? Hm Hrest]; subst. rewrite EncodeAll_Buffer.
    cbn [map]. eexists. eapply decodes_msg.
    + unfold NewDecoder. now apply Decode_alone.
    + now apply decodes_values_then.
Qed.

End MorePipeFacts.

Import MorePipeFacts.

(** X11.  [read] delivers whole what one gob encoder kept for all messages
    has written: for every sequence of messages within the limits of the
    library, empty or not, there are runs on that stream to the end of
    [read], and in each of them the consumer has received, or finds waiting
    in the message channel, exactly these messages as they arrive, in order
    (an [Args] that was empty and not nil arrives as nil), nothing was put
    on the error channel, and both channels are closed. *)
Theorem one_encoder_stream_arrives_whole msgs :
  Forall fits msgs ->
  (exists t s,
      rrun (ChannelFromReader
              (NewReader (w_out (enc_w (EncodeAll (NewEncoder Buffer) msgs))))) t s
      /\ rs_pc s = RExit)
  /\ forall t s,
       rrun (ChannelFromReader
               (NewReader (w_out (enc_w (EncodeAll (NewEncoder Buffer) msgs))))) t s ->
       rs_pc s = RExit ->
       delivered t = map arrives msgs
       /\ msgsReceived t ++ buf (rs_ch s) = map arrives msgs
       /\ errsEmitted t = []
       /\ errsTaken t ++ buf (rs_errCh s) = []
       /\ closed (rs_ch s) = true /\ closed (rs_errCh s) = true.
Proof.
  intro Hall. destruct (decodes_one_encoder_then None msgs Hall) as [dfin Hd].
  fold (NewReader (w_out (enc_w (EncodeAll (NewEncoder Buffer) msgs)))) in Hd.
  split.
  - destruct (read_exits _ _ _ _ [] _ Hd (run_nil _ _)) as (t & s & Hr & Hp & _).
    eauto.
  - intros t s Hr Hp.
    destruct (read_at_exit _ _ _ _ _ _ Hd Hr Hp) as (H1 & H2 & H3 & H4).
    destruct (queues_at_exit _ _ _ _ _ _ Hd Hr Hp) as (Hq1 & Hq2 & _).
    repeat split; assumption.
Qed.

Lemma one_encoder_stream_arrives_whole_witness :
  let data := w_out (enc_w (EncodeAll (NewEncoder Buffer)
                              [regenerate; restartNoArgs; destroy])) in
  let x := rsched (inTurn 10) (ChannelFromReader (NewReader data)) in
  Forall fits [regenerate; restartNoArgs; destroy]
  /\ msgsReceived (fst x) ++ buf (rs_ch (snd x)) = [regenerate; restart; destroy]
  /\ msgsReceived (fst x) = [regenerate; restart; destroy].
Proof.
  cbv zeta.
  set (data := w_out (enc_w (EncodeAll (NewEncoder Buffer)
                               [regenerate; restartNoArgs; destroy]))).
  set (x := rsched (inTurn 10) (ChannelFromReader (NewReader data))).
  assert (Hf : Forall fits [regenerate; restartNoArgs; destroy])
    by (repeat constructor; vm_compute; (reflexivity || discriminate)).
  destruct (one_encoder_stream_arrives_whole _ Hf) as [_ H].
  destruct (H (fst x) (snd x) (rsched_sound _ _ _ _ (surjective_pairing x))
              ltac:(vm_compute; reflexivity)) as (_ & H1 & _).
  split; [exact Hf|]. split; [exact H1|vm_compute; reflexivity].
Defined.

(** X12.  [write] wired to [read] over a buffer, with two messages or more,
    all within the limits of the library: there are runs to the end of
    [write]; [write] reports no error; there are runs of [read] on the
    buffer to its end; and in each of them the consumer has received, or
    finds waiting in the message channel, the first message only, and has
    received, or finds waiting in the error channel, the error of a
    repeated type description and no other; Decode was called twice; and
    the decoder has left unread everything after the first type description
    of the second message. *)
Theorem more_than_one_message_one_arrives m1 m2 ms :
  Forall fits (m1 :: m2 :: ms) ->
  (exists wt ws,
      wrun (ChannelFromWriter Buffer) wt ws
      /\ sentMsgs wt = m1 :: m2 :: ms /\ ws_pc ws = WExit)
  /\ forall wt ws,
       wrun (ChannelFromWriter Buffer) wt ws ->
       sentMsgs wt = m1 :: m2 :: ms ->
       ws_pc ws = WExit ->
       errsSent wt = []
       /\ errsReceived wt ++ buf (ws_errCh ws) = []
       /\ (exists rt rs,
             rrun (ChannelFromReader (NewReader (w_out (ws_w ws)))) rt rs
             /\ rs_pc rs = RExit)
       /\ forall rt rs,
            rrun (ChannelFromReader (NewReader (w_out (ws_w ws)))) rt rs ->
            rs_pc rs = RExit ->
            delivered rt = [arrives m1]
            /\ msgsReceived rt ++ buf (rs_ch rs) = [arrives m1]
            /\ errsEmitted rt = [ErrDuplicateType]
            /\ errsTaken rt ++ buf (rs_errCh rs) = [ErrDuplicateType]
            /\ decodeCalls rt = [inl (arrives m1); inr ErrDuplicateType]
            /\ r_data (dec_r (rs_dec rs))
               = frame (typeDef tArgs wireArgs) ++ frame (valueOf m2)
                   ++ List.concat (map encodeAlone ms).
Proof.
  intro Hall. assert (Hf : fits m1) by now inversion Hall.
  split; [apply write_completes|]. intros wt ws Hw Hs Hpc.
  destruct (Buffer_at_exit _ _ Hw Hpc) as [Hout Herr]. rewrite Hs in Hout.
  rewrite Hout. pose proof (decodes_each m1 m2 ms Hf) as Hd.
  split; [exact Herr|].
  split; [now rewrite <- (wi_errq _ _ _ (WInv_run _ _ _ Hw))|]. split.
  - destruct (read_exits _ _ _ _ [] _ Hd (run_nil _ _)) as (rt & rs & Hr & Hp & _).
    eauto.
  - intros rt rs Hr Hp.
    destruct (read_at_exit _ _ _ _ _ _ Hd Hr Hp) as (H1 & H2 & _).
    destruct (queues_at_exit _ _ _ _ _ _ Hd Hr Hp) as (Hq1 & Hq2 & Hq3).
    pose proof (RScript_run _ _ _ _ _ _ Hd Hr) as R. unfold RScript in R.
    rewrite Hp in R. destruct R as (_ & Hdec & _).
    rewrite Hdec. repeat split; auto.
Qed.

Lemma more_than_one_message_one_arrives_witness :
  let w := wsched (inTurn 6) (Some [regenerate; restart; destroy])
             (ChannelFromWriter Buffer) in
  let x := rsched (inTurn 8) (ChannelFromReader (NewReader (w_out (ws_w (snd w))))) in
  Forall fits [regenerate; restart; destroy]
  /\ msgsReceived (fst x) ++ buf (rs_ch (snd x)) = [regenerate]
  /\ errsTaken (fst x) ++ buf (rs_errCh (snd x)) = [ErrDuplicateType]
  /\ msgsReceived (fst x) = [regenerate]
  /\ errsTaken (fst x) = [ErrDuplicateType].
Proof.
  cbv zeta.
  set (w := wsched (inTurn 6) (Some [regenerate; restart; destroy])
              (ChannelFromWriter Buffer)).
  set (x := rsched (inTurn 8) (ChannelFromReader (NewReader (w_out (ws_w (snd w)))))).
  assert (Hf : Forall fits [regenerate; restart; destroy])
    by (repeat constructor; vm_compute; (reflexivity || discriminate)).
  destruct (more_than_one_message_one_arrives regenerate restart [destroy] Hf) as [_ H].
  destruct (H (fst w) (snd w) (wsched_sound _ _ _ _ _ (surjective_pairing w))
              ltac:(vm_compute; reflexivity) ltac:(vm_compute; reflexivity))
    as (_ & _ & _ & Hr).
  destruct (Hr (fst x) (snd x) (rsched_sound _ _ _ _ (surjective_pairing x))
              ltac:(vm_compute; reflexivity)) as (_ & H1 & _ & H2 & _).
  split; [exact Hf|]. split; [exact H1|]. split; [exact H2|].
  split; vm_compute; reflexivity.
Defined.

(** X13.  A failure of the source is reported: when the source holds the
    records one encoder wrote for the messages [msgs], none or more, all
    within the limits of the library, and then fails with an error [e]
    other than io.EOF, there are runs to the end of [read], and in each of
    them the consumer has received, or finds waiting in the message
    channel, exactly [msgs] as they arrive, and has received, or finds
    waiting in the error channel, exactly [e]; both channels are closed. *)
Theorem source_failure_is_reported msgs e :
  Forall fits msgs ->
  isEOF e = false ->
  (exists t s,
      rrun (ChannelFromReader
              (FailingAfter (w_out (enc_w (EncodeAll (NewEncoder Buffer) msgs))) e)) t s
      /\ rs_pc s = RExit)
  /\ forall t s,
       rrun (ChannelFromReader
               (FailingAfter (w_out (enc_w (EncodeAll (NewEncoder Buffer) msgs))) e)) t s ->
       rs_pc s = RExit ->
       delivered t = map arrives msgs
       /\ msgsReceived t ++ buf (rs_ch s) = map arrives msgs
       /\ errsEmitted t = [e]
       /\ errsTaken t ++ buf (rs_errCh s) = [e]
       /\ closed (rs_ch s) = true /\ closed (rs_errCh s) = true.
Proof.
  intros Hall He. destruct (decodes_one_encoder_then (Some e) msgs Hall) as [dfin Hd].
  fold (FailingAfter (w_out (enc_w (EncodeAll (NewEncoder Buffer) msgs))) e) in Hd.
  split.
  - destruct (read_exits _ _ _ _ [] _ Hd (run_nil _ _)) as (t & s & Hr & Hp & _).
    eauto.
  - intros t s Hr Hp.
    destruct (read_at_exit _ _ _ _ _ _ Hd Hr Hp) as (H1 & H2 & H3 & H4).
    destruct (queues_at_exit _ _ _ _ _ _ Hd Hr Hp) as (Hq1 & Hq2 & _).
    rewrite He in H2, Hq2. repeat split; assumption.
Qed.

Lemma source_failure_is_reported_witness :
  let data := w_out (enc_w (EncodeAll (NewEncoder Buffer) [regenerate; restart])) in
  let x := rsched (inTurn 8)
             (ChannelFromReader (FailingAfter data (ErrIO "connection reset"))) in
  msgsReceived (fst x) ++ buf (rs_ch (snd x)) = [regenerate; restart]
  /\ errsTaken (fst x) ++ buf (rs_errCh (snd x)) = [ErrIO "connection reset"]
  /\ msgsReceived (fst x) = [regenerate; restart]
  /\ errsTaken (fst x) = [ErrIO "connection reset"].
Proof.
  cbv zeta.
  set (data := w_out (enc_w (EncodeAll (NewEncoder Buffer) [regenerate; restart]))).
  set (x := rsched (inTurn 8)
              (ChannelFromReader (FailingAfter data (ErrIO "connection reset")))).
  assert (Hf : Forall fits [regenerate; restart])
    by (repeat constructor; vm_compute; (reflexivity || discriminate)).
  destruct (source_failure_is_reported [regenerate; restart]
              (ErrIO "connection reset") Hf eq_refl) as [_ H].
  destruct (H (fst x) (snd x) (rsched_sound _ _ _ _ (surjective_pairing x))
              ltac:(vm_compute; reflexivity)) as (_ & H1 & _ & H2 & _).
  split; [exact H1|]. split; [exact H2|]. split; vm_compute; reflexivity.
Defined.



(** * The pool list handler *)

Module PoolFacts.
Import Pools.

Lemma rangeContexts_spec contexts : forall teams poolNames,
  rangeContexts contexts teams poolNames
  = if existsb isGlobal contexts then (None, None)
    else (Some (teams ++ teamsOf contexts), Some (poolNames ++ poolsOf contexts)).
Proof.
  induction contexts as [|c cs IH]; intros teams poolNames; cbn [rangeContexts existsb].
  - cbn. now rewrite !app_nil_r.
  - unfold isGlobal at 1, teamsOf, poolsOf. cbn [flat_map].
    destruct (CtxType c); cbn [orb app]; [reflexivity| | |]; rewrite IH;
      destruct (existsb isGlobal cs); try reflexivity;
      unfold teamsOf, poolsOf; now rewrite <- ?app_assoc.
Qed.

Lemma existsb_eqb_In x l : existsb (String.eqb x) l = true <-> In x l.
Proof.
  rewrite existsb_exists. split.
  - intros (y & Hy & He). apply String.eqb_eq in He. now subst.
  - intro H. exists x. split; [exact H|apply String.eqb_refl].
Qed.

Lemma NoDup_snoc {A : Type} (x : A) l : ~ In x l -> NoDup l -> NoDup (l ++ [x]).
Proof.
  induction l as [|a l IH]; intros Hx Hnd; cbn [app].
  - constructor; [intros []|constructor].
  - inversion Hnd as [|? ? Ha Hnd']; subst. constructor.
    + rewrite in_app_iff. cbn [In]. intros [H|[H|[]]]; [tauto|].
      apply Hx. now left.
    + apply IH; [|exact Hnd']. intro H. apply Hx. now right.
Qed.

Section Unique.
Context {Pool : Type} (Name : Pool -> string).

(** The loop keeps the names of the pools kept distinct, and [poolsMap] the
    set of these names. *)
Lemma uniquePools_NoDup pools : forall seen acc,
  (forall x, In x seen <-> In x (map Name acc)) ->
  NoDup (map Name acc) ->
  NoDup (map Name (uniquePools Name pools seen acc)).
Proof.
  induction pools as [|p pools IH]; intros seen acc Hseen Hnd; cbn [uniquePools];
    [exact Hnd|].
  destruct (existsb (String.eqb (Name p)) seen) eqn:E.
  - now apply IH.
  - assert (Hnot : ~ In (Name p) seen).
    { intro H. apply existsb_eqb_In in H. congruence. }
    apply IH.
    + intro x. rewrite map_app, in_app_iff. cbn [In map]. rewrite <- Hseen. tauto.
    + rewrite map_app. cbn [map]. apply NoDup_snoc; [now rewrite <- Hseen|exact Hnd].
Qed.

(** A pool is kept exactly when it was kept before or is the first of its
    name, a name not seen before. *)
Lemma uniquePools_In pools : forall seen acc p,
  In p (uniquePools Name pools seen acc) <->
  In p acc
  \/ exists l1 l2,
       pools = l1 ++ p :: l2
       /\ ~ In (Name p) (map Name l1) /\ ~ In (Name p) seen.
Proof.
  induction pools as [|q pools IH]; intros seen acc p; cbn [uniquePools].
  - split; [now left|].
    intros [H|(l1 & l2 & H & _)]; [exact H|]. destruct l1; discriminate.
  - destruct (existsb (String.eqb (Name q)) seen) eqn:E.
    + assert (Hq : In (Name q) seen) by now apply existsb_eqb_In.
      rewrite IH. split.
      * intros [H|(l1 & l2 & -> & H1 & H2)]; [now left|].
        right. exists (q :: l1), l2. repeat split; auto.
        cbn [map In]. intros [He|Hin]; [|tauto]. rewrite He in Hq. tauto.
      * intros [H|(l1 & l2 & Heq & H1 & H2)]; [now left|].
        destruct l1 as [|a l1]; cbn [app] in Heq; injection Heq as <- ->.
        -- tauto.
        -- right. exists l1, l2. repeat split; auto.
           intro Hin. apply H1. cbn [map In]. now right.
    + assert (Hq : ~ In (Name q) seen).
      { intro H. apply existsb_eqb_In in H. congruence. }
      rewrite IH. rewrite in_app_iff. cbn [In]. split.
      * intros [[H|[<-|[]]]|(l1 & l2 & -> & H1 & H2)].
        -- now left.
        -- right. exists [], pools. repeat split; auto.
        -- right. exists (q :: l1), l2. repeat split.
           ++ cbn [map In] in *. tauto.
           ++ cbn [In] in H2. tauto.
      * intros [H|(l1 & l2 & Heq & H1 & H2)]; [tauto|].
        destruct l1 as [|a l1]; cbn [app] in Heq; injection Heq as <- ->.
        -- tauto.
        -- right. exists l1, l2. repeat split.
           ++ intro Hin. apply H1. cbn [map In]. now right.
           ++ cbn [In]. intros [He|Hin]; [|tauto].
              apply H1. cbn [map In]. now left.
Qed.

(** Pools whose names are distinct, and not seen before, are all kept, in
    their order. *)
Lemma uniquePools_distinct pools : forall seen acc,
  NoDup (map Name pools) ->
  (forall p, In p pools -> ~ In (Name p) seen) ->
  uniquePools Name pools seen acc = acc ++ pools.
Proof.
  induction pools as [|q pools IH]; intros seen acc Hnd Hseen; cbn [uniquePools].
  - now rewrite app_nil_r.
  - cbn [map] in Hnd. inversion Hnd as [|? ? Hq Hnd']; subst.
    destruct (existsb (String.eqb (Name q)) seen) eqn:E.
    + apply existsb_eqb_In in E. exfalso. apply (Hseen q); [now left|exact E].
    + rewrite IH; [now rewrite <- app_assoc|exact Hnd'|].
      intros p Hp [He|Hin].
      * apply Hq. rewrite He. now apply in_map.
      * apply (Hseen p); [now right|exact Hin].
Qed.

End Unique.

End PoolFacts.

Import Pools PoolFacts.

(** X15.  The list [poolList] builds from the pools it was given holds no
    two pools of the same name; a pool is in it exactly when it is the first
    of its name among the pools given, so every name given is still there;
    and when the names given are distinct already the list is the pools
    given, in their order. *)
Theorem pool_list_keeps_first_of_each_name
    (Pool : Type) (Name : Pool -> string) (pools : list Pool) :
  NoDup (map Name (uniquePools Name pools [] []))
  /\ (forall p,
        In p (uniquePools Name pools [] []) <->
        exists l1 l2, pools = l1 ++ p :: l2 /\ ~ In (Name p) (map Name l1))
  /\ (forall p,
        In p pools -> In (Name p) (map Name (uniquePools Name pools [] [])))
  /\ (NoDup (map Name pools) -> uniquePools Name pools [] [] = pools).
Proof.
  assert (Hin : forall p,
            In p (uniquePools Name pools [] []) <->
            exists l1 l2, pools = l1 ++ p :: l2 /\ ~ In (Name p) (map Name l1)).
  { intro p. rewrite uniquePools_In. cbn [In]. split.
    - intros [[]|(l1 & l2 & H1 & H2 & _)]. eauto.
    - intros (l1 & l2 & H1 & H2). right. exists l1, l2. tauto. }
  split; [|split; [exact Hin|split]].
  - apply uniquePools_NoDup; [|constructor]. intro x. cbn. tauto.
  - intros p Hp.
    assert (Hfirst : forall l (q : Pool), In q l ->
              exists q' l1 l2, l = l1 ++ q' :: l2 /\ Name q' = Name q
                               /\ ~ In (Name q') (map Name l1)).
    { induction l as [|a l IH]; intros q Hq; [destruct Hq|].
      destruct (string_dec (Name a) (Name q)) as [He|Hne].
      - exists a, [], l. repeat split; auto.
      - destruct Hq as [->|Hq]; [congruence|].
        destruct (IH q Hq) as (q' & l1 & l2 & -> & He & Hn).
        exists q', (a :: l1), l2. repeat split; auto.
        cbn [map In]. intros [H|H]; [congruence|tauto]. }
    destruct (Hfirst pools p Hp) as (q' & l1 & l2 & Heq & He & Hn).
    rewrite <- He. apply in_map. apply Hin. eauto.
  - intro Hnd. now rewrite uniquePools_distinct.
Qed.

Lemma pool_list_keeps_first_of_each_name_witness :
  uniquePools fst [("pool1", "docker"); ("pool2", "swarm")]%string [] []
  = [("pool1", "docker"); ("pool2", "swarm")]%string.
Proof.
  apply (pool_list_keeps_first_of_each_name (string * string) fst).
  cbn [map fst]. repeat constructor; cbn [In]; intuition discriminate.
Defined.

(** X16.  Which pools [poolList] asks the provisioner for.  With a global
    context among the contexts of the token it asks for the possible pools
    of no team in particular (a nil slice) and looks up no pool by name,
    whatever the other contexts are; without one it asks for the possible
    pools of the teams of its team contexts, in their order, and looks up by
    name the pools of its pool contexts, if there are any; contexts of any
    other type change nothing. *)
Theorem pool_list_asks_by_context
    (Token Pool E : Type) (Name : Pool -> string)
    (ForAppCreate ForPoolRead : Token -> list permissionContext)
    (ListPossiblePools : option (list string) -> list Pool + E)
    (ListPools : list string -> list Pool + E)
    (EncodeJSON : list Pool -> option E) (t : Token) :
  let contexts := ForAppCreate t ++ ForPoolRead t in
  poolList Name ForAppCreate ForPoolRead ListPossiblePools ListPools EncodeJSON t
  = if existsb isGlobal contexts then
      match ListPossiblePools None with
      | inr err => (Nothing, Some err)
      | inl pools => answer EncodeJSON (uniquePools Name pools [] [])
      end
    else
      match ListPossiblePools (Some (teamsOf contexts)) with
      | inr err => (Nothing, Some err)
      | inl pools =>
          match poolsOf contexts with
          | [] => answer EncodeJSON (uniquePools Name pools [] [])
          | names =>
              match ListPools names with
              | inr err => (Nothing, Some err)
              | inl namedPools =>
                  answer EncodeJSON (uniquePools Name (pools ++ namedPools) [] [])
              end
          end
      end.
Proof.
  cbv zeta. unfold poolList, contextsOf. rewrite rangeContexts_spec.
  destruct (existsb isGlobal (ForAppCreate t ++ ForPoolRead t)); [reflexivity|].
  cbn [app]. destruct (ListPossiblePools (Some (teamsOf (ForAppCreate t ++ ForPoolRead t))));
    [|reflexivity].
  destruct (poolsOf (ForAppCreate t ++ ForPoolRead t)); reflexivity.
Qed.

Lemma pool_list_asks_by_context_witness :
  samplePoolList 1%nat
  = (JSONBody [("theonepool", "docker"); ("pool1", "docker")]%string, None).
Proof.
  unfold samplePoolList.
  rewrite (pool_list_asks_by_context nat (string * string) error fst).
  reflexivity.
Defined.

(** X17.  What [poolList] never answers: it writes nothing when it returns
    an error of the provisioner; it answers 204 only without an error; and
    a list it sends is never empty, never holds two pools of the same name,
    and holds only pools the provisioner listed. *)
Theorem pool_list_answers
    (Token Pool E : Type) (Name : Pool -> string)
    (ForAppCreate ForPoolRead : Token -> list permissionContext)
    (ListPossiblePools : option (list string) -> list Pool + E)
    (ListPools : list string -> list Pool + E)
    (EncodeJSON : list Pool -> option E) (t : Token) :
  match poolList Name ForAppCreate ForPoolRead ListPossiblePools ListPools EncodeJSON t with
  | (Nothing, err) =>
      exists e, err = Some e
                /\ ((exists teams, ListPossiblePools teams = inr e)
                    \/ exists names, ListPools names = inr e)
  | (NoContent, err) => err = None
  | (JSONBody body, err) =>
      body <> [] /\ NoDup (map Name body) /\ err = EncodeJSON body
      /\ forall p, In p body ->
           (exists teams pools, ListPossiblePools teams = inl pools /\ In p pools)
           \/ (exists names pools, ListPools names = inl pools /\ In p pools)
  end.
Proof.
  assert (Hans : forall pools : list Pool,
            (forall p, In p pools ->
               (exists teams ps, ListPossiblePools teams = inl ps /\ In p ps)
               \/ (exists names ps, ListPools names = inl ps /\ In p ps)) ->
            match answer EncodeJSON (uniquePools Name pools [] []) with
            | (Nothing, err) =>
                exists e, err = Some e
                          /\ ((exists teams, ListPossiblePools teams = inr e)
                              \/ exists names, ListPools names = inr e)
            | (NoContent, err) => err = None
            | (JSONBody body, err) =>
                body <> [] /\ NoDup (map Name body) /\ err = EncodeJSON body
                /\ forall p, In p body ->
                     (exists teams ps, ListPossiblePools teams = inl ps /\ In p ps)
                     \/ (exists names ps, ListPools names = inl ps /\ In p ps)
            end).
  { intros pools Hfrom.
    destruct (pool_list_keeps_first_of_each_name Pool Name pools) as (Hnd & Hin & _).
    unfold answer. destruct (uniquePools Name pools [] []) as [|p0 l] eqn:Eu;
      [reflexivity|].
    split; [discriminate|]. split; [exact Hnd|]. split; [reflexivity|].
    intros p Hp. apply Hfrom. apply Hin in Hp.
    destruct Hp as (l1 & l2 & -> & _). apply in_or_app. right. now left. }
  unfold poolList.
  destruct (rangeContexts (contextsOf ForAppCreate ForPoolRead t) [] [])
    as [teams poolNames].
  destruct (ListPossiblePools teams) as [pools|e] eqn:EP.
  2:{ exists e. split; [reflexivity|]. left. eauto. }
  assert (Hplain : forall p, In p pools ->
            (exists teams ps, ListPossiblePools teams = inl ps /\ In p ps)
            \/ (exists names ps, ListPools names = inl ps /\ In p ps)).
  { intros p Hp. left. eauto. }
  destruct poolNames as [[|n names]|]; try (apply Hans; exact Hplain).
  destruct (ListPools (n :: names)) as [named|e] eqn:EN.
  2:{ exists e. split; [reflexivity|]. right. eauto. }
  apply Hans. intros p Hp. apply in_app_or in Hp as [Hp|Hp]; [auto|].
  right. eauto.
Qed.

Lemma pool_list_answers_witness :
  NoDup (map fst [("theonepool", "docker"); ("pool1", "docker")]%string).
Proof.
  exact (proj1 (proj2
    (pool_list_answers nat (string * string) error fst
       sampleContexts (fun _ => []) samplePools sampleNamed (fun _ => None) 1%nat))).
Defined.
